(** * exrtool: frame grouping, channel merge and the worker pool

    A shallow embedding of [src/exrtool.cpp] and the properties of its
    frame-number extraction, grouping, channel merge, output naming,
    progress accounting and worker loop.

    Conventions.
    - [uint32_t] values are [Z] in [0, 2^32), wrap-around written with
      [to_uint32]; [int] values are [Z] wrapped with [wrap_int].
    - C strings and [std::string] are [string] / [list ascii].
    - [std::vector] is [list]; [std::unordered_set<std::string>] is
      [gset string]; [std::map] is an association list kept in ascending
      key order, as iteration over a [std::map] yields it.
    - The image codec (tinyexr) is external: its entry points are
      parameters of the model. *)

From Stdlib Require Import ZArith Lia Ascii String Sorted.
From stdpp Require Import base list gmap strings.

Local Open Scope Z_scope.

(** ** C library functions used by the source *)

Module Libc.

Definition to_uint32 (z : Z) : Z := z mod 2 ^ 32.

(** Two's-complement [int] of 32 bits. *)
Definition wrap_int (z : Z) : Z := (z + 2 ^ 31) mod 2 ^ 32 - 2 ^ 31.

Definition code (c : ascii) : Z := Z.of_N (N_of_ascii c).

Definition isdigit (c : ascii) : bool := (48 <=? code c) && (code c <=? 57).

Definition isspace (c : ascii) : bool :=
  (code c =? 32) || ((9 <=? code c) && (code c <=? 13)).

Definition digit_val (c : ascii) : Z := code c - 48.

(** [LONG_MAX] and [LONG_MIN] of a 64-bit [long]. *)
Definition LONG_MAX : Z := 2 ^ 63 - 1.
Definition LONG_MIN : Z := - 2 ^ 63.

(** The value of the leading digits of [s], as the digit loop of [strtol]
    reads them in base 10. *)
Fixpoint strtol_digits (acc : Z) (s : list ascii) : Z :=
  match s with
  | c :: s' =>
      if isdigit c then strtol_digits (acc * 10 + digit_val c) s'
      else acc
  | [] => acc
  end.

Fixpoint skip_spaces (s : list ascii) : list ascii :=
  match s with
  | c :: s' => if isspace c then skip_spaces s' else s
  | [] => []
  end.

(** [strtol(s, NULL, 10)]: white space, an optional sign, the digits; a
    value outside the range of [long] yields [LONG_MAX] or [LONG_MIN]. *)
Definition strtol (s : list ascii) : Z :=
  match skip_spaces s with
  | "-"%char :: s' => Z.max LONG_MIN (- strtol_digits 0 s')
  | "+"%char :: s' => Z.min (strtol_digits 0 s') LONG_MAX
  | s' => Z.min (strtol_digits 0 s') LONG_MAX
  end.

(** [atoi].  The C standard leaves the result open once the value leaves
    the range of [int]; the model follows glibc on a 64-bit target, where
    [atoi(s)] is [(int) strtol(s, NULL, 10)]: the value saturates at the
    bounds of [long], and the conversion to [int] keeps its low 32 bits. *)
Definition atoi (s : list ascii) : Z := wrap_int (strtol s).

(** [strcmp] on NUL-free strings: the sign of the first difference, the
    characters compared as [unsigned char]. *)
Fixpoint strcmp (a b : string) : Z :=
  match a, b with
  | EmptyString, EmptyString => 0
  | EmptyString, String _ _ => -1
  | String _ _, EmptyString => 1
  | String x a', String y b' =>
      if code x <? code y then -1
      else if code y <? code x then 1
      else strcmp a' b'
  end.

(** Decimal digits of an unsigned value, most significant first. *)
Fixpoint utoa_aux (fuel : nat) (n : Z) (acc : list ascii) : list ascii :=
  match fuel with
  | O => acc
  | S fuel' =>
      let acc' := ascii_of_N (Z.to_N (48 + n mod 10)) :: acc in
      if n / 10 =? 0 then acc' else utoa_aux fuel' (n / 10) acc'
  end.

(** A [uint32_t] has at most ten decimal digits. *)
Definition utoa (n : Z) : list ascii := utoa_aux 10 n [].

(** [printf("%0*u", width, n)]: zero-padded on the left to at least
    [width] characters; a negative [width] is taken as the [-] flag with
    the width [-width], which pads with spaces on the right. *)
Definition format_0star_u (width : Z) (n : Z) : list ascii :=
  let ds := utoa n in
  let len := Z.of_nat (length ds) in
  if width <? 0
  then ds ++ replicate (Z.to_nat (- width - len)) " "%char
  else replicate (Z.to_nat (width - len)) "0"%char ++ ds.

(** [snprintf(buf, size, ...)]: at most [size - 1] characters are
    stored. *)
Definition snprintf (size : nat) (out : list ascii) : list ascii :=
  take (size - 1) out.

End Libc.
Import Libc.

(** ** [strip_frame] *)

(** [~0u] *)
Definition NO_FRAME : Z := 2 ^ 32 - 1.

(** [while (p > str && pred(p[-1])) p--;] from position [pos]. *)
Fixpoint scan_back (pred : ascii -> bool) (str : list ascii) (pos : nat) : nat :=
  match pos with
  | O => O
  | S pos' =>
      match str !! pos' with
      | Some c => if pred c then scan_back pred str pos' else pos
      | None => pos
      end
  end.

Definition strip_frame (name : string) : Z :=
  let str := String.list_ascii_of_string name in
  let e := scan_back (fun c => negb (isdigit c)) str (length str) in
  let b := scan_back isdigit str e in
  if (b =? e)%nat then NO_FRAME
  else to_uint32 (atoi (drop b str)).


(** ** Output name of a frame (the [name] computed in [process_frame]) *)

(** [std::string::find_last_of(c)]: the last index holding [c], searched
    downwards from [pos]; [None] is [npos]. *)
Fixpoint find_last_from (c : ascii) (str : list ascii) (pos : nat) : option nat :=
  match pos with
  | O => None
  | S pos' =>
      match str !! pos' with
      | Some x => if Ascii.eqb x c then Some pos' else find_last_from c str pos'
      | None => find_last_from c str pos'
      end
  end.

Definition find_last_of (c : ascii) (str : list ascii) : option nat :=
  find_last_from c str (length str).

(** [std::string::replace(pos, len, s)] *)
Definition string_replace (pos len : nat) (s str : list ascii) : list ascii :=
  take pos str ++ s ++ drop (pos + len) str.

Definition output_path (output_name : string) (frame : Z) : string :=
  let name := String.list_ascii_of_string output_name in
  match find_last_of "#" name with
  | Some e =>
      if negb (frame =? NO_FRAME) then
        let b := scan_back (fun c => Ascii.eqb c "#") name e in
        let num := (e - b + 1)%nat in
        let buf := snprintf 32 (format_0star_u (wrap_int (Z.of_nat num)) frame) in
        String.string_of_list_ascii (string_replace b num buf name)
      else output_name
  | None => output_name
  end.

(** ** The codec interface (tinyexr)

    [ext/tinyexr.h] is not part of the sources.  The members that
    [exrtool.cpp] reads or writes are fields of the records below; the rest
    of each structure is carried along as one opaque component. *)

Class TinyexrTypes := {
  EXRVersion : Type;
  ChannelRest : Type;   (* EXRChannelInfo without name and pixel_type *)
  HeaderRest : Type;    (* EXRHeader without the channel table *)
  ImageRest : Type;     (* EXRImage without the planes *)
  Plane : Type;         (* what an [unsigned char *] plane pointer denotes *)
}.

Record EXRChannelInfo `{TinyexrTypes} := {
  chan_name : string;
  pixel_type : Z;
  chan_rest : ChannelRest;
}.

Record EXRHeader `{TinyexrTypes} := {
  header_rest : HeaderRest;
  header_channels : list EXRChannelInfo;
  pixel_types : list Z;
  requested_pixel_types : list Z;
  header_num_channels : Z;
}.

Record EXRImage `{TinyexrTypes} := {
  image_rest : ImageRest;
  image_images : list Plane;
  image_num_channels : Z;
}.

(** The entry points; a failure ([ret != 0]) is [None] or [inr err]. *)
Class Tinyexr `{TinyexrTypes} := {
  ParseEXRVersionFromFile : string -> option EXRVersion;
  ParseEXRHeaderFromFile : EXRVersion -> string -> EXRHeader + string;
  LoadEXRImageFromFile : EXRHeader -> string -> EXRImage + string;
  SaveEXRImageToFile : EXRImage -> EXRHeader -> string -> option string;
}.

(** ** The run and the world around it *)

Section Model.
Context `{Tinyexr}.

(** [exrtool_file] of the C interface. *)
Record exrtool_file := {
  file_name : string;
  file_channels : list string;
}.

(** [exrtool_input]; of the callback only its presence matters. *)
Record exrtool_input := {
  output_file : string;
  files : list exrtool_file;
  num_threads : nat;
  progress_fn : bool;
}.

Record exrtool_run_file := {
  name : string;
  channels : gset string;
}.

Definition use_channel (file : exrtool_run_file) (channel : string) : bool :=
  bool_decide (channel ∈ channels file).

(** The messages handed to [exrtool_run::error], by format string. *)
Inductive error_message :=
| FailedParseVersion (file : string)
| FailedParseHeader (file err : string)
| FailedLoadImage (file err : string)
| FrameHasNoChannels (frame : Z)
| FailedSaveImage (out err : string).

(** Where a worker thread stands in the lambda of [exrtool_process]. *)
Inductive worker :=
| Claiming                 (* at the loop test, before the fetch_add *)
| Processing (ix : nat)    (* in process_next_frame, index in bounds *)
| Notifying (ix : nat)     (* in the loop body *)
| Finishing                (* loop left, before a_threads_done.fetch_add *)
| FinalNotify              (* before the last progress_fn call *)
| Exited
| Faulted.                 (* an access outside a vector *)

Record exrtool_run := {
  frames : list (Z * list exrtool_run_file);
  output_name : string;
  input : exrtool_input;
  a_frames_started : Z;
  a_progress : Z;
  a_threads_done : Z;
  threads : list worker;
  errors : list error_message;
}.

(** What the run does to its environment: the codec calls made and the
    [progress_fn] calls made (by which thread; after which claimed index,
    or [None] for the call after the loop). *)
Inductive codec_call :=
| CallParseVersion (file : string)
| CallParseHeader (file : string)
| CallLoadImage (file : string)
| CallSaveImage (image : EXRImage) (header : EXRHeader) (out : string).

Record world := {
  run : exrtool_run;
  codec_log : list codec_call;
  progress_log : list (nat * option nat);
}.

Definition with_run (f : exrtool_run -> exrtool_run) (w : world) : world :=
  {| run := f (run w); codec_log := codec_log w; progress_log := progress_log w |}.

Definition call (c : codec_call) (w : world) : world :=
  {| run := run w; codec_log := codec_log w ++ [c]; progress_log := progress_log w |}.

Definition notify (tid : nat) (ix : option nat) (w : world) : world :=
  if progress_fn (input (run w))
  then {| run := run w; codec_log := codec_log w;
          progress_log := progress_log w ++ [(tid, ix)] |}
  else w.

(** [run.error(...)] *)
Definition error (msg : error_message) : world -> world :=
  with_run (fun r =>
    {| frames := frames r; output_name := output_name r; input := input r;
       a_frames_started := a_frames_started r; a_progress := a_progress r;
       a_threads_done := a_threads_done r; threads := threads r;
       errors := errors r ++ [msg] |}).

(** [run.a_progress.fetch_add(1)] *)
Definition progress_fetch_add : world -> world :=
  with_run (fun r =>
    {| frames := frames r; output_name := output_name r; input := input r;
       a_frames_started := a_frames_started r;
       a_progress := to_uint32 (a_progress r + 1);
       a_threads_done := a_threads_done r; threads := threads r;
       errors := errors r |}).

(** [run.a_frames_started.fetch_add(1)]; the old value is read before. *)
Definition frames_started_fetch_add : world -> world :=
  with_run (fun r =>
    {| frames := frames r; output_name := output_name r; input := input r;
       a_frames_started := to_uint32 (a_frames_started r + 1);
       a_progress := a_progress r;
       a_threads_done := a_threads_done r; threads := threads r;
       errors := errors r |}).

(** [run->a_threads_done.fetch_add(1)] *)
Definition threads_done_fetch_add : world -> world :=
  with_run (fun r =>
    {| frames := frames r; output_name := output_name r; input := input r;
       a_frames_started := a_frames_started r; a_progress := a_progress r;
       a_threads_done := to_uint32 (a_threads_done r + 1);
       threads := threads r; errors := errors r |}).

Definition set_worker (tid : nat) (s : worker) : world -> world :=
  with_run (fun r =>
    {| frames := frames r; output_name := output_name r; input := input r;
       a_frames_started := a_frames_started r; a_progress := a_progress r;
       a_threads_done := a_threads_done r;
       threads := <[tid := s]> (threads r); errors := errors r |}).

(** ** [process_frame] *)

(** [std::lower_bound] with the comparison [strcmp(lhs.name, rhs.name) < 0]:
    the index of the first entry that does not compare below [chan].  (On a
    range that the comparison partitions, which a sorted table is, this is
    what the library's binary search returns.) *)
Fixpoint lower_bound (table : list EXRChannelInfo) (chan : EXRChannelInfo) : nat :=
  match table with
  | [] => O
  | c :: table' =>
      if strcmp (chan_name c) (chan_name chan) <? 0
      then S (lower_bound table' chan)
      else O
  end.

(** [std::vector::insert(begin() + offset, x)] *)
Definition vector_insert {A} (offset : nat) (x : A) (v : list A) : list A :=
  take offset v ++ x :: drop offset v.

(** The body of the channel loop for one used channel: lines 120-132. *)
Definition merge_channel (chan : EXRChannelInfo) (data : Plane)
    (tables : list EXRChannelInfo * list Plane) : list EXRChannelInfo * list Plane :=
  let '(chans, datas) := tables in
  let offset := lower_bound chans chan in
  match chans !! offset with
  | Some it =>
      if strcmp (chan_name it) (chan_name chan) =? 0
      then (<[offset := chan]> chans, <[offset := data]> datas)
      else (vector_insert offset chan chans, vector_insert offset data datas)
  | None => (vector_insert offset chan chans, vector_insert offset data datas)
  end.

(** One iteration [i] of [for (i = 0; i < header.num_channels; i++)].  The
    codec hands out both arrays with [num_channels] entries; an index
    outside them has no counterpart in the model and leaves the tables as
    they are. *)
Definition merge_index (file : exrtool_run_file) (header : EXRHeader)
    (image : EXRImage) (tables : list EXRChannelInfo * list Plane) (i : nat)
    : list EXRChannelInfo * list Plane :=
  match header_channels header !! i with
  | Some chan =>
      if use_channel file (chan_name chan) then
        match image_images image !! i with
        | Some data => merge_channel chan data tables
        | None => tables
        end
      else tables
  | None => tables
  end.

(** The channel loop, lines 115-133.  ([num_channels] is never negative in
    what the codec returns.) *)
Definition merge_file (file : exrtool_run_file) (header : EXRHeader)
    (image : EXRImage) (tables : list EXRChannelInfo * list Plane)
    : list EXRChannelInfo * list Plane :=
  foldl (merge_index file header image) tables
        (seq 0 (Z.to_nat (header_num_channels header))).

(** The locals of [process_frame]. *)
Record frame_locals := {
  headers : list EXRHeader;
  images : list EXRImage;
  chans : list EXRChannelInfo;
  datas : list Plane;
  ok : bool;
}.

Definition no_locals : frame_locals :=
  {| headers := []; images := []; chans := []; datas := []; ok := true |}.

Definition failed (loc : frame_locals) : frame_locals :=
  {| headers := headers loc; images := images loc; chans := chans loc;
     datas := datas loc; ok := false |}.

(** The loop over the files of the frame, lines 80-137; a [break] ends the
    recursion. *)
Fixpoint decode_files (fs : list exrtool_run_file) (loc : frame_locals)
    (w : world) : frame_locals * world :=
  match fs with
  | [] => (loc, w)
  | file :: rest =>
      let w := call (CallParseVersion (name file)) w in
      match ParseEXRVersionFromFile (name file) with
      | None => (failed loc, error (FailedParseVersion (name file)) w)
      | Some version =>
          let w := call (CallParseHeader (name file)) w in
          match ParseEXRHeaderFromFile version (name file) with
          | inr err => (failed loc, error (FailedParseHeader (name file) err) w)
          | inl header =>
              let w := call (CallLoadImage (name file)) w in
              match LoadEXRImageFromFile header (name file) with
              | inr err => (failed loc, error (FailedLoadImage (name file) err) w)
              | inl image =>
                  let w := progress_fetch_add w in
                  let tables := merge_file file header image (chans loc, datas loc) in
                  decode_files rest
                    {| headers := headers loc ++ [header];
                       images := images loc ++ [image];
                       chans := tables.1; datas := tables.2; ok := ok loc |} w
              end
          end
      end
  end.

(** The composite handed to the codec, lines 145-159. *)
Definition composite_header (header : EXRHeader) (table : list EXRChannelInfo)
    : EXRHeader :=
  let channel_types := pixel_type <$> table in
  {| header_rest := header_rest header;
     header_channels := table;
     pixel_types := channel_types;
     requested_pixel_types := channel_types;
     header_num_channels := wrap_int (Z.of_nat (length table)) |}.

Definition composite_image (image : EXRImage) (planes : list Plane) : EXRImage :=
  {| image_rest := image_rest image;
     image_images := planes;
     image_num_channels := wrap_int (Z.of_nat (length planes)) |}.

(** Lines 144-182.  [None]: [headers[0]] or [images[0]] does not exist. *)
Definition save_frame (frame : Z) (loc : frame_locals) (w : world)
    : option (bool * world) :=
  match headers loc !! 0%nat, images loc !! 0%nat with
  | Some header0, Some image0 =>
      let header := composite_header header0 (chans loc) in
      let image := composite_image image0 (datas loc) in
      let out := output_path (output_name (run w)) frame in
      let w := call (CallSaveImage image header out) w in
      match SaveEXRImageToFile image header out with
      | Some err => Some (false, error (FailedSaveImage out err) w)
      | None => Some (true, w)
      end
  | _, _ => None
  end.

Definition process_frame (w : world) (frame : Z) (fs : list exrtool_run_file)
    : option (bool * world) :=
  let '(loc, w) := decode_files fs no_locals w in
  let '(ok1, w) :=
    if ok loc && (length (chans loc) =? 0)%nat
    then (false, error (FrameHasNoChannels frame) w)
    else (ok loc, w) in
  if ok1 then
    match save_frame frame loc w with
    | Some (ok2, w) => Some (ok2, progress_fetch_add w)
    | None => None
    end
  else Some (false, progress_fetch_add w).

(** ** The workers *)

(** One atomic action of thread [tid].  [process_frame] touches the shared
    state only through the atomic counter and the locked error list, so a
    frame is taken as one action. *)
Definition step (tid : nat) (w : world) : world :=
  match threads (run w) !! tid with
  | Some Claiming =>
      (* process_next_frame, lines 198-199 *)
      let ix := a_frames_started (run w) in
      let w := frames_started_fetch_add w in
      if Z.of_nat (length (frames (run w))) <=? ix
      then set_worker tid Finishing w
      else set_worker tid (Processing (Z.to_nat ix)) w
  | Some (Processing ix) =>
      (* process_next_frame, lines 201-202 *)
      match frames (run w) !! ix with
      | Some (frame, fs) =>
          match process_frame w frame fs with
          | Some (true, w) => set_worker tid (Notifying ix) w
          | Some (false, w) => set_worker tid Finishing w
          | None => set_worker tid Faulted w
          end
      | None => set_worker tid Faulted w
      end
  | Some (Notifying ix) => set_worker tid Claiming (notify tid (Some ix) w)
  | Some Finishing => set_worker tid FinalNotify (threads_done_fetch_add w)
  | Some FinalNotify => set_worker tid Exited (notify tid None w)
  | Some Exited | Some Faulted | None => w
  end.

(** The threads take their actions in the order a schedule names them. *)
Definition run_schedule (sched : list nat) (w : world) : world :=
  foldl (fun w tid => step tid w) w sched.

(** ** [exrtool_process] and [exrtool_poll] *)

(** [frames[frame].push_back(rf)] on the [std::map]. *)
Fixpoint map_push_back (frame : Z) (rf : exrtool_run_file)
    (m : list (Z * list exrtool_run_file)) : list (Z * list exrtool_run_file) :=
  match m with
  | [] => [(frame, [rf])]
  | (k, v) :: m' =>
      if frame <? k then (frame, [rf]) :: m
      else if frame =? k then (k, v ++ [rf]) :: m'
      else (k, v) :: map_push_back frame rf m'
  end.

Definition run_file_of (file : exrtool_file) : exrtool_run_file :=
  {| name := file_name file; channels := list_to_set (file_channels file) |}.

(** Lines 211-226. *)
Definition group_files (fs : list exrtool_file) : list (Z * list exrtool_run_file) :=
  foldl (fun m file => map_push_back (strip_frame (file_name file)) (run_file_of file) m)
        [] fs.

(** Lines 233-241; [cores] is [std::thread::hardware_concurrency()]. *)
Definition thread_count (cores : nat) (input : exrtool_input) : nat :=
  if (num_threads input =? 0)%nat
  then (if (2 <? cores)%nat then cores - 2 else 1)%nat
  else num_threads input.

Definition exrtool_process (cores : nat) (input : exrtool_input) : world :=
  {| run := {| frames := group_files (files input);
               output_name := output_file input;
               input := input;
               a_frames_started := 0; a_progress := 0; a_threads_done := 0;
               threads := replicate (thread_count cores input) Claiming;
               errors := [] |};
     codec_log := []; progress_log := [] |}.

Record exrtool_progress := { done : Z; max : Z }.

Definition exrtool_poll (w : world) : bool * exrtool_progress :=
  (a_threads_done (run w) =? Z.of_nat (length (threads (run w))),
   {| done := a_progress (run w);
      max := Z.of_nat (length (files (input (run w))))
             + Z.of_nat (length (frames (run w))) |}).

Definition exrtool_get_num_errors (w : world) : nat := length (errors (run w)).

Definition exrtool_get_error (w : world) (index : nat) : option error_message :=
  errors (run w) !! index.

End Model.

(** ** A small disk for running the model

    Three readable files, named after the examples of the specification;
    every other file name fails at [ParseEXRVersionFromFile].  The opaque
    parts record the file they were read from, a plane is named
    [file:channel], and saving always succeeds. *)

Module Disk.

#[export] Instance types : TinyexrTypes := {|
  EXRVersion := unit;
  ChannelRest := unit;
  HeaderRest := string;
  ImageRest := string;
  Plane := string;
|}.

Definition contents (file : string) : option (list (string * Z)) :=
  if String.eqb file "a.0001.exr" then Some [("R", 1); ("G", 1)]
  else if String.eqb file "b.0001.exr" then Some [("B", 2); ("R", 2)]
  else if String.eqb file "c.0002.exr" then Some [("Z", 2)]
  else None.

Definition channel (c : string * Z) : EXRChannelInfo :=
  {| chan_name := c.1; pixel_type := c.2; chan_rest := () |}.

Definition parse_version (file : string) : option unit :=
  match contents file with Some _ => Some () | None => None end.

Definition parse_header (_ : unit) (file : string) : EXRHeader + string :=
  match contents file with
  | Some cs =>
      inl {| header_rest := file;
             header_channels := channel <$> cs;
             pixel_types := snd <$> cs;
             requested_pixel_types := snd <$> cs;
             header_num_channels := Z.of_nat (length cs) |}
  | None => inr "no such file"
  end.

Definition load_image (header : EXRHeader) (file : string) : EXRImage + string :=
  inl {| image_rest := file;
         image_images := (fun c => file +:+ ":" +:+ chan_name c) <$> header_channels header;
         image_num_channels := header_num_channels header |}.

#[export] Instance codec : Tinyexr := {|
  ParseEXRVersionFromFile := parse_version;
  ParseEXRHeaderFromFile := parse_header;
  LoadEXRImageFromFile := load_image;
  SaveEXRImageToFile := fun _ _ _ => None;
|}.

Definition request (file : string) (cs : list string) : exrtool_file :=
  {| file_name := file; file_channels := cs |}.

(** [n] workers, a progress callback, and the given files. *)
Definition pool (n : nat) (fs : list exrtool_file) : exrtool_input :=
  {| output_file := "out.####.exr"; files := fs; num_threads := n;
     progress_fn := true |}.

Definition single_worker : list exrtool_file -> exrtool_input := pool 1.

End Disk.

(** * Vocabulary of the properties *)

(** The value a digit string denotes. *)
Definition decimal_from (acc : Z) (ds : list ascii) : Z :=
  foldl (fun a c => a * 10 + digit_val c) acc ds.

Definition decimal (ds : list ascii) : Z := decimal_from 0 ds.

Definition is_digit (c : ascii) : Prop := isdigit c = true.
Definition non_digit (c : ascii) : Prop := isdigit c = false.

(** A name whose rightmost digit run is [ds]: nothing but non-digits
    follows it, and it is not preceded by a digit. *)
Definition rightmost_run (str pre ds suf : list ascii) : Prop :=
  str = pre ++ ds ++ suf /\ ds <> [] /\
  Forall is_digit ds /\ Forall non_digit suf /\
  (pre = [] \/ exists pre' c, pre = pre' ++ [c] /\ non_digit c).

(** A digit string padded with zeros on the left to at least [width]. *)
Definition zero_pad (width : nat) (ds : list ascii) : list ascii :=
  replicate (width - length ds) "0"%char ++ ds.

Definition not_hash (c : ascii) : Prop := Ascii.eqb c "#" = false.

(** A template whose rightmost ['#'] ends a maximal run of [n] of them. *)
Definition rightmost_hash_run (str pre : list ascii) (n : nat) (suf : list ascii)
    : Prop :=
  str = pre ++ replicate n "#"%char ++ suf /\ (1 <= n)%nat /\
  Forall not_hash suf /\
  (pre = [] \/ exists pre' c, pre = pre' ++ [c] /\ not_hash c).

Section Vocabulary.
Context `{Tinyexr}.

(** The order of the merged table: by name, as [strcmp] orders them. *)
Definition chan_lt (a b : EXRChannelInfo) : Prop :=
  strcmp (chan_name a) (chan_name b) < 0.

(** The entry of a merged table under a name: the channel and its plane. *)
Fixpoint table_find (n : string) (cs : list EXRChannelInfo) (ds : list Plane)
    : option (EXRChannelInfo * Plane) :=
  match cs, ds with
  | c :: cs', d :: ds' =>
      if String.eqb (chan_name c) n then Some (c, d) else table_find n cs' ds'
  | _, _ => None
  end.

(** The last of a sequence of supplied channels that carries a name. *)
Fixpoint last_write (n : string) (ws : list (EXRChannelInfo * Plane))
    : option (EXRChannelInfo * Plane) :=
  match ws with
  | [] => None
  | w :: ws' =>
      match last_write n ws' with
      | Some x => Some x
      | None => if String.eqb (chan_name w.1) n then Some w else None
      end
  end.

(** Merging a sequence of supplied channels into a table. *)
Definition merge_all (t : list EXRChannelInfo * list Plane)
    (ws : list (EXRChannelInfo * Plane)) : list EXRChannelInfo * list Plane :=
  foldl (fun t w => merge_channel w.1 w.2 t) t ws.

(** A well-formed merged table: as many planes as channels, and the names
    strictly ascending. *)
Definition table_ok (t : list EXRChannelInfo * list Plane) : Prop :=
  length t.2 = length t.1 /\ StronglySorted chan_lt t.1.

(** What a decoded file supplies, in the order of its header: the channels
    it is asked for, each with its plane. *)
Definition file_writes (file : exrtool_run_file) (header : EXRHeader)
    (image : EXRImage) : list (EXRChannelInfo * Plane) :=
  omap (fun i =>
          match header_channels header !! i, image_images image !! i with
          | Some chan, Some data =>
              if use_channel file (chan_name chan) then Some (chan, data) else None
          | _, _ => None
          end)
       (seq 0 (Z.to_nat (header_num_channels header))).

(** The three decoding calls on one file. *)
Definition decode (file : exrtool_run_file) : option (EXRHeader * EXRImage) :=
  match ParseEXRVersionFromFile (name file) with
  | Some version =>
      match ParseEXRHeaderFromFile version (name file) with
      | inl header =>
          match LoadEXRImageFromFile header (name file) with
          | inl image => Some (header, image)
          | inr _ => None
          end
      | inr _ => None
      end
  | None => None
  end.

(** The files decoded before the first failure, with what was decoded. *)
Fixpoint decoded_prefix (fs : list exrtool_run_file)
    : list (exrtool_run_file * EXRHeader * EXRImage) :=
  match fs with
  | [] => []
  | file :: rest =>
      match decode file with
      | Some (header, image) => (file, header, image) :: decoded_prefix rest
      | None => []
      end
  end.

(** The message recorded for the first file that fails to decode. *)
Fixpoint decode_failure (fs : list exrtool_run_file) : list error_message :=
  match fs with
  | [] => []
  | file :: rest =>
      match ParseEXRVersionFromFile (name file) with
      | None => [FailedParseVersion (name file)]
      | Some version =>
          match ParseEXRHeaderFromFile version (name file) with
          | inr err => [FailedParseHeader (name file) err]
          | inl header =>
              match LoadEXRImageFromFile header (name file) with
              | inr err => [FailedLoadImage (name file) err]
              | inl _ => decode_failure rest
              end
          end
      end
  end.

(** All files of the group decode. *)
Definition all_decoded (fs : list exrtool_run_file) : bool :=
  (length (decoded_prefix fs) =? length fs)%nat.

(** What the workers never change. *)
Definition same_setup (w w' : world) : Prop :=
  frames (run w') = frames (run w) /\
  output_name (run w') = output_name (run w) /\
  input (run w') = input (run w).

(** Everything the decoded files of a group supply, in scan order. *)
Definition group_writes (fs : list exrtool_run_file)
    : list (EXRChannelInfo * Plane) :=
  mjoin ((fun d => file_writes d.1.1 d.1.2 d.2) <$> decoded_prefix fs).

(** The errors a frame adds to the run. *)
Definition frame_errors (w : world) (frame : Z) (fs : list exrtool_run_file)
    : list error_message :=
  let loc := (decode_files fs no_locals w).1 in
  if all_decoded fs then
    match chans loc, headers loc, images loc with
    | [], _, _ => [FrameHasNoChannels frame]
    | _, header0 :: _, image0 :: _ =>
        let out := output_path (output_name (run w)) frame in
        match SaveEXRImageToFile (composite_image image0 (datas loc))
                (composite_header header0 (chans loc)) out with
        | Some err => [FailedSaveImage out err]
        | None => []
        end
    | _, _, _ => []
    end
  else decode_failure fs.

(** Where an entry of a group's merged table comes from. *)
Definition supplied (fs : list exrtool_run_file) (c : EXRChannelInfo) : Prop :=
  exists d, d ∈ decoded_prefix fs /\
            c ∈ header_channels d.1.2 /\ chan_name c ∈ channels d.1.1.

(** Codec calls that start the decoding of a file, and calls that save. *)
Definition is_decode_attempt (c : codec_call) : bool :=
  match c with CallParseVersion _ => true | _ => false end.

Definition is_save_attempt (c : codec_call) : bool :=
  match c with CallSaveImage _ _ _ => true | _ => false end.

Definition count_calls (p : codec_call -> bool) (log : list codec_call) : Z :=
  Z.of_nat (length (List.filter p log)).

(** The group stored under a frame number. *)
Fixpoint map_find (k : Z) (m : list (Z * list exrtool_run_file))
    : option (list exrtool_run_file) :=
  match m with
  | [] => None
  | (k', v) :: m' => if k' =? k then Some v else map_find k m'
  end.

(** The submitted files with a given frame number, in submission order. *)
Definition bucket (k : Z) (fs : list exrtool_file) : list exrtool_run_file :=
  run_file_of <$> List.filter (fun f => strip_frame (file_name f) =? k) fs.

End Vocabulary.

(** * Vocabulary of the properties of a whole run *)

Section RunVocabulary.
Context `{Tinyexr}.

(** The worker has left its [while] loop. *)
Definition left_loop (s : worker) : bool :=
  match s with Finishing | FinalNotify | Exited => true | _ => false end.

(** The worker has incremented [a_threads_done]. *)
Definition signalled (s : worker) : bool :=
  match s with FinalNotify | Exited => true | _ => false end.

(** The index a worker has claimed and not yet let go of. *)
Definition holds (s : worker) : option nat :=
  match s with Processing ix | Notifying ix => Some ix | _ => None end.

Definition sum_over {A} (f : A -> Z) (l : list A) : Z :=
  foldr (fun x acc => f x + acc) 0 l.

Definition count_workers (p : worker -> bool) (ts : list worker) : Z :=
  sum_over (fun s => if p s then 1 else 0) ts.

(** The progress units a frame group yields when it is processed. *)
Definition group_units (g : Z * list exrtool_run_file) : Z :=
  Z.of_nat (length (decoded_prefix g.2)) + 1.

(** The units still to come from a worker that is inside [process_frame]. *)
Definition pending_units (fr : list (Z * list exrtool_run_file)) (s : worker) : Z :=
  match s with
  | Processing ix =>
      match fr !! ix with Some g => group_units g | None => 0 end
  | _ => 0
  end.

(** The frame groups claimed so far: the first [min cursor size]. *)
Definition claimed_of (c : Z) (fr : list (Z * list exrtool_run_file)) : nat :=
  Z.to_nat (Z.min c (Z.of_nat (length fr))).

Definition claimed (w : world) : nat :=
  claimed_of (a_frames_started (run w)) (frames (run w)).

(** What holds of the counters, the workers and the error list of a run in
    every state: [c] the cursor, [a] the done units, [d] the finished
    threads. *)
Record counters_ok (fr : list (Z * list exrtool_run_file))
    (c a d : Z) (ts : list worker) (errs : list error_message) : Prop := {
  ok_cursor : 0 <= c <= Z.of_nat (length fr) + count_workers left_loop ts;
  ok_holds :
    Forall (fun s => s <> Faulted /\
                     forall ix, holds s = Some ix -> (ix < claimed_of c fr)%nat) ts;
  ok_distinct : NoDup (omap holds ts);
  ok_progress :
    0 <= a /\
    a + sum_over (pending_units fr) ts
    = sum_over group_units (take (claimed_of c fr) fr);
  ok_done : d = count_workers signalled ts;
  ok_errors :
    count_workers left_loop ts
    = c - Z.of_nat (claimed_of c fr) + Z.of_nat (length errs);
  ok_decoded :
    errs = [] ->
    forall i g, fr !! i = Some g -> (i < claimed_of c fr)%nat ->
      (exists tid, ts !! tid = Some (Processing i)) \/ all_decoded g.2 = true;
}.

(** A state of the run created from [input0] on a machine with [cores]. *)
Record run_ok (cores : nat) (input0 : exrtool_input) (w : world) : Prop := {
  ok_frames : frames (run w) = group_files (files input0);
  ok_input : input (run w) = input0;
  ok_threads : length (threads (run w)) = thread_count cores input0;
  ok_counters :
    counters_ok (frames (run w)) (a_frames_started (run w))
      (a_progress (run w)) (a_threads_done (run w))
      (threads (run w)) (errors (run w));
}.

(** The counters, workers and errors of [w'], the frame groups and the
    input being those of [w]. *)
Definition step_to (w w' : world) (c a d : Z) (ts : list worker)
    (errs : list error_message) : Prop :=
  frames (run w') = frames (run w) /\ input (run w') = input (run w) /\
  a_frames_started (run w') = c /\ a_progress (run w') = a /\
  a_threads_done (run w') = d /\ threads (run w') = ts /\
  errors (run w') = errs.

(** The sizes fit the 32-bit counters. *)
Definition fits (cores : nat) (input : exrtool_input) : Prop :=
  Z.of_nat (length (files input))
  + Z.of_nat (length (group_files (files input)))
  + Z.of_nat (thread_count cores input) < 2 ^ 32.

(** How many of its own actions a worker still has before it has exited,
    at most: three per frame group not yet claimed, and those of its
    current round. *)
Definition actions_left (w : world) (tid : nat) : nat :=
  let unclaimed := (length (frames (run w)) - claimed w)%nat in
  match threads (run w) !! tid with
  | Some Claiming => 3 * unclaimed + 3
  | Some (Processing _) => 3 * unclaimed + 5
  | Some (Notifying _) => 3 * unclaimed + 4
  | Some Finishing => 2
  | Some FinalNotify => 1
  | Some Exited | Some Faulted | None => 0
  end.

(** How often a thread is named in a schedule. *)
Definition turns (tid : nat) (sched : list nat) : nat :=
  length (List.filter (Nat.eqb tid) sched).

(** How often the frame group at [ix] is handed to [process_frame] while
    the threads take the actions of [sched], one after the other, from
    [w]. *)
Fixpoint processings (ix : nat) (sched : list nat) (w : world) : nat :=
  match sched with
  | [] => 0
  | tid :: sched' =>
      (match threads (run w) !! tid, frames (run w) !! ix with
       | Some (Processing ix'), Some _ => if (ix' =? ix)%nat then 1 else 0
       | _, _ => 0
       end + processings ix sched' (step tid w))%nat
  end.

(** The frame group at [ix] can still be handed to [process_frame]: the
    cursor has not passed it, or a worker is about to process it. *)
Definition available (w : world) (ix : nat) : Prop :=
  a_frames_started (run w) <= Z.of_nat ix \/ Processing ix ∈ threads (run w).

(** The number of workers that hold an index. *)
Definition held (ts : list worker) : Z := Z.of_nat (length (omap holds ts)).


(** No file of any frame group asks for a channel. *)
Definition requests_nothing (fr : list (Z * list exrtool_run_file)) : Prop :=
  Forall (fun g => Forall (fun f => channels f = ∅) g.2) fr.

(** Nothing was saved, nobody is about to report a saved frame, and no
    saved frame was reported. *)
Definition nothing_saved (w : world) : Prop :=
  count_calls is_save_attempt (codec_log w) = 0 /\
  Forall (fun s => forall ix, s <> Notifying ix) (threads (run w)) /\
  Forall (fun p : nat * option nat => p.2 = None) (progress_log w).

End RunVocabulary.

(** * The caller: [src/ui_main.cpp]

    The parts of [UIState] that prepare a run: the file names taken from
    the file dialog, [addFile] with the common prefix and the channel
    categories, and the input built when "Save" is pressed.  Drawing and
    the widgets of the GUI library are not modelled. *)

Module UI.

(** ** Regular expressions of the category table

    [std::regex] in ECMAScript mode, for the constructs the table uses:
    characters, classes, [.] (any character but a line terminator) and
    [*].  [regex_match] matches the whole string. *)

Inductive regex :=
| Empty                              (* matches nothing *)
| Eps                                (* the empty string *)
| Chr (c : ascii)
| Class (cs : list ascii)
| Dot
| Seq (r1 r2 : regex)
| Alt (r1 r2 : regex)
| Star (r : regex).

Definition line_terminator (c : ascii) : bool :=
  Ascii.eqb c "010" || Ascii.eqb c "013".

Fixpoint nullable (r : regex) : bool :=
  match r with
  | Empty => false
  | Eps => true
  | Chr _ | Class _ | Dot => false
  | Seq r1 r2 => nullable r1 && nullable r2
  | Alt r1 r2 => nullable r1 || nullable r2
  | Star _ => true
  end.

(** What is left of [r] to match after the character [c]. *)
Fixpoint after (c : ascii) (r : regex) : regex :=
  match r with
  | Empty | Eps => Empty
  | Chr c' => if Ascii.eqb c c' then Eps else Empty
  | Class cs => if existsb (Ascii.eqb c) cs then Eps else Empty
  | Dot => if line_terminator c then Empty else Eps
  | Seq r1 r2 =>
      if nullable r1 then Alt (Seq (after c r1) r2) (after c r2)
      else Seq (after c r1) r2
  | Alt r1 r2 => Alt (after c r1) (after c r2)
  | Star r1 => Seq (after c r1) (Star r1)
  end.

Definition regex_match_chars (s : list ascii) (r : regex) : bool :=
  nullable (foldl (fun r c => after c r) r s).

Definition regex_match (s : string) (r : regex) : bool :=
  regex_match_chars (String.list_ascii_of_string s) r.

(** The characters of a string, one after the other. *)
Definition word (s : string) : regex :=
  foldr (fun c r => Seq (Chr c) r) Eps (String.list_ascii_of_string s).

Definition any : regex := Star Dot.

Record CategoryDesc := { desc_name : string; pattern : regex }.

(** [getCategories], with the pattern of the source beside each entry. *)
Definition getCategories : list CategoryDesc :=
  [ {| desc_name := "Color (Beauty)";                     (* [RGBA] *)
       pattern := Class (String.list_ascii_of_string "RGBA") |};
    {| desc_name := "Normal (N)";                         (* N\.[XYZ] *)
       pattern := Seq (word "N.") (Class (String.list_ascii_of_string "XYZ")) |};
    {| desc_name := "Depth (Z)";                          (* Z *)
       pattern := word "Z" |};
    {| desc_name := "Ambient Occlusion (AO)";             (* AO\.[RGBA] *)
       pattern := Seq (word "AO.") (Class (String.list_ascii_of_string "RGBA")) |};
    {| desc_name := "Crypto Object";                      (* crypto_object.* *)
       pattern := Seq (word "crypto_object") any |};
    {| desc_name := "Crypto Material";                    (* crypto_material.* *)
       pattern := Seq (word "crypto_material") any |};
    {| desc_name := "Sample density";                     (* AA_inv_density.* *)
       pattern := Seq (word "AA_inv_density") any |};
    {| desc_name := "Variance";                           (* variance.* *)
       pattern := Seq (word "variance") any |};
    {| desc_name := "Noice";                              (* .*noice.* *)
       pattern := Seq any (Seq (word "noice") any) |};
    {| desc_name := "Others";                             (* .* *)
       pattern := any |} ].

(** ** The state *)

Record Category := {
  cat_name : string;
  cat_open : bool;
  cat_channels : gmap string bool;
}.

Record UIFileList := {
  list_name : string;
  list_files : list string;
  list_categories : list Category;
}.

Record UIState := {
  fileLists : list UIFileList;
  selectedIndex : Z;
  commonPrefix : string;
}.

(** ** The names returned by the file dialog

    [tinyfd_openFileDialog] returns NULL or the chosen paths separated by
    ['|']. *)

(** [strchr]: the offset of the first [c]. *)
Fixpoint strchr (file : list ascii) (c : ascii) : option nat :=
  match file with
  | [] => None
  | x :: file' => if Ascii.eqb x c then Some O else S <$> strchr file' c
  end.

(** The [while (file)] loop of "Add sequence"; each round takes at least
    one character off [file], so its length bounds the rounds. *)
Fixpoint dialog_names_loop (rounds : nat) (file : list ascii) : list string :=
  match rounds with
  | O => []
  | S rounds' =>
      match strchr file "|" with
      | Some e =>
          String.string_of_list_ascii (take e file)
          :: dialog_names_loop rounds' (drop (S e) file)
      | None => [String.string_of_list_ascii file]
      end
  end.

Definition dialog_names (file : option string) : list string :=
  match file with
  | None => []
  | Some f =>
      dialog_names_loop (S (String.length f)) (String.list_ascii_of_string f)
  end.

(** ** [addFile] *)

Definition is_separator (c : ascii) : bool :=
  Ascii.eqb c "\" || Ascii.eqb c "/".

(** [memcmp(a, b, n) == 0], both strings having [n] characters. *)
Definition memcmp_equal (a b : list ascii) (n : nat) : bool :=
  bool_decide (take n a = take n b).

(** The loop that finds [bestIndex]; [rounds] is [name.size() - i]. *)
Fixpoint best_index (rounds i best : nat) (prefix name : list ascii) : nat :=
  match rounds with
  | O => best
  | S rounds' =>
      if (length prefix <=? i)%nat then best
      else
        match name !! i with
        | Some c =>
            if negb (is_separator c) then best_index rounds' (S i) best prefix name
            else if negb (memcmp_equal prefix name (S i)) then best
            else best_index rounds' (S i) (S i) prefix name
        | None => best
        end
  end.

Definition common_prefix (prefix name : string) : string :=
  let p := String.list_ascii_of_string prefix in
  let n := String.list_ascii_of_string name in
  String.string_of_list_ascii (take (best_index (length n) 0 0 p n) p).

Section WithCodec.
Context `{Tinyexr}.

(** [UIFile::getHeader] of a file that has no header yet; the message box
    of a failure is not modelled. *)
Definition getHeader (name : string) : option EXRHeader :=
  match ParseEXRVersionFromFile name with
  | None => None
  | Some version =>
      match ParseEXRHeaderFromFile version name with
      | inl header => Some header
      | inr _ => None
      end
  end.

(** The inner loop of [addFile] for one category: the channels not matched
    so far whose name the pattern matches are put into the category and
    marked. *)
Fixpoint collect (p : regex) (chs : list EXRChannelInfo) (matched : list bool)
    (cat : gmap string bool) : gmap string bool * list bool :=
  match chs, matched with
  | ch :: chs', m :: matched' =>
      if m then
        let '(cat', ms) := collect p chs' matched' cat in (cat', m :: ms)
      else if regex_match (chan_name ch) p then
        let '(cat', ms) := collect p chs' matched' (<[chan_name ch := false]> cat) in
        (cat', true :: ms)
      else
        let '(cat', ms) := collect p chs' matched' cat in (cat', false :: ms)
  | _, _ => (cat, matched)
  end.

(** The loop over the category table. *)
Fixpoint categorize (descs : list CategoryDesc) (chs : list EXRChannelInfo)
    (matched : list bool) : list Category :=
  match descs with
  | [] => []
  | desc :: descs' =>
      let '(cat, matched') := collect (pattern desc) chs matched ∅ in
      if decide (cat = ∅)
      then categorize descs' chs matched'
      else {| cat_name := desc_name desc; cat_open := false; cat_channels := cat |}
           :: categorize descs' chs matched'
  end.

(** [addFile]; [None] when [names] is empty ([list.files[0]] does not
    exist).  The channels looked at are the first [num_channels] of the
    header. *)
Definition addFile (names : list string) (st : UIState) : option UIState :=
  match names with
  | [] => None
  | first :: _ =>
      let prefix0 :=
        if (length (fileLists st) =? 0)%nat then first else commonPrefix st in
      let prefix := common_prefix prefix0 first in
      match getHeader first with
      | None =>
          Some {| fileLists := fileLists st; selectedIndex := selectedIndex st;
                  commonPrefix := prefix |}
      | Some header =>
          let n := Z.to_nat (header_num_channels header) in
          let chs := take n (header_channels header) in
          let cats := categorize getCategories chs (replicate n false) in
          Some {| fileLists :=
                    fileLists st
                    ++ [{| list_name := first; list_files := names;
                           list_categories := cats |}];
                  selectedIndex := selectedIndex st;
                  commonPrefix := prefix |}
      end
  end.

End WithCodec.

(** "Add sequence": [addFile] is called when the dialog gave a name. *)
Definition add_sequence `{Tinyexr} (file : option string) (st : UIState)
    : option UIState :=
  let names := dialog_names file in
  if (0 <? length names)%nat then addFile names st else Some st.

(** "Reset". *)
Definition reset (st : UIState) : UIState :=
  {| fileLists := []; selectedIndex := -1; commonPrefix := "" |}.

(** ** "Save": the input handed to [exrtool_process] *)

(** The channels ticked in the categories of a list, as the two inner
    loops of "Save" collect them. *)
Definition selected_channels (l : UIFileList) : list string :=
  cat ← list_categories l;
  (List.filter (fun pair : string * bool => pair.2) (map_to_list (cat_channels cat))).*1.

Definition save_files (st : UIState) : list exrtool_file :=
  l ← fileLists st;
  (fun f => {| file_name := f; file_channels := selected_channels l |})
    <$> list_files l.

(** [exrtool_input input = { }] with the files, the output name and the
    callback set; the thread count stays 0. *)
Definition save_input (output : string) (st : UIState) : exrtool_input :=
  {| output_file := output; files := save_files st; num_threads := 0;
     progress_fn := true |}.

(** ** Vocabulary of the properties of the caller *)

(** The names of a selection put together again. *)
Fixpoint join_bar (names : list string) : list ascii :=
  match names with
  | [] => []
  | [n] => String.list_ascii_of_string n
  | n :: rest => String.list_ascii_of_string n ++ "|"%char :: join_bar rest
  end.

(** [k] characters of [name] end with a separator and are the first [k]
    characters of [prefix] too. *)
Definition shared_directory (prefix name : list ascii) (k : nat) : Prop :=
  (0 < k)%nat /\ (k <= length prefix)%nat /\ (k <= length name)%nat /\
  take k prefix = take k name /\
  exists c, name !! (k - 1)%nat = Some c /\ is_separator c = true.

(** The common prefix is a prefix of the name of every list shown. *)
Definition prefix_ok (st : UIState) : Prop :=
  Forall (fun l => String.list_ascii_of_string (commonPrefix st)
                   `prefix_of` String.list_ascii_of_string (list_name l))
         (fileLists st).

(** The first entry of the category table whose pattern matches a name. *)
Definition first_match (descs : list CategoryDesc) (x : string)
    : option CategoryDesc :=
  List.find (fun d => regex_match x (pattern d)) descs.

(** What a regular expression matches. *)
Inductive matches : regex -> list ascii -> Prop :=
| matches_eps : matches Eps []
| matches_chr c : matches (Chr c) [c]
| matches_class cs c : existsb (Ascii.eqb c) cs = true -> matches (Class cs) [c]
| matches_dot c : line_terminator c = false -> matches Dot [c]
| matches_seq r1 r2 s1 s2 :
    matches r1 s1 -> matches r2 s2 -> matches (Seq r1 r2) (s1 ++ s2)
| matches_alt_l r1 r2 s : matches r1 s -> matches (Alt r1 r2) s
| matches_alt_r r1 r2 s : matches r2 s -> matches (Alt r1 r2) s
| matches_star_nil r : matches (Star r) []
| matches_star_more r s1 s2 :
    matches r s1 -> matches (Star r) s2 -> matches (Star r) (s1 ++ s2).

(** A name is matched by one of the categories gone through so far. *)
Definition taken (done : list CategoryDesc) (x : string) : bool :=
  existsb (fun d => regex_match x (pattern d)) done.

(** The [matched] flags after the categories [done]. *)
Definition matched_flags `{TinyexrTypes} (done : list CategoryDesc)
    (chs : list EXRChannelInfo) : list bool :=
  (fun ch => taken done (chan_name ch)) <$> chs.

(** A category as [addFile] creates it: closed, not empty, nothing ticked. *)
Definition fresh_category (cat : Category) : Prop :=
  cat_open cat = false /\ cat_channels cat <> ∅ /\
  forall x b, cat_channels cat !! x = Some b -> b = false.

(** The channels of a header that [addFile] goes through. *)
Definition shown_channels `{TinyexrTypes} (header : EXRHeader) : list string :=
  chan_name <$> take (Z.to_nat (header_num_channels header)) (header_channels header).

(** A channel is ticked in one of the categories of a list. *)
Definition ticked (l : UIFileList) (c : string) : Prop :=
  exists cat, cat ∈ list_categories l /\ cat_channels cat !! c = Some true.

(** No channel is ticked in any list. *)
Definition nothing_ticked (st : UIState) : Prop :=
  forall l c, l ∈ fileLists st -> ~ ticked l c.

(** No character of a name ends a line. *)
Definition one_line (x : string) : Prop :=
  Forall (fun c => line_terminator c = false) (String.list_ascii_of_string x).

(** ** Two shots for running the model

    A codec that reads one file in each of two directories; every other
    name fails at [ParseEXRVersionFromFile]. *)

Definition shot_contents (file : string) : option (list (string * Z)) :=
  if String.eqb file "/render/shotA/a.0001.exr" then Some [("R", 1); ("G", 1)]
  else if String.eqb file "/render/shotB/b.0001.exr" then Some [("Z", 2)]
  else None.

Definition shot_version (file : string) : option unit :=
  match shot_contents file with Some _ => Some () | None => None end.

Definition shot_header (_ : unit) (file : string)
    : @EXRHeader Disk.types + string :=
  match shot_contents file with
  | Some cs =>
      inl (@Build_EXRHeader Disk.types file (Disk.channel <$> cs)
             (snd <$> cs) (snd <$> cs) (Z.of_nat (length cs)))
  | None => inr "no such file"
  end.

Definition shots : @Tinyexr Disk.types :=
  @Build_Tinyexr Disk.types shot_version shot_header Disk.load_image
    (fun _ _ _ => None).

End UI.

(** * Properties *)


(** ** Arithmetic of the C conversions *)

Lemma to_uint32_wrap_int z : to_uint32 (wrap_int z) = to_uint32 z.
Proof.
  unfold to_uint32, wrap_int.
  rewrite <- Zminus_mod_idemp_l, Zmod_mod, Zminus_mod_idemp_l.
  f_equal. lia.
Qed.

Lemma to_uint32_small z : 0 <= z < 2 ^ 32 -> to_uint32 z = z.
Proof. intros. unfold to_uint32. now apply Z.mod_small. Qed.

Lemma to_uint32_range z : 0 <= to_uint32 z < 2 ^ 32.
Proof. unfold to_uint32. apply Z.mod_pos_bound. lia. Qed.

(** The digit loop reads the digits in front of [rest] and stops there. *)
Lemma strtol_digits_run ds rest : forall acc,
  Forall is_digit ds ->
  (rest = [] \/ exists c rest', rest = c :: rest' /\ non_digit c) ->
  strtol_digits acc (ds ++ rest) = decimal_from acc ds.
Proof.
  induction ds as [|d ds IH]; intros acc Hds Hrest.
  - simpl. destruct Hrest as [-> | (c & rest' & -> & Hc)]; simpl; [done|].
    unfold non_digit in Hc. now rewrite Hc.
  - inversion Hds as [|? ? Hd Hds']; subst. simpl.
    unfold is_digit in Hd. rewrite Hd. now apply IH.
Qed.

Lemma isdigit_not_space c : isdigit c = true -> isspace c = false.
Proof. unfold isdigit, isspace. lia. Qed.

(** A digit run is read as its value, capped at [LONG_MAX]. *)
Lemma atoi_run d ds rest :
  Forall is_digit (d :: ds) ->
  (rest = [] \/ exists c rest', rest = c :: rest' /\ non_digit c) ->
  to_uint32 (atoi ((d :: ds) ++ rest))
  = to_uint32 (Z.min (decimal (d :: ds)) LONG_MAX).
Proof.
  intros Hds Hrest. unfold atoi, strtol, decimal.
  rewrite to_uint32_wrap_int.
  assert (Hd : isdigit d = true) by (now inversion Hds).
  assert (Hskip : skip_spaces ((d :: ds) ++ rest) = (d :: ds) ++ rest).
  { simpl. now rewrite isdigit_not_space. }
  rewrite Hskip.
  assert (Hsign : d <> "-"%char /\ d <> "+"%char).
  { split; intros ->; discriminate Hd. }
  destruct Hsign as [Hm Hp].
  rewrite <- (strtol_digits_run (d :: ds) rest 0 Hds Hrest).
  change ((d :: ds) ++ rest) with (d :: (ds ++ rest)).
  f_equal.
  destruct d as [[] [] [] [] [] [] [] []]; try reflexivity; congruence.
Qed.

(** ** The backwards scans *)

Lemma scan_back_le p str pos : (scan_back p str pos <= pos)%nat.
Proof.
  induction pos as [|pos IH]; simpl; [lia|].
  destruct (str !! pos); [|lia]. destruct (p a); lia.
Qed.

Lemma scan_back_prefix p l r pos :
  (pos <= length l)%nat -> scan_back p (l ++ r) pos = scan_back p l pos.
Proof.
  induction pos as [|pos IH]; intros Hpos; simpl; [done|].
  rewrite lookup_app_l by lia.
  destruct (l !! pos); [|done]. destruct (p a); [apply IH; lia|done].
Qed.

Lemma scan_back_snoc_true p l c :
  p c = true -> scan_back p (l ++ [c]) (S (length l)) = scan_back p l (length l).
Proof.
  intros Hc. simpl. rewrite list_lookup_middle by done. rewrite Hc.
  now apply scan_back_prefix.
Qed.

Lemma scan_back_snoc_false p l c :
  p c = false -> scan_back p (l ++ [c]) (S (length l)) = S (length l).
Proof. intros Hc. simpl. rewrite list_lookup_middle by done. now rewrite Hc. Qed.

Lemma scan_back_over p l suf :
  Forall (fun c => p c = true) suf ->
  scan_back p (l ++ suf) (length (l ++ suf)) = scan_back p l (length l).
Proof.
  induction suf as [|c suf IH] using rev_ind; intros Hsuf.
  - now rewrite app_nil_r.
  - apply Forall_app in Hsuf as [Hsuf Hc]. inversion Hc; subst.
    rewrite app_assoc, length_app. simpl. rewrite Nat.add_1_r.
    rewrite scan_back_snoc_true by assumption. now apply IH.
Qed.

Lemma scan_back_stops p l :
  (l = [] \/ exists l' c, l = l' ++ [c] /\ p c = false) ->
  scan_back p l (length l) = length l.
Proof.
  intros [-> | (l' & c & -> & Hc)]; [done|].
  rewrite length_app. simpl. rewrite Nat.add_1_r.
  now apply scan_back_snoc_false.
Qed.

Lemma non_digit_negb c : non_digit c -> negb (isdigit c) = true.
Proof. unfold non_digit. now intros ->. Qed.

(** ** [strip_frame] *)

Lemma strip_frame_no_digit name :
  Forall non_digit (String.list_ascii_of_string name) ->
  strip_frame name = NO_FRAME.
Proof.
  intros Hnd. unfold strip_frame.
  set (str := String.list_ascii_of_string name) in *.
  assert (He : scan_back (fun c => negb (isdigit c)) str (length str) = O).
  { change str with ([] ++ str).
    rewrite scan_back_over; [done|].
    eapply Forall_impl; [exact Hnd|]. intros c. apply non_digit_negb. }
  rewrite He. reflexivity.
Qed.

Lemma strip_frame_run name pre ds suf :
  rightmost_run (String.list_ascii_of_string name) pre ds suf ->
  strip_frame name = to_uint32 (Z.min (decimal ds) LONG_MAX).
Proof.
  intros (Hstr & Hne & Hds & Hsuf & Hpre). unfold strip_frame.
  set (str := String.list_ascii_of_string name) in *.
  assert (He : scan_back (fun c => negb (isdigit c)) str (length str)
               = length (pre ++ ds)).
  { rewrite Hstr, app_assoc. rewrite scan_back_over.
    - apply scan_back_stops. right.
      destruct ds as [|d ds] using rev_ind; [done|].
      apply Forall_app in Hds as [_ Hd]. inversion Hd as [|? ? Hd' _]; subst.
      exists (pre ++ ds), d. split; [now rewrite app_assoc|].
      unfold is_digit in Hd'. now rewrite Hd'.
    - eapply Forall_impl; [exact Hsuf|]. intros c. apply non_digit_negb. }
  rewrite He.
  assert (Hb : scan_back isdigit str (length (pre ++ ds)) = length pre).
  { rewrite Hstr, app_assoc. rewrite scan_back_prefix by done.
    rewrite scan_back_over by exact Hds.
    apply scan_back_stops. exact Hpre. }
  rewrite Hb.
  destruct ds as [|d ds]; [done|].
  rewrite length_app. simpl length.
  destruct (Nat.eqb_spec (length pre) (length pre + S (length ds))) as [Heq|_];
    [lia|].
  rewrite Hstr, drop_app_length.
  rewrite atoi_run; [done|exact Hds|].
  destruct suf as [|c suf]; [now left|right].
  inversion Hsuf; subst. now exists c, suf.
Qed.

(** Below the cap the run is read as its value modulo 2^32; a run at or
    above the cap reads as [LONG_MAX], whose low 32 bits are all ones. *)
Lemma strip_frame_run_small name pre ds suf :
  rightmost_run (String.list_ascii_of_string name) pre ds suf ->
  decimal ds < 2 ^ 63 ->
  strip_frame name = to_uint32 (decimal ds).
Proof.
  intros Hrun Hlt. rewrite (strip_frame_run _ _ _ _ Hrun).
  unfold LONG_MAX. now rewrite Z.min_l by lia.
Qed.

Lemma strip_frame_run_large name pre ds suf :
  rightmost_run (String.list_ascii_of_string name) pre ds suf ->
  2 ^ 63 <= decimal ds ->
  strip_frame name = NO_FRAME.
Proof.
  intros Hrun Hge. rewrite (strip_frame_run _ _ _ _ Hrun).
  unfold LONG_MAX. rewrite Z.min_r by lia. reflexivity.
Qed.

(** Every name either has no digit or has a rightmost digit run. *)
Lemma rightmost_run_exists (str : list ascii) :
  Forall non_digit str \/ exists pre ds suf, rightmost_run str pre ds suf.
Proof.
  assert (Hone : forall c, isdigit c = true -> Forall is_digit [c])
    by (intros; now repeat constructor).
  assert (Hlast : forall l, Forall non_digit l ->
            l = [] \/ exists l' x, l = l' ++ [x] /\ non_digit x).
  { intros l Hl. destruct l as [|x l] using rev_ind; [now left|right].
    apply Forall_app in Hl as [_ Hx]. inversion Hx; subst. now exists l, x. }
  induction str as [|c str IH] using rev_ind; [now left|].
  destruct (isdigit c) eqn:Hc.
  - right. destruct IH as [Hnd | (pre & ds & suf & -> & Hne & Hds & Hsuf & Hpre)].
    + exists str, [c], []. unfold rightmost_run. split_and!; auto.
    + destruct (Hlast suf Hsuf) as [-> | (suf' & x & -> & Hx)].
      * exists pre, (ds ++ [c]), []. unfold rightmost_run. split_and!; auto.
        -- now rewrite ?app_nil_r, <- ?app_assoc.
        -- intros Hnil. now apply app_eq_nil in Hnil as [_ ?].
        -- apply Forall_app. auto.
      * exists (pre ++ ds ++ suf' ++ [x]), [c], [].
        unfold rightmost_run. split_and!; auto.
        right. exists (pre ++ ds ++ suf'), x.
        split; [now rewrite <- ?app_assoc|done].
  - destruct IH as [Hnd | (pre & ds & suf & -> & Hne & Hds & Hsuf & Hpre)].
    + left. apply Forall_app. split; [done|]. now repeat constructor.
    + right. exists pre, ds, (suf ++ [c]). unfold rightmost_run. split_and!; auto.
      * now rewrite <- ?app_assoc.
      * apply Forall_app. split; [done|]. now repeat constructor.
Qed.

Lemma decimal_from_nonneg ds : forall acc,
  0 <= acc -> Forall is_digit ds -> 0 <= decimal_from acc ds.
Proof.
  induction ds as [|d ds IH]; intros acc Hacc Hds; simpl; [done|].
  inversion Hds as [|? ? Hd Hds']; subst. apply IH; [|done].
  unfold is_digit, isdigit, digit_val in *. lia.
Qed.

Lemma strip_frame_range name : 0 <= strip_frame name <= NO_FRAME.
Proof.
  destruct (rightmost_run_exists (String.list_ascii_of_string name))
    as [Hnd | (pre & ds & suf & Hrun)].
  - rewrite strip_frame_no_digit by done. unfold NO_FRAME. lia.
  - rewrite (strip_frame_run _ _ _ _ Hrun).
    pose proof (to_uint32_range (Z.min (decimal ds) LONG_MAX)).
    unfold NO_FRAME. lia.
Qed.

(** C7 (as amended).  [strip_frame] skips the trailing non-digits and reads
    the maximal digit run in front of them: a name without a digit yields
    the sentinel [~0u]; a name with a digit yields the value of its
    rightmost digit run, capped at 2^63 - 1 as [atoi] reads it, as an
    unsigned integer modulo 2^32.  So a run below 2^63 yields its value
    modulo 2^32 and a run from 2^63 on yields [~0u]; the sentinel value
    is returned exactly when there is no digit, or the rightmost run is
    below 2^63 and congruent to 4294967295, or it is 2^63 or more.  The
    three examples of the specification hold. *)
Theorem strip_frame_reads_rightmost_run :
  (forall name,
     let str := String.list_ascii_of_string name in
     (Forall non_digit str /\ strip_frame name = NO_FRAME) \/
     (exists pre ds suf,
        rightmost_run str pre ds suf /\
        strip_frame name = Z.min (decimal ds) (2 ^ 63 - 1) mod 2 ^ 32 /\
        (decimal ds < 2 ^ 63 -> strip_frame name = decimal ds mod 2 ^ 32) /\
        (2 ^ 63 <= decimal ds -> strip_frame name = NO_FRAME))) /\
  (forall name,
     let str := String.list_ascii_of_string name in
     strip_frame name = NO_FRAME <->
     Forall non_digit str \/
     exists pre ds suf,
       rightmost_run str pre ds suf /\
       ((decimal ds < 2 ^ 63 /\ decimal ds mod 2 ^ 32 = 2 ^ 32 - 1) \/
        2 ^ 63 <= decimal ds)) /\
  strip_frame "beauty.1023.exr" = 1023 /\
  strip_frame "beauty.exr" = NO_FRAME /\
  strip_frame "a7b22.exr" = 22 /\
  strip_frame "f9223372036854775808.exr" = NO_FRAME.
Proof.
  split_and!; try reflexivity.
  - intros name str.
    destruct (rightmost_run_exists str) as [Hnd | (pre & ds & suf & Hrun)].
    + left. split; [done|]. now apply strip_frame_no_digit.
    + right. exists pre, ds, suf. split_and!; [done| | |].
      * now rewrite (strip_frame_run _ _ _ _ Hrun).
      * intros Hlt. now rewrite (strip_frame_run_small _ _ _ _ Hrun Hlt).
      * intros Hge. now apply (strip_frame_run_large _ _ _ _ Hrun Hge).
  - intros name str. split.
    + intros Hno.
      destruct (rightmost_run_exists str) as [Hnd | (pre & ds & suf & Hrun)];
        [now left|right].
      exists pre, ds, suf. split; [done|].
      destruct (Z.lt_ge_cases (decimal ds) (2 ^ 63)) as [Hlt | Hge];
        [left|now right].
      split; [done|].
      rewrite (strip_frame_run_small _ _ _ _ Hrun Hlt) in Hno. exact Hno.
    + intros [Hnd | (pre & ds & suf & Hrun & [[Hlt Hval] | Hge])].
      * now apply strip_frame_no_digit.
      * rewrite (strip_frame_run_small _ _ _ _ Hrun Hlt). exact Hval.
      * now apply (strip_frame_run_large _ _ _ _ Hrun Hge).
Qed.

(** C7, as stated, fails: the sentinel is not returned only when no digit
    is found.  The name below has a digit, and [strip_frame] returns
    [~0u] for it. *)
Lemma strip_frame_sentinel_with_digits :
  strip_frame "f4294967295.exr" = NO_FRAME /\
  ~ Forall non_digit (String.list_ascii_of_string "f4294967295.exr").
Proof.
  split; [reflexivity|].
  intros Hnd. apply (Forall_lookup_1 _ _ 1%nat "4"%char) in Hnd; [|reflexivity].
  discriminate Hnd.
Qed.

(** C4 (as amended).  The sentinel is the in-band value [~0u] of the
    [uint32_t] result.  A name whose rightmost digit run has a value below
    4294967295 yields exactly that value, which differs from the
    sentinel. *)
Theorem strip_frame_below_sentinel_distinct name pre ds suf :
  rightmost_run (String.list_ascii_of_string name) pre ds suf ->
  decimal ds < 2 ^ 32 - 1 ->
  strip_frame name = decimal ds /\ strip_frame name <> NO_FRAME.
Proof.
  intros Hrun Hlt.
  assert (Hnn : 0 <= decimal ds).
  { apply decimal_from_nonneg; [lia|]. apply Hrun. }
  rewrite (strip_frame_run_small _ _ _ _ Hrun), to_uint32_small by lia.
  split; [done|]. unfold NO_FRAME. lia.
Qed.

Lemma strip_frame_below_sentinel_distinct_witness :
  strip_frame "beauty.1023.exr" = 1023 /\ strip_frame "beauty.1023.exr" <> NO_FRAME.
Proof.
  apply (strip_frame_below_sentinel_distinct "beauty.1023.exr"
           (String.list_ascii_of_string "beauty.")
           (String.list_ascii_of_string "1023")
           (String.list_ascii_of_string ".exr")).
  - unfold rightmost_run. split_and!.
    + reflexivity.
    + discriminate.
    + repeat constructor.
    + repeat constructor.
    + right. exists (String.list_ascii_of_string "beauty"), "."%char.
      split; reflexivity.
  - vm_compute. reflexivity.
Defined.

(** C4, as stated, fails: a name whose rightmost digit run encodes the
    frame number 4294967295 is mapped to the very value returned for a name
    without a frame number. *)
Lemma strip_frame_sentinel_collision :
  rightmost_run (String.list_ascii_of_string "shot.4294967295.exr")
    (String.list_ascii_of_string "shot.")
    (String.list_ascii_of_string "4294967295")
    (String.list_ascii_of_string ".exr") /\
  decimal (String.list_ascii_of_string "4294967295") = 4294967295 /\
  strip_frame "shot.4294967295.exr" = strip_frame "shot.exr".
Proof.
  split_and!; try reflexivity.
  unfold rightmost_run. split_and!.
  - reflexivity.
  - discriminate.
  - repeat constructor.
  - repeat constructor.
  - right. exists (String.list_ascii_of_string "shot"), "."%char.
    split; reflexivity.
Qed.

(** ** The output name *)

Lemma find_last_from_scan c str pos :
  (pos <= length str)%nat ->
  find_last_from c str pos =
    match scan_back (fun x => negb (Ascii.eqb x c)) str pos with
    | O => None
    | S k => Some k
    end.
Proof.
  induction pos as [|pos IH]; intros Hpos; simpl; [done|].
  destruct (lookup_lt_is_Some_2 str pos) as [x Hx]; [lia|].
  rewrite Hx. destruct (Ascii.eqb x c); simpl; [done|]. apply IH. lia.
Qed.

Lemma digit_val_of_digit k :
  0 <= k <= 9 ->
  isdigit (ascii_of_N (Z.to_N (48 + k))) = true /\
  digit_val (ascii_of_N (Z.to_N (48 + k))) = k.
Proof.
  intros Hk. unfold isdigit, digit_val, code.
  rewrite N_ascii_embedding by lia. rewrite Z2N.id by lia.
  split; [|lia].
  apply andb_true_intro. split; apply Z.leb_le; lia.
Qed.

Lemma decimal_from_app acc ds ds' :
  decimal_from acc (ds ++ ds') = decimal_from (decimal_from acc ds) ds'.
Proof. apply foldl_app. Qed.

(** [utoa] writes the decimal digits of its argument. *)
Lemma utoa_aux_digits fuel : forall n acc,
  0 <= n < 10 ^ Z.of_nat (S fuel) ->
  exists ds, utoa_aux (S fuel) n acc = ds ++ acc /\ Forall is_digit ds /\
             decimal ds = n /\ (1 <= length ds <= S fuel)%nat.
Proof.
  induction fuel as [|fuel IH]; intros n acc Hn.
  - assert (Hq : n / 10 = 0) by (apply Z.div_small; lia).
    assert (Hr : n mod 10 = n) by (apply Z.mod_small; lia).
    destruct (digit_val_of_digit n) as [Hd Hv]; [lia|].
    exists [ascii_of_N (Z.to_N (48 + n))].
    split; [simpl; now rewrite Hq, Hr|].
    split; [now repeat constructor|].
    split; [unfold decimal; simpl; lia|simpl; lia].
  - pose proof (Z.mod_pos_bound n 10 ltac:(lia)) as Hmod.
    pose proof (Z.div_mod n 10 ltac:(lia)) as Hdm.
    destruct (digit_val_of_digit (n mod 10)) as [Hd Hv]; [lia|].
    change (utoa_aux (S (S fuel)) n acc) with
      (let acc' := ascii_of_N (Z.to_N (48 + n mod 10)) :: acc in
       if n / 10 =? 0 then acc' else utoa_aux (S fuel) (n / 10) acc').
    cbv zeta. destruct (Z.eqb_spec (n / 10) 0) as [Hq | Hq].
    + exists [ascii_of_N (Z.to_N (48 + n mod 10))].
      split; [done|].
      split; [now repeat constructor|].
      split; [unfold decimal; simpl; rewrite Hv; lia|simpl; lia].
    + destruct (IH (n / 10) (ascii_of_N (Z.to_N (48 + n mod 10)) :: acc))
        as (ds & Heq & Hds & Hval & Hlen).
      { split; [apply Z.div_pos; lia|].
        apply Z.div_lt_upper_bound; [lia|].
        replace (Z.of_nat (S (S fuel))) with (Z.succ (Z.of_nat (S fuel))) in Hn by lia.
        rewrite Z.pow_succ_r in Hn by lia. lia. }
      exists (ds ++ [ascii_of_N (Z.to_N (48 + n mod 10))]).
      rewrite Heq.
      split; [now rewrite <- app_assoc|].
      split; [apply Forall_app; split; [done|now repeat constructor]|].
      split; [|rewrite length_app; simpl; lia].
      unfold decimal in *. rewrite decimal_from_app, Hval. simpl. rewrite Hv. lia.
Qed.

Lemma utoa_digits n :
  0 <= n < 2 ^ 32 ->
  Forall is_digit (utoa n) /\ decimal (utoa n) = n /\
  (1 <= length (utoa n) <= 10)%nat.
Proof.
  intros Hn. unfold utoa.
  destruct (utoa_aux_digits 9 n []) as (ds & Heq & Hds & Hval & Hlen); [lia|].
  rewrite Heq, app_nil_r. done.
Qed.

Lemma not_hash_negb c : not_hash c -> negb (Ascii.eqb c "#") = true.
Proof. unfold not_hash. now intros ->. Qed.

Lemma hash_run_split n : (1 <= n)%nat ->
  replicate n "#"%char = replicate (n - 1) "#"%char ++ ["#"%char].
Proof.
  intros Hn. replace n with (S (n - 1)) at 1 by lia.
  now rewrite replicate_S_end.
Qed.

Lemma output_path_no_hash template frame :
  Forall not_hash (String.list_ascii_of_string template) ->
  output_path template frame = template.
Proof.
  intros Hnh. unfold output_path, find_last_of.
  rewrite find_last_from_scan by done.
  set (str := String.list_ascii_of_string template) in *.
  change str with ([] ++ str).
  rewrite scan_back_over; [done|].
  eapply Forall_impl; [exact Hnh|]. intros c. apply not_hash_negb.
Qed.

Lemma output_path_no_frame template : output_path template NO_FRAME = template.
Proof.
  unfold output_path.
  destruct (find_last_of _ _); [|done]. now rewrite Z.eqb_refl.
Qed.

Lemma output_path_run template pre n suf frame :
  rightmost_hash_run (String.list_ascii_of_string template) pre n suf ->
  (n <= 31)%nat -> 0 <= frame < 2 ^ 32 -> frame <> NO_FRAME ->
  output_path template frame =
    String.string_of_list_ascii (pre ++ zero_pad n (utoa frame) ++ suf).
Proof.
  intros (Hstr & Hn & Hsuf & Hpre) Hn31 Hframe Hreal.
  destruct (utoa_digits frame Hframe) as (_ & _ & Hlen).
  unfold output_path, find_last_of.
  rewrite find_last_from_scan by done.
  set (str := String.list_ascii_of_string template) in *.
  assert (He : scan_back (fun x => negb (Ascii.eqb x "#")) str (length str)
               = S (length pre + (n - 1))).
  { rewrite Hstr, app_assoc. rewrite scan_back_over.
    - rewrite scan_back_stops.
      + rewrite length_app, length_replicate. lia.
      + right. exists (pre ++ replicate (n - 1) "#"%char), "#"%char.
        split; [|done]. now rewrite <- app_assoc, <- hash_run_split.
    - eapply Forall_impl; [exact Hsuf|]. intros c. apply not_hash_negb. }
  rewrite He.
  destruct (Z.eqb_spec frame NO_FRAME) as [|_]; [done|]. simpl negb. cbv iota.
  assert (Hb : scan_back (fun c => Ascii.eqb c "#") str (length pre + (n - 1))
               = length pre).
  { rewrite Hstr, (hash_run_split n Hn), <- !app_assoc.
    rewrite (app_assoc pre).
    rewrite scan_back_prefix by (rewrite length_app, length_replicate; lia).
    replace (length pre + (n - 1))%nat
      with (length (pre ++ replicate (n - 1) "#"%char))
      by (rewrite length_app, length_replicate; lia).
    rewrite scan_back_over by (apply Forall_replicate; reflexivity).
    apply scan_back_stops.
    destruct Hpre as [-> | (pre' & c & -> & Hc)]; [now left|right].
    exists pre', c. split; [done|]. exact Hc. }
  rewrite Hb.
  replace (length pre + (n - 1) - length pre + 1)%nat with n by lia.
  f_equal. unfold string_replace.
  rewrite Hstr, take_app_length.
  assert (Hdrop : drop (length pre + n) (pre ++ replicate n "#"%char ++ suf) = suf).
  { rewrite (app_assoc pre). apply drop_app_length'.
    rewrite length_app, length_replicate. lia. }
  rewrite Hdrop.
  f_equal. f_equal.
  unfold snprintf, format_0star_u, zero_pad.
  assert (Hw : wrap_int (Z.of_nat n) = Z.of_nat n).
  { unfold wrap_int. rewrite Z.mod_small by lia. lia. }
  rewrite Hw. destruct (Z.ltb_spec (Z.of_nat n) 0) as [|_]; [lia|].
  replace (Z.to_nat (Z.of_nat n - Z.of_nat (length (utoa frame))))
    with (n - length (utoa frame))%nat by lia.
  apply take_ge. rewrite length_app, length_replicate. lia.
Qed.

(** C8 (as amended).  The output name is the template itself when the
    frame is the no-frame value or the template has no ['#'].  Otherwise
    the maximal run of ['#'] that ends at the rightmost ['#'] is replaced
    by the decimal frame number, padded with zeros on the left to at least
    the length of the run, provided the run has at most 31 characters (the
    number is formatted into a buffer of 32).  So ["out.####.exr"] with
    frame 7 gives ["out.0007.exr"], and ["out.exr"] is unchanged for every
    frame. *)
Theorem output_path_replaces_hash_run :
  (forall template frame,
     frame = NO_FRAME \/ Forall not_hash (String.list_ascii_of_string template) ->
     output_path template frame = template) /\
  (forall template pre n suf frame,
     rightmost_hash_run (String.list_ascii_of_string template) pre n suf ->
     (n <= 31)%nat -> 0 <= frame < 2 ^ 32 -> frame <> NO_FRAME ->
     output_path template frame =
       String.string_of_list_ascii (pre ++ zero_pad n (utoa frame) ++ suf) /\
     Forall is_digit (utoa frame) /\ decimal (utoa frame) = frame /\
     (n <= length (zero_pad n (utoa frame)))%nat) /\
  output_path "out.####.exr" 7 = "out.0007.exr" /\
  (forall frame, output_path "out.exr" frame = "out.exr").
Proof.
  split_and!.
  - intros template frame [-> | Hnh].
    + apply output_path_no_frame.
    + now apply output_path_no_hash.
  - intros template pre n suf frame Hrun Hn Hframe Hreal.
    destruct (utoa_digits frame Hframe) as (Hds & Hval & Hlen).
    split_and!; try done.
    + now apply output_path_run.
    + unfold zero_pad. rewrite length_app, length_replicate. lia.
  - reflexivity.
  - intros frame. apply output_path_no_hash. repeat constructor.
Qed.

(** The general case of C8 at the template of the specification. *)
Lemma output_path_replaces_hash_run_witness :
  output_path "out.####.exr" 7
  = String.string_of_list_ascii
      (String.list_ascii_of_string "out." ++ zero_pad 4 (utoa 7)
       ++ String.list_ascii_of_string ".exr") /\
  decimal (utoa 7) = 7.
Proof.
  destruct output_path_replaces_hash_run as (_ & Hrun & _).
  destruct (Hrun "out.####.exr" (String.list_ascii_of_string "out.") 4%nat
              (String.list_ascii_of_string ".exr") 7)
    as (Hout & _ & Hval & _).
  - unfold rightmost_hash_run. split_and!.
    + reflexivity.
    + lia.
    + repeat constructor.
    + right. exists (String.list_ascii_of_string "out"), "."%char.
      split; reflexivity.
  - lia.
  - lia.
  - unfold NO_FRAME. lia.
  - split; [exact Hout|exact Hval].
Defined.

(** C8, as stated, fails on a run of 32 or more ['#']: the 32-byte buffer
    cuts the padded number after 31 characters, so the run of 32 is
    replaced by 31 zeros and the frame number is lost. *)
Lemma output_path_long_run_truncated :
  let template := String.string_of_list_ascii (replicate 32 "#"%char) in
  rightmost_hash_run (String.list_ascii_of_string template) [] 32 [] /\
  output_path template 7 = "0000000000000000000000000000000" /\
  String.string_of_list_ascii ([] ++ zero_pad 32 (utoa 7) ++ [])
    = "00000000000000000000000000000007".
Proof.
  split_and!; try reflexivity.
  unfold rightmost_hash_run. split_and!; try reflexivity.
  - lia.
  - constructor.
  - now left.
Qed.

(** ** [strcmp] is a strict total order on names *)

Lemma code_inj x y : code x = code y -> x = y.
Proof.
  unfold code. intros Hxy. apply N2Z.inj in Hxy.
  rewrite <- (ascii_N_embedding x), <- (ascii_N_embedding y). now rewrite Hxy.
Qed.

Lemma strcmp_refl a : strcmp a a = 0.
Proof.
  induction a as [|x a IH]; simpl; [done|].
  now rewrite Z.ltb_irrefl.
Qed.

Lemma strcmp_eq a : forall b, strcmp a b = 0 -> a = b.
Proof.
  induction a as [|x a IH]; intros [|y b]; simpl; try done.
  destruct (Z.ltb_spec (code x) (code y)); [done|].
  destruct (Z.ltb_spec (code y) (code x)); [done|].
  intros Hab. f_equal; [apply code_inj; lia|now apply IH].
Qed.

Lemma strcmp_flip a : forall b, strcmp a b < 0 <-> 0 < strcmp b a.
Proof.
  induction a as [|x a IH]; intros [|y b]; simpl; try lia.
  destruct (Z.ltb_spec (code x) (code y)), (Z.ltb_spec (code y) (code x));
    try lia.
  apply IH.
Qed.

Lemma strcmp_trans a : forall b c,
  strcmp a b < 0 -> strcmp b c < 0 -> strcmp a c < 0.
Proof.
  induction a as [|x a IH]; intros [|y b] [|z c]; simpl; try lia.
  destruct (Z.ltb_spec (code x) (code y)), (Z.ltb_spec (code y) (code x)),
    (Z.ltb_spec (code y) (code z)), (Z.ltb_spec (code z) (code y)),
    (Z.ltb_spec (code x) (code z)), (Z.ltb_spec (code z) (code x));
    try lia.
  apply IH.
Qed.

Lemma strcmp_eqb_false a b : strcmp a b <> 0 -> String.eqb a b = false.
Proof.
  intros Hne. apply String.eqb_neq. intros ->. now rewrite strcmp_refl in Hne.
Qed.

(** ** The merge of one channel *)

Section Merge.
Context `{Tinyexr}.

Implicit Types (chan c : EXRChannelInfo) (data d : Plane).
Implicit Types (cs : list EXRChannelInfo) (ds : list Plane).

Lemma merge_channel_nil chan data ds :
  merge_channel chan data ([], ds) = ([chan], data :: ds).
Proof. unfold merge_channel, vector_insert. simpl. now rewrite drop_0. Qed.

Lemma merge_channel_below chan data c cs d ds :
  strcmp (chan_name c) (chan_name chan) < 0 ->
  merge_channel chan data (c :: cs, d :: ds) =
    (c :: (merge_channel chan data (cs, ds)).1,
     d :: (merge_channel chan data (cs, ds)).2).
Proof.
  intros Hlt. unfold merge_channel. simpl.
  destruct (Z.ltb_spec (strcmp (chan_name c) (chan_name chan)) 0); [|lia].
  simpl. destruct (cs !! lower_bound cs chan) as [it|]; [|done].
  now destruct (strcmp (chan_name it) (chan_name chan) =? 0).
Qed.

Lemma merge_channel_same chan data c cs d ds :
  strcmp (chan_name c) (chan_name chan) = 0 ->
  merge_channel chan data (c :: cs, d :: ds) = (chan :: cs, data :: ds).
Proof.
  intros Heq. unfold merge_channel. simpl. rewrite Heq. simpl.
  rewrite Heq. reflexivity.
Qed.

Lemma merge_channel_above chan data c cs d ds :
  0 < strcmp (chan_name c) (chan_name chan) ->
  merge_channel chan data (c :: cs, d :: ds) = (chan :: c :: cs, data :: d :: ds).
Proof.
  intros Hgt. unfold merge_channel. simpl.
  destruct (Z.ltb_spec (strcmp (chan_name c) (chan_name chan)) 0); [lia|].
  simpl. destruct (Z.eqb_spec (strcmp (chan_name c) (chan_name chan)) 0); [lia|].
  reflexivity.
Qed.

(** The three ways [chan] can meet the head of the table. *)
Lemma strcmp_cases a b : strcmp a b < 0 \/ strcmp a b = 0 \/ 0 < strcmp a b.
Proof. lia. Qed.

Lemma merge_channel_length chan data cs : forall ds,
  length ds = length cs ->
  length (merge_channel chan data (cs, ds)).2
  = length (merge_channel chan data (cs, ds)).1.
Proof.
  induction cs as [|c cs IH]; intros [|d ds] Hlen; try done.
  destruct (strcmp_cases (chan_name c) (chan_name chan)) as [Hc | [Hc | Hc]].
  - rewrite merge_channel_below by done. simpl. f_equal. apply IH.
    simpl in Hlen. lia.
  - rewrite merge_channel_same by done. done.
  - rewrite merge_channel_above by done. simpl. simpl in Hlen. lia.
Qed.

Lemma merge_channel_Forall (P : EXRChannelInfo -> Prop) chan data cs : forall ds,
  length ds = length cs ->
  P chan -> Forall P cs -> Forall P (merge_channel chan data (cs, ds)).1.
Proof.
  induction cs as [|c cs IH]; intros [|d ds] Hlen Hchan Hcs; try done.
  - rewrite merge_channel_nil. simpl. now constructor.
  - inversion Hcs; subst.
    destruct (strcmp_cases (chan_name c) (chan_name chan)) as [Hc | [Hc | Hc]].
    + rewrite merge_channel_below by done. simpl. constructor; [done|].
      apply IH; try done. simpl in Hlen. lia.
    + rewrite merge_channel_same by done. simpl. now constructor.
    + rewrite merge_channel_above by done. simpl. now repeat constructor.
Qed.

Lemma merge_channel_sorted chan data cs : forall ds,
  length ds = length cs ->
  StronglySorted chan_lt cs ->
  StronglySorted chan_lt (merge_channel chan data (cs, ds)).1.
Proof.
  induction cs as [|c cs IH]; intros [|d ds] Hlen Hs; try done.
  - rewrite merge_channel_nil. simpl. repeat constructor.
  - apply StronglySorted_inv in Hs as [Hs Hc_cs].
    destruct (strcmp_cases (chan_name c) (chan_name chan)) as [Hc | [Hc | Hc]].
    + rewrite merge_channel_below by done. simpl. constructor.
      * apply IH; [simpl in Hlen; lia|done].
      * apply merge_channel_Forall; try done. simpl in Hlen. lia.
    + rewrite merge_channel_same by done. simpl. constructor; [done|].
      apply strcmp_eq in Hc. eapply Forall_impl; [exact Hc_cs|].
      intros x. unfold chan_lt. now rewrite Hc.
    + rewrite merge_channel_above by done. simpl.
      apply strcmp_flip in Hc. constructor.
      * now constructor.
      * constructor; [exact Hc|].
        eapply Forall_impl; [exact Hc_cs|].
        intros x. unfold chan_lt. now apply strcmp_trans.
Qed.

Lemma table_find_merged chan data cs : forall ds,
  length ds = length cs ->
  let t := merge_channel chan data (cs, ds) in
  table_find (chan_name chan) t.1 t.2 = Some (chan, data).
Proof.
  induction cs as [|c cs IH]; intros [|d ds] Hlen; try done.
  - rewrite merge_channel_nil. simpl. now rewrite String.eqb_refl.
  - destruct (strcmp_cases (chan_name c) (chan_name chan)) as [Hc | [Hc | Hc]].
    + rewrite merge_channel_below by done. simpl.
      rewrite strcmp_eqb_false by lia. apply IH. simpl in Hlen. lia.
    + rewrite merge_channel_same by done. simpl. now rewrite String.eqb_refl.
    + rewrite merge_channel_above by done. simpl. now rewrite String.eqb_refl.
Qed.

Lemma table_find_other n chan data cs : forall ds,
  length ds = length cs ->
  chan_name chan <> n ->
  let t := merge_channel chan data (cs, ds) in
  table_find n t.1 t.2 = table_find n cs ds.
Proof.
  intros ds Hlen Hn. apply String.eqb_neq in Hn.
  revert ds Hlen. induction cs as [|c cs IH]; intros [|d ds] Hlen; try done.
  - rewrite merge_channel_nil. simpl. now rewrite Hn.
  - destruct (strcmp_cases (chan_name c) (chan_name chan)) as [Hc | [Hc | Hc]].
    + rewrite merge_channel_below by done. simpl.
      destruct (String.eqb (chan_name c) n); [done|].
      apply IH. simpl in Hlen. lia.
    + rewrite merge_channel_same by done. simpl.
      apply strcmp_eq in Hc. now rewrite Hc, Hn.
    + rewrite merge_channel_above by done. simpl. now rewrite Hn.
Qed.

(** ** Merging a sequence of supplied channels *)

Lemma merge_channel_ok chan data t :
  table_ok t -> table_ok (merge_channel chan data t).
Proof.
  destruct t as [cs ds]. intros [Hlen Hs]. split.
  - now apply merge_channel_length.
  - now apply merge_channel_sorted.
Qed.

Lemma merge_all_ok ws : forall t, table_ok t -> table_ok (merge_all t ws).
Proof.
  induction ws as [|w ws IH]; intros t Ht; [done|].
  apply IH. now apply merge_channel_ok.
Qed.

Lemma merge_all_find n ws : forall t,
  table_ok t ->
  table_find n (merge_all t ws).1 (merge_all t ws).2 =
    match last_write n ws with
    | Some x => Some x
    | None => table_find n t.1 t.2
    end.
Proof.
  induction ws as [|w ws IH]; intros t Ht; [done|].
  simpl. change (foldl _ ?t' ws) with (merge_all t' ws).
  rewrite IH by now apply merge_channel_ok.
  destruct (last_write n ws); [done|].
  destruct t as [cs ds], Ht as [Hlen _]. simpl in Hlen.
  destruct (String.eqb_spec (chan_name w.1) n) as [<- | Hne].
  - rewrite table_find_merged by done. now destruct w.
  - now rewrite table_find_other.
Qed.

Lemma merge_all_names (P : EXRChannelInfo -> Prop) ws : forall t,
  table_ok t -> Forall P t.1 -> Forall (fun w => P w.1) ws ->
  Forall P (merge_all t ws).1.
Proof.
  induction ws as [|w ws IH]; intros t Ht HP Hws; [done|].
  inversion Hws; subst. simpl. change (foldl _ ?t' ws) with (merge_all t' ws).
  apply IH; try done.
  - now apply merge_channel_ok.
  - destruct t as [cs ds], Ht as [Hlen _].
    now apply merge_channel_Forall.
Qed.

(** The channel loop over one file merges what the file supplies. *)
Lemma merge_file_writes file header image t :
  merge_file file header image t = merge_all t (file_writes file header image).
Proof.
  unfold merge_file, file_writes, merge_all.
  generalize (seq 0 (Z.to_nat (header_num_channels header))) as l.
  intros l. revert t. induction l as [|i l IH]; intros t; [done|].
  simpl. rewrite IH. unfold merge_index.
  destruct (header_channels header !! i) as [chan|]; [|done].
  destruct (image_images image !! i) as [data|];
    destruct (use_channel file (chan_name chan)); done.
Qed.

End Merge.

(** ** The decoding loop *)

Section Decode.
Context `{Tinyexr}.

Lemma to_uint32_succ a b :
  to_uint32 a = to_uint32 b -> to_uint32 (a + 1) = to_uint32 (b + 1).
Proof.
  unfold to_uint32. intros Hab.
  rewrite (Z.add_mod a), (Z.add_mod b) by lia. now rewrite Hab.
Qed.

Lemma to_uint32_add_l a b : to_uint32 (to_uint32 a + b) = to_uint32 (a + b).
Proof. unfold to_uint32. apply Zplus_mod_idemp_l. Qed.

Lemma to_uint32_idemp a : to_uint32 (to_uint32 a) = to_uint32 a.
Proof. unfold to_uint32. apply Z.mod_mod. lia. Qed.

Ltac decode_cases file :=
  unfold decode; simpl;
  destruct (ParseEXRVersionFromFile (name file)) as [version|];
  [destruct (ParseEXRHeaderFromFile version (name file)) as [header|err];
   [destruct (LoadEXRImageFromFile header (name file)) as [image|err]|]|];
  simpl.

Lemma group_writes_cons file header image rest :
  decode file = Some (header, image) ->
  group_writes (file :: rest) = file_writes file header image ++ group_writes rest.
Proof. unfold group_writes. simpl. now intros ->. Qed.

(** What the loop leaves in the locals. *)
Lemma decode_files_locals fs : forall loc w,
  let loc' := (decode_files fs loc w).1 in
  headers loc' = headers loc ++ ((fun d => d.1.2) <$> decoded_prefix fs) /\
  images loc' = images loc ++ ((fun d => d.2) <$> decoded_prefix fs) /\
  (chans loc', datas loc') = merge_all (chans loc, datas loc) (group_writes fs) /\
  ok loc' = ok loc && all_decoded fs.
Proof.
  unfold all_decoded.
  induction fs as [|file rest IH]; intros loc w.
  - simpl. rewrite !app_nil_r, andb_true_r. done.
  - unfold group_writes. simpl. decode_cases file;
      try (rewrite !app_nil_r, andb_false_r; done).
    match goal with |- context [decode_files rest ?l ?w'] =>
      destruct (IH l w') as (Hh & Hi & Hc & Hok) end.
    simpl in *. rewrite Hh, Hi, Hc, Hok, <- !app_assoc.
    split_and!; try done.
    rewrite merge_file_writes, <- surjective_pairing.
    unfold merge_all. now rewrite foldl_app.
Qed.

(** What the loop does to the run. *)
Lemma decode_files_world fs : forall loc w,
  let w' := (decode_files fs loc w).2 in
  to_uint32 (a_progress (run w'))
    = to_uint32 (a_progress (run w) + Z.of_nat (length (decoded_prefix fs))) /\
  errors (run w') = errors (run w) ++ decode_failure fs /\
  same_setup w w' /\
  progress_log w' = progress_log w /\
  threads (run w') = threads (run w) /\
  a_frames_started (run w') = a_frames_started (run w) /\
  a_threads_done (run w') = a_threads_done (run w).
Proof.
  unfold same_setup.
  induction fs as [|file rest IH]; intros loc w.
  - simpl. rewrite Z.add_0_r, app_nil_r. done.
  - simpl. decode_cases file; try (rewrite Z.add_0_r; done).
    match goal with |- context [decode_files rest ?l ?w'] =>
      destruct (IH l w') as (Hp & He & (Hf & Ho & Hin) & Hl & Ht & Hs & Hd) end.
    simpl in *. rewrite Hp, He, Hf, Ho, Hin, Hl, Ht, Hs, Hd.
    split_and!; try done.
    rewrite to_uint32_add_l. f_equal. lia.
Qed.

Lemma decode_failure_all_decoded fs :
  all_decoded fs = true -> decode_failure fs = [].
Proof.
  unfold all_decoded. induction fs as [|file rest IH]; [done|].
  simpl. decode_cases file; done.
Qed.

Lemma decoded_prefix_length fs : (length (decoded_prefix fs) <= length fs)%nat.
Proof.
  induction fs as [|file rest IH]; simpl; [lia|].
  destruct (decode file) as [[header image]|]; simpl; lia.
Qed.

End Decode.

(** ** [process_frame] *)

Section Frame.
Context `{Tinyexr}.

Lemma decoded_prefix_head fs d ds :
  decoded_prefix fs = d :: ds ->
  exists rest, fs = d.1.1 :: rest /\ decode d.1.1 = Some (d.1.2, d.2).
Proof.
  destruct fs as [|file rest]; [done|]. simpl.
  destruct (decode file) as [[header image]|] eqn:Hd; [|done].
  intros [= <- <-]. now exists rest.
Qed.

Lemma merge_all_nonempty ws t : (merge_all t ws).1 <> [] -> t.1 <> [] \/ ws <> [].
Proof. destruct ws; [now left|now right]. Qed.

(** A merged table with an entry has a decoded file behind it. *)
Lemma chans_nonempty_decoded fs w :
  chans (decode_files fs no_locals w).1 <> [] -> decoded_prefix fs <> [].
Proof.
  destruct (decode_files_locals fs no_locals w) as (_ & _ & Hc & _).
  intros Hne Hnil. apply Hne.
  apply (f_equal fst) in Hc. simpl in Hc. rewrite Hc.
  unfold group_writes. now rewrite Hnil.
Qed.

Lemma ok_all_decoded fs w : ok (decode_files fs no_locals w).1 = all_decoded fs.
Proof. now destruct (decode_files_locals fs no_locals w) as (_ & _ & _ & ->). Qed.

(** The save step finds the header and image of the first file. *)
Lemma first_file_decoded fs w :
  chans (decode_files fs no_locals w).1 <> [] ->
  exists file rest header0 image0,
    fs = file :: rest /\ decode file = Some (header0, image0) /\
    headers (decode_files fs no_locals w).1 !! 0%nat = Some header0 /\
    images (decode_files fs no_locals w).1 !! 0%nat = Some image0.
Proof.
  intros Hne. apply chans_nonempty_decoded in Hne.
  destruct (decoded_prefix fs) as [|[[file header0] image0] ds] eqn:Hpre; [done|].
  destruct (decoded_prefix_head _ _ _ Hpre) as (rest & Hfs & Hd).
  simpl in Hfs, Hd.
  destruct (decode_files_locals fs no_locals w) as (Hh & Hi & _).
  exists file, rest, header0, image0.
  rewrite Hh, Hi, Hpre. done.
Qed.

(** [process_frame] always returns, and this is what it returns. *)
Lemma process_frame_returns w frame fs :
  exists r, process_frame w frame fs = Some r /\
    a_progress (run r.2)
      = to_uint32 (a_progress (run w) + Z.of_nat (length (decoded_prefix fs)) + 1) /\
    errors (run r.2) = errors (run w) ++ frame_errors w frame fs /\
    r.1 = match frame_errors w frame fs with [] => true | _ => false end /\
    same_setup w r.2 /\
    progress_log r.2 = progress_log w /\
    threads (run r.2) = threads (run w) /\
    a_frames_started (run r.2) = a_frames_started (run w) /\
    a_threads_done (run r.2) = a_threads_done (run w).
Proof.
  unfold process_frame, frame_errors.
  pose proof (ok_all_decoded fs w) as Hok.
  pose proof (decode_failure_all_decoded fs) as Hfail.
  destruct (decode_files_world fs no_locals w)
    as (Hp & He & (Hf & Ho & Hin) & Hl & Ht & Hs & Hd).
  assert (Hfirst := first_file_decoded fs w).
  destruct (decode_files fs no_locals w) as [loc w1]. simpl in *.
  assert (Hunits : to_uint32 (a_progress (run w1) + 1) =
            to_uint32 (a_progress (run w) + Z.of_nat (length (decoded_prefix fs)) + 1)).
  { now apply to_uint32_succ. }
  rewrite Hok. destruct (all_decoded fs) eqn:Hall; simpl.
  - rewrite Hfail in He by done. rewrite app_nil_r in He.
    destruct (chans loc) as [|c cs] eqn:Hcs; simpl.
    + eexists. split; [done|]. simpl. unfold same_setup. simpl.
      rewrite He, Hf, Ho, Hin, Hl, Ht, Hs, Hd. done.
    + destruct Hfirst as (file & rest & header0 & image0 & -> & Hdec & Hh0 & Hi0);
        [done|].
      unfold save_frame. rewrite Hh0, Hi0.
      destruct (headers loc) as [|h hs]; [done|].
      destruct (images loc) as [|i0 imgs]; [done|].
      injection Hh0 as ->. injection Hi0 as ->.
      rewrite Hcs, Ho. simpl.
      destruct (SaveEXRImageToFile _ _ _) as [err|]; simpl.
      * eexists. split; [done|]. simpl. unfold same_setup. simpl.
        rewrite He, Hf, Ho, Hin, Hl, Ht, Hs, Hd. done.
      * eexists. split; [done|]. simpl. unfold same_setup. simpl.
        rewrite He, Hf, Ho, Hin, Hl, Ht, Hs, Hd, app_nil_r. done.
  - eexists. split; [done|]. simpl. unfold same_setup. simpl.
    rewrite He, Hf, Ho, Hin, Hl, Ht, Hs, Hd. split_and!; try done.
    destruct (decode_failure fs) eqn:Hdf; [|done].
    exfalso. clear -Hall Hdf. unfold all_decoded in Hall.
    apply Nat.eqb_neq in Hall. apply Hall. clear Hall.
    induction fs as [|file rest IH]; [done|]. simpl in *. unfold decode.
    destruct (ParseEXRVersionFromFile (name file)) as [version|]; [|done].
    destruct (ParseEXRHeaderFromFile version (name file)) as [header|err]; [|done].
    destruct (LoadEXRImageFromFile header (name file)) as [image|err]; [|done].
    simpl. f_equal. now apply IH.
Qed.

End Frame.

Section FrameClaims.
Context `{Tinyexr}.

Lemma count_calls_snoc p log c :
  count_calls p (log ++ [c]) = count_calls p log + (if p c then 1 else 0).
Proof.
  unfold count_calls. rewrite List.filter_app, length_app. simpl.
  destruct (p c); simpl; lia.
Qed.

(** The codec calls of the decoding loop: one decode attempt per file up to
    and including the first that fails, and no save. *)
Lemma decode_files_calls fs : forall loc w,
  let w' := (decode_files fs loc w).2 in
  count_calls is_decode_attempt (codec_log w')
    = count_calls is_decode_attempt (codec_log w)
      + Z.of_nat (length (decoded_prefix fs))
      + (if all_decoded fs then 0 else 1) /\
  count_calls is_save_attempt (codec_log w')
    = count_calls is_save_attempt (codec_log w).
Proof.
  unfold all_decoded.
  induction fs as [|file rest IH]; intros loc w.
  - simpl. split; lia.
  - simpl. unfold decode.
    destruct (ParseEXRVersionFromFile (name file)) as [version|]; simpl;
      [|rewrite !count_calls_snoc; simpl; split; lia].
    destruct (ParseEXRHeaderFromFile version (name file)) as [header|err]; simpl;
      [|rewrite !count_calls_snoc; simpl; split; lia].
    destruct (LoadEXRImageFromFile header (name file)) as [image|err]; simpl;
      [|rewrite !count_calls_snoc; simpl; split; lia].
    match goal with |- context [decode_files rest ?l ?w'] =>
      destruct (IH l w') as (Hd & Hs) end.
    simpl in *. rewrite Hd, Hs, !count_calls_snoc. simpl.
    split; [|lia].
    destruct (length (decoded_prefix rest) =? length rest)%nat; lia.
Qed.

(** The codec calls of a whole frame. *)
Lemma process_frame_calls w frame fs :
  exists r, process_frame w frame fs = Some r /\
    count_calls is_decode_attempt (codec_log r.2)
      = count_calls is_decode_attempt (codec_log w)
        + Z.of_nat (length (decoded_prefix fs))
        + (if all_decoded fs then 0 else 1) /\
    count_calls is_save_attempt (codec_log r.2)
      = count_calls is_save_attempt (codec_log w)
        + (if all_decoded fs
           then match chans (decode_files fs no_locals w).1 with
                | [] => 0
                | _ => 1
                end
           else 0).
Proof.
  unfold process_frame.
  pose proof (ok_all_decoded fs w) as Hok.
  destruct (decode_files_calls fs no_locals w) as (Hd & Hs).
  assert (Hfirst := first_file_decoded fs w).
  destruct (decode_files fs no_locals w) as [loc w1]. simpl in *.
  rewrite Hok. destruct (all_decoded fs) eqn:Hall; simpl.
  - destruct (chans loc) as [|c cs] eqn:Hcs; simpl.
    + eexists. split; [done|]. simpl. rewrite Hd, Hs. split; lia.
    + destruct Hfirst as (file & rest & header0 & image0 & -> & Hdec & Hh0 & Hi0);
        [done|].
      unfold save_frame. rewrite Hh0, Hi0.
      destruct (SaveEXRImageToFile _ _ _) as [err|]; simpl;
        (eexists; split; [done|]); simpl;
        rewrite !count_calls_snoc, Hd, Hs; simpl; split; lia.
  - eexists. split; [done|]. simpl. rewrite Hd, Hs. split; lia.
Qed.

Lemma sorted_names_NoDup (cs : list EXRChannelInfo) :
  StronglySorted chan_lt cs -> NoDup (chan_name <$> cs).
Proof.
  induction 1 as [|c cs Hs IH Hc]; simpl; constructor; [|done].
  intros Hin. apply list_elem_of_fmap in Hin as (c' & Hname & Hc').
  rewrite Forall_forall in Hc. apply Hc in Hc'.
  unfold chan_lt in Hc'. rewrite Hname, strcmp_refl in Hc'. lia.
Qed.

Lemma file_writes_supplied file header image w :
  w ∈ file_writes file header image ->
  w.1 ∈ header_channels header /\ chan_name w.1 ∈ channels file.
Proof.
  unfold file_writes. intros Hin.
  apply list_elem_of_omap in Hin as (i & _ & Hi).
  destruct (header_channels header !! i) as [chan|] eqn:Hchan; [|done].
  destruct (image_images image !! i) as [data|]; [|done].
  unfold use_channel in Hi.
  destruct (bool_decide_reflect (chan_name chan ∈ channels file)); [|done].
  injection Hi as <-. simpl. split; [|done].
  eapply list_elem_of_lookup_2. exact Hchan.
Qed.

Lemma group_writes_supplied fs :
  Forall (fun w => supplied fs w.1) (group_writes fs).
Proof.
  apply Forall_forall. intros w Hin.
  unfold group_writes in Hin.
  apply list_elem_of_join in Hin as (ws & Hw & Hws).
  apply list_elem_of_fmap in Hws as (d & -> & Hd).
  exists d. split; [done|]. now apply file_writes_supplied in Hw.
Qed.

Lemma merged_supplied fs w :
  Forall (supplied fs) (chans (decode_files fs no_locals w).1).
Proof.
  destruct (decode_files_locals fs no_locals w) as (_ & _ & Hc & _).
  apply (f_equal fst) in Hc. simpl in Hc. rewrite Hc.
  apply merge_all_names.
  - split; [done|constructor].
  - constructor.
  - apply group_writes_supplied.
Qed.

Lemma decode_failure_not_no_channels fs frame :
  FrameHasNoChannels frame ∉ decode_failure fs.
Proof.
  induction fs as [|file rest IH]; simpl; [apply not_elem_of_nil|].
  destruct (ParseEXRVersionFromFile (name file)) as [version|];
    [|now intros Hin%list_elem_of_singleton].
  destruct (ParseEXRHeaderFromFile version (name file)) as [header|err];
    [|now intros Hin%list_elem_of_singleton].
  destruct (LoadEXRImageFromFile header (name file)) as [image|err];
    [done|now intros Hin%list_elem_of_singleton].
Qed.

End FrameClaims.

Section Workers.
Context `{Tinyexr}.

(** The save step of a frame whose files all decode and supply a channel. *)
Lemma process_frame_saves w frame fs :
  all_decoded fs = true ->
  chans (decode_files fs no_locals w).1 <> [] ->
  exists file rest header0 image0 r,
    fs = file :: rest /\ decode file = Some (header0, image0) /\
    headers (decode_files fs no_locals w).1 !! 0%nat = Some header0 /\
    images (decode_files fs no_locals w).1 !! 0%nat = Some image0 /\
    process_frame w frame fs = Some r /\
    last (codec_log r.2) =
      Some (CallSaveImage
              (composite_image image0 (datas (decode_files fs no_locals w).1))
              (composite_header header0 (chans (decode_files fs no_locals w).1))
              (output_path (output_name (run w)) frame)).
Proof.
  intros Hall Hne.
  destruct (first_file_decoded fs w Hne)
    as (file & rest & header0 & image0 & Hfs & Hdec & Hh0 & Hi0).
  exists file, rest, header0, image0.
  unfold process_frame.
  pose proof (ok_all_decoded fs w) as Hok.
  destruct (decode_files_world fs no_locals w) as (_ & _ & (_ & Ho & _) & _).
  destruct (decode_files fs no_locals w) as [loc w1]. simpl in *.
  rewrite Hok, Hall. simpl.
  destruct (chans loc) as [|c cs] eqn:Hcs; [done|]. simpl.
  unfold save_frame. rewrite Hh0, Hi0, Hcs, Ho.
  destruct (SaveEXRImageToFile _ _ _) as [err|]; simpl;
    eexists; (split_and!; [done..|]); simpl; apply last_snoc.
Qed.

Lemma set_worker_same_setup tid s w : same_setup w (set_worker tid s w).
Proof. done. Qed.

Lemma same_setup_trans w1 w2 w3 :
  same_setup w1 w2 -> same_setup w2 w3 -> same_setup w1 w3.
Proof.
  unfold same_setup. intros (-> & -> & ->) (-> & -> & ->). done.
Qed.

Lemma notify_same_setup tid ix w : same_setup w (notify tid ix w).
Proof. unfold notify. now destruct (progress_fn _). Qed.

(** No action of a worker changes the frame groups or the input. *)
Lemma step_same_setup tid w : same_setup w (step tid w).
Proof.
  unfold step. destruct (threads (run w) !! tid) as [[ | ix | ix | | | | ]|];
    try done.
  - simpl. now destruct (_ <=? _).
  - destruct (frames (run w) !! ix) as [[frame fs]|]; [|done].
    destruct (process_frame_returns w frame fs)
      as ([b w'] & -> & _ & _ & _ & Hsame & _).
    destruct b; eapply same_setup_trans; try exact Hsame;
      apply set_worker_same_setup.
  - eapply same_setup_trans; [apply notify_same_setup|apply set_worker_same_setup].
  - eapply same_setup_trans; [apply notify_same_setup|apply set_worker_same_setup].
Qed.

Lemma run_schedule_same_setup sched : forall w,
  same_setup w (run_schedule sched w).
Proof.
  induction sched as [|tid sched IH]; intros w; [done|].
  simpl. eapply same_setup_trans; [apply step_same_setup|apply IH].
Qed.

End Workers.

(** ** Grouping *)

Lemma map_push_back_keys (P : Z -> Prop) k rf m :
  P k -> Forall P m.*1 -> Forall P (map_push_back k rf m).*1.
Proof.
  intros Hk. induction m as [|[k0 v] m IH]; intros Hm; simpl.
  - now repeat constructor.
  - inversion Hm; subst.
    destruct (k <? k0); [now repeat constructor|].
    destruct (k =? k0); simpl; constructor; auto.
Qed.

Lemma map_push_back_sorted k rf m :
  StronglySorted Z.lt m.*1 -> StronglySorted Z.lt (map_push_back k rf m).*1.
Proof.
  induction m as [|[k0 v] m IH]; intros Hs; simpl.
  - repeat constructor.
  - apply StronglySorted_inv in Hs as [Hs Hk0]. simpl in *.
    destruct (Z.ltb_spec k k0).
    + simpl. constructor; [now constructor|].
      constructor; [done|]. eapply Forall_impl; [exact Hk0|]. simpl. lia.
    + destruct (Z.eqb_spec k k0); simpl.
      * now constructor.
      * constructor; [now apply IH|].
        apply map_push_back_keys; [lia|done].
Qed.

Lemma map_find_above k m : Forall (Z.lt k) m.*1 -> map_find k m = None.
Proof.
  induction m as [|[k0 v] m IH]; intros Hm; simpl; [done|].
  inversion Hm; subst. destruct (Z.eqb_spec k0 k); [lia|]. now apply IH.
Qed.

Lemma map_find_push_back k rf m :
  StronglySorted Z.lt m.*1 ->
  map_find k (map_push_back k rf m) = Some (default [] (map_find k m) ++ [rf]).
Proof.
  induction m as [|[k0 v] m IH]; intros Hs; simpl.
  - now rewrite Z.eqb_refl.
  - apply StronglySorted_inv in Hs as [Hs Hk0]. simpl in *.
    destruct (Z.ltb_spec k k0).
    + simpl. rewrite Z.eqb_refl.
      destruct (Z.eqb_spec k0 k); [lia|].
      rewrite map_find_above; [done|].
      eapply Forall_impl; [exact Hk0|]. simpl. lia.
    + destruct (Z.eqb_spec k k0) as [->|Hne]; simpl.
      * now rewrite Z.eqb_refl.
      * destruct (Z.eqb_spec k0 k); [lia|]. now apply IH.
Qed.

Lemma map_find_push_back_other k' k rf m :
  k' <> k -> map_find k' (map_push_back k rf m) = map_find k' m.
Proof.
  intros Hne. induction m as [|[k0 v] m IH]; simpl.
  - destruct (Z.eqb_spec k k'); [lia|done].
  - destruct (Z.ltb_spec k k0).
    + simpl. destruct (Z.eqb_spec k k'); [lia|done].
    + destruct (Z.eqb_spec k k0) as [->|]; simpl.
      * destruct (Z.eqb_spec k0 k'); [lia|done].
      * now rewrite IH.
Qed.

Lemma map_find_elem k v m :
  StronglySorted Z.lt m.*1 -> (k, v) ∈ m <-> map_find k m = Some v.
Proof.
  induction m as [|[k0 v0] m IH]; intros Hs; simpl.
  - split; [now intros ?%not_elem_of_nil|done].
  - apply StronglySorted_inv in Hs as [Hs Hk0]. simpl in *.
    rewrite elem_of_cons, IH by done.
    destruct (Z.eqb_spec k0 k) as [->|Hne].
    + split; [|intros [= ->]; now left].
      intros [[= ->] | Hfind]; [done|].
      rewrite map_find_above in Hfind; done.
    + split; [|now right]. intros [[= ? ?] | ?]; [lia|done].
Qed.

Lemma group_files_snoc fs f :
  group_files (fs ++ [f])
  = map_push_back (strip_frame (file_name f)) (run_file_of f) (group_files fs).
Proof. unfold group_files. now rewrite foldl_app. Qed.

Lemma bucket_snoc k fs f :
  bucket k (fs ++ [f])
  = bucket k fs ++ (if strip_frame (file_name f) =? k then [run_file_of f] else []).
Proof.
  unfold bucket. rewrite List.filter_app, fmap_app. simpl.
  now destruct (strip_frame (file_name f) =? k).
Qed.

Lemma group_files_sorted fs : StronglySorted Z.lt (group_files fs).*1.
Proof.
  induction fs as [|f fs IH] using rev_ind; [constructor|].
  rewrite group_files_snoc. now apply map_push_back_sorted.
Qed.

(** The group under a frame number is the bucket of that number. *)
Lemma group_files_find fs : forall k,
  map_find k (group_files fs)
  = match bucket k fs with [] => None | b => Some b end.
Proof.
  induction fs as [|f fs IH] using rev_ind; intros k; [done|].
  rewrite group_files_snoc, bucket_snoc.
  destruct (Z.eqb_spec (strip_frame (file_name f)) k) as [->|Hne].
  - rewrite map_find_push_back by apply group_files_sorted.
    rewrite IH. destruct (bucket _ fs); done.
  - rewrite map_find_push_back_other by done.
    now rewrite IH, app_nil_r.
Qed.

Lemma bucket_frames k fs rf :
  rf ∈ bucket k fs -> exists f, f ∈ fs /\ strip_frame (file_name f) = k.
Proof.
  unfold bucket. intros Hin.
  apply list_elem_of_fmap in Hin as (f & _ & Hf).
  apply list_elem_of_In, List.filter_In in Hf as [Hf Hk].
  exists f. split; [now apply list_elem_of_In|lia].
Qed.

Lemma sorted_last_greatest (K : Z) v (m : list (Z * list exrtool_run_file)) :
  StronglySorted Z.lt m.*1 -> Forall (fun k => k <= K) m.*1 ->
  (K, v) ∈ m -> last m = Some (K, v).
Proof.
  induction m as [|[k0 v0] m IH]; intros Hs Hle Hin.
  - now apply not_elem_of_nil in Hin.
  - apply StronglySorted_inv in Hs as [Hs Hk0]. simpl in *.
    inversion Hle as [|? ? _ Hle']; subst.
    destruct m as [|x m].
    + apply list_elem_of_singleton in Hin. now rewrite Hin.
    + apply elem_of_cons in Hin as [[= <- <-] | Hin].
      * inversion Hk0; subst. inversion Hle'; subst. lia.
      * rewrite last_cons_cons. now apply IH.
Qed.

(** ** The worker loop *)

Section WorkerLoop.
Context `{Tinyexr}.

Lemma step_exited tid w :
  threads (run w) !! tid = Some Exited -> step tid w = w.
Proof. unfold step. now intros ->. Qed.

Lemma run_schedule_app s1 s2 w :
  run_schedule (s1 ++ s2) w = run_schedule s2 (run_schedule s1 w).
Proof. apply foldl_app. Qed.

(** A thread that has left the lambda takes no further action. *)
Lemma run_schedule_exited tid w n :
  threads (run w) !! tid = Some Exited ->
  run_schedule (replicate n tid) w = w.
Proof.
  intros Hex. induction n as [|n IH]; [done|].
  simpl. now rewrite step_exited.
Qed.

(** From the fourth action on, a single worker that exits within four
    actions stays where it is. *)
Lemma run_schedule_settled w n :
  threads (run (run_schedule (replicate 4 0%nat) w)) !! 0%nat = Some Exited ->
  (4 <= n)%nat ->
  run_schedule (replicate n 0%nat) w = run_schedule (replicate 4 0%nat) w.
Proof.
  intros Hex Hn. replace n with (4 + (n - 4))%nat by lia.
  rewrite replicate_add, run_schedule_app. now apply run_schedule_exited.
Qed.

End WorkerLoop.

Section SingleWorker.
Context `{Tinyexr}.

Lemma decode_failure_nonempty fs :
  all_decoded fs = false -> decode_failure fs <> [].
Proof.
  intros Hall Hnil. unfold all_decoded in Hall.
  apply Nat.eqb_neq in Hall. apply Hall. clear Hall.
  induction fs as [|file rest IH]; [done|]. simpl in *. unfold decode.
  destruct (ParseEXRVersionFromFile (name file)) as [version|]; [|done].
  destruct (ParseEXRHeaderFromFile version (name file)) as [header|err]; [|done].
  destruct (LoadEXRImageFromFile header (name file)) as [image|err]; [|done].
  simpl. f_equal. now apply IH.
Qed.

(** A frame group with a file that does not decode makes [process_frame]
    return [false], in every state of the run. *)
Lemma process_frame_fails w frame fs :
  all_decoded fs = false ->
  exists w', process_frame w frame fs = Some (false, w') /\
    errors (run w') = errors (run w) ++ decode_failure fs /\
    same_setup w w' /\
    progress_log w' = progress_log w /\
    threads (run w') = threads (run w) /\
    a_frames_started (run w') = a_frames_started (run w) /\
    a_threads_done (run w') = a_threads_done (run w).
Proof.
  intros Hall.
  destruct (process_frame_returns w frame fs)
    as ([b w'] & Hr & _ & He & Hb & Hrest).
  unfold frame_errors in He, Hb. rewrite Hall in He, Hb. simpl in *.
  pose proof (decode_failure_nonempty fs Hall) as Hne.
  destruct (decode_failure fs) as [|e es]; [done|]. subst b.
  exists w'. split_and!; try done; apply Hrest.
Qed.

Variables (cores : nat) (request : exrtool_input).
Variables (frame : Z) (fs : list exrtool_run_file).
Variable rest : list (Z * list exrtool_run_file).
Hypothesis one_thread : thread_count cores request = 1%nat.
Hypothesis first_group : group_files (files request) = (frame, fs) :: rest.
Hypothesis first_fails : all_decoded fs = false.

(** The worker after its first two actions: index 0 claimed, the frame
    processed and failed, the loop left. *)
Lemma single_worker_leaves_loop :
  exists w2,
    run_schedule [0; 0]%nat (exrtool_process cores request) = w2 /\
    threads (run w2) = [Finishing] /\
    a_frames_started (run w2) = 1 /\
    a_threads_done (run w2) = 0 /\
    errors (run w2) = decode_failure fs /\
    progress_log w2 = [] /\
    input (run w2) = request.
Proof.
  unfold run_schedule. simpl foldl.
  set (w0 := exrtool_process cores request).
  assert (Hstep1 : step 0 w0 = set_worker 0 (Processing 0) (frames_started_fetch_add w0)).
  { unfold step, w0, exrtool_process. simpl. rewrite one_thread, first_group.
    reflexivity. }
  rewrite Hstep1.
  remember (set_worker 0 (Processing 0) (frames_started_fetch_add w0)) as w1
    eqn:Hw1.
  assert (Hthreads1 : threads (run w1) = [Processing 0]).
  { rewrite Hw1. unfold w0, exrtool_process. simpl. now rewrite one_thread. }
  assert (Hframes1 : frames (run w1) = (frame, fs) :: rest).
  { rewrite Hw1. exact first_group. }
  assert (Hstarted1 : a_frames_started (run w1) = 1) by now rewrite Hw1.
  assert (Hdone1 : a_threads_done (run w1) = 0) by now rewrite Hw1.
  assert (Herrors1 : errors (run w1) = []) by now rewrite Hw1.
  assert (Hlog1 : progress_log w1 = []) by now rewrite Hw1.
  assert (Hinput1 : input (run w1) = request) by now rewrite Hw1.
  destruct (process_frame_fails w1 frame fs first_fails)
    as (w' & Hpf & He & (_ & _ & Hin) & Hl & Ht & Hs & Hd).
  unfold step. rewrite Hthreads1. simpl. rewrite Hframes1. simpl. rewrite Hpf.
  eexists. split; [reflexivity|]. simpl.
  rewrite Ht, Hthreads1, Hs, Hd, He, Hl, Hin.
  rewrite Hstarted1, Hdone1, Herrors1, Hlog1, Hinput1. done.
Qed.

(** Whatever the number of actions it takes, a single worker whose first
    frame group fails claims no other index, never invokes the callback
    for an index, and ends with the error of that group alone. *)
Lemma single_worker_stops_at_failure (n : nat) :
  let w := run_schedule (replicate n 0%nat) (exrtool_process cores request) in
  a_frames_started (run w) <= 1 /\
  (forall ix, (0%nat, Some ix) ∉ progress_log w) /\
  ((4 <= n)%nat ->
   threads (run w) = [Exited] /\
   a_frames_started (run w) = 1 /\
   a_threads_done (run w) = 1 /\
   errors (run w) = decode_failure fs /\
   progress_log w = (if progress_fn request then [(0%nat, None)] else []) /\
   (exrtool_poll w).1 = true).
Proof.
  destruct single_worker_leaves_loop
    as (w2 & Hw2 & Ht2 & Hs2 & Hd2 & He2 & Hl2 & Hin2).
  set (w0 := exrtool_process cores request) in *.
  assert (Hstep1 : step 0 w0 = set_worker 0 (Processing 0) (frames_started_fetch_add w0)).
  { unfold step, w0, exrtool_process. simpl. rewrite one_thread, first_group.
    reflexivity. }
  set (w3 := step 0 w2).
  assert (Hw3 : w3 = set_worker 0 FinalNotify (threads_done_fetch_add w2)).
  { unfold w3, step. now rewrite Ht2. }
  set (w4 := step 0 w3).
  assert (Hw4 : w4 = set_worker 0 Exited (notify 0 None w3)).
  { unfold w4, step. rewrite Hw3. simpl. now rewrite Ht2. }
  assert (Hlog4 : progress_log w4
                  = if progress_fn request then [(0%nat, None)] else []).
  { rewrite Hw4, Hw3. unfold notify. simpl. rewrite Hin2.
    destruct (progress_fn request); simpl; now rewrite Hl2. }
  assert (Hfacts4 : threads (run w4) = [Exited] /\ a_frames_started (run w4) = 1 /\
                    a_threads_done (run w4) = 1 /\ errors (run w4) = decode_failure fs).
  { rewrite Hw4, Hw3. unfold notify. simpl. rewrite Hin2.
    destruct (progress_fn request); simpl; rewrite Ht2, Hs2, Hd2, He2; done. }
  assert (Hnone : forall l : list (nat * option nat),
            l = (if progress_fn request then [(0%nat, None)] else []) ->
            forall ix, (0%nat, Some ix) ∉ l).
  { intros l -> ix Hin. destruct (progress_fn request).
    - now apply list_elem_of_singleton in Hin.
    - now apply not_elem_of_nil in Hin. }
  assert (Hcases : (n = 0 \/ n = 1 \/ n = 2 \/ n = 3 \/ 4 <= n)%nat) by lia.
  destruct Hcases as [-> | [-> | [-> | [-> | Hn]]]]; cbv zeta.
  - split_and!; [done|intros ix; apply not_elem_of_nil|lia].
  - change (run_schedule (replicate 1 0%nat) w0) with (step 0 w0).
    rewrite Hstep1. split_and!; [done|intros ix; apply not_elem_of_nil|lia].
  - change (replicate 2 0%nat) with [0; 0]%nat. rewrite Hw2.
    split_and!; [lia| |lia]. intros ix. rewrite Hl2. apply not_elem_of_nil.
  - change (run_schedule (replicate 3 0%nat) w0)
      with (step 0 (run_schedule [0; 0]%nat w0)).
    rewrite Hw2. fold w3. rewrite Hw3. simpl.
    split_and!; [lia| |lia]. intros ix. rewrite Hl2. apply not_elem_of_nil.
  - assert (Hrun4 : run_schedule (replicate 4 0%nat) w0 = w4).
    { change (run_schedule (replicate 4 0%nat) w0)
        with (step 0 (step 0 (run_schedule [0; 0]%nat w0))).
      now rewrite Hw2. }
    destruct Hfacts4 as (Ht4 & Hs4 & Hd4 & He4).
    rewrite run_schedule_settled; [|rewrite Hrun4, Ht4; done|done].
    rewrite Hrun4. split_and!; try done.
    + lia.
    + now apply Hnone.
    + intros _. split_and!; try done.
      unfold exrtool_poll. simpl. rewrite Hd4, Ht4. done.
Qed.

End SingleWorker.

(** * The claims about one frame group *)

Import Disk.

(** C5.  The channel table merged from a frame group's files is keyed by
    unique names in ascending [strcmp] order, with one plane per channel,
    and the entry under a name is the last one supplied in scan order, so a
    later file's plane and pixel type replace an earlier file's.  Files
    supplying R, G and B, R merge to exactly B, G, R, with R (plane and
    pixel type) from the second file. *)
Theorem merged_channels_sorted_last_wins :
  (forall (types : TinyexrTypes) (codec : Tinyexr)
          (fs : list exrtool_run_file) (w : world),
     let loc := (decode_files fs no_locals w).1 in
     StronglySorted chan_lt (chans loc) /\
     NoDup (chan_name <$> chans loc) /\
     length (datas loc) = length (chans loc) /\
     forall n, table_find n (chans loc) (datas loc)
               = last_write n (group_writes fs)) /\
  (forall w : world,
     let fs := [run_file_of (request "a.0001.exr" ["R"; "G"]);
                run_file_of (request "b.0001.exr" ["B"; "R"])] in
     let loc := (decode_files fs no_locals w).1 in
     chan_name <$> chans loc = ["B"; "G"; "R"] /\
     pixel_type <$> chans loc = [2; 1; 2] /\
     datas loc = ["b.0001.exr:B"; "a.0001.exr:G"; "b.0001.exr:R"]).
Proof.
  split.
  - intros types codec fs w loc.
    destruct (decode_files_locals fs no_locals w) as (_ & _ & Hc & _).
    fold loc in Hc. simpl in Hc.
    assert (Hok : table_ok (chans loc, datas loc)).
    { rewrite Hc. apply merge_all_ok. split; [done|constructor]. }
    destruct Hok as [Hlen Hs]. simpl in Hlen, Hs.
    split_and!; try done.
    + now apply sorted_names_NoDup.
    + intros n.
      pose proof (merge_all_find n (group_writes fs) ([], [])) as Hfind.
      rewrite <- Hc in Hfind. simpl in Hfind. rewrite Hfind.
      * now destruct (last_write n (group_writes fs)).
      * split; [done|constructor].
  - intros w. vm_compute. done.
Qed.

(** C9.  [process_frame] never reads outside its vectors.  When all files
    of the group decode and the merged table is not empty, the group has a
    first file, [headers[0]] and [images[0]] are what was decoded from it,
    and the composite handed to the codec keeps every member of that header
    and image except the channel table, the pixel types and the planes,
    which are the merged ones. *)
Theorem composite_from_first_file :
  forall (types : TinyexrTypes) (codec : Tinyexr)
         (w : world) (frame : Z) (fs : list exrtool_run_file),
    let loc := (decode_files fs no_locals w).1 in
    (exists r, process_frame w frame fs = Some r) /\
    (all_decoded fs = true -> chans loc <> [] ->
     exists file rest header0 image0 r,
       fs = file :: rest /\ decode file = Some (header0, image0) /\
       headers loc !! 0%nat = Some header0 /\
       images loc !! 0%nat = Some image0 /\
       process_frame w frame fs = Some r /\
       let header := composite_header header0 (chans loc) in
       let image := composite_image image0 (datas loc) in
       last (codec_log r.2)
         = Some (CallSaveImage image header
                   (output_path (output_name (run w)) frame)) /\
       header_rest header = header_rest header0 /\
       image_rest image = image_rest image0 /\
       header_channels header = chans loc /\
       pixel_types header = pixel_type <$> chans loc /\
       requested_pixel_types header = pixel_type <$> chans loc /\
       image_images image = datas loc).
Proof.
  intros types codec w frame fs loc. split.
  - destruct (process_frame_returns w frame fs) as (r & Hr & _). now exists r.
  - intros Hall Hne.
    destruct (process_frame_saves w frame fs Hall Hne)
      as (file & rest & header0 & image0 & r & Hfs & Hdec & Hh0 & Hi0 & Hr & Hlast).
    exists file, rest, header0, image0, r. split_and!; done.
Qed.

(** The first-file composite on the sample disk: the two files of frame 1
    decode, and the composite keeps the rest of [a.0001.exr]. *)
Lemma composite_from_first_file_witness :
  let fs := [run_file_of (request "a.0001.exr" ["R"; "G"]);
             run_file_of (request "b.0001.exr" ["B"; "R"])] in
  let w := exrtool_process 1 (single_worker []) in
  exists file rest header0 image0 r,
    fs = file :: rest /\ decode file = Some (header0, image0) /\
    headers (decode_files fs no_locals w).1 !! 0%nat = Some header0 /\
    images (decode_files fs no_locals w).1 !! 0%nat = Some image0 /\
    process_frame w 1 fs = Some r /\
    header_rest header0 = "a.0001.exr".
Proof.
  intros fs w.
  destruct (composite_from_first_file _ _ w 1 fs) as [_ Hsave].
  destruct Hsave as (file & rest & header0 & image0 & r & Hfs & Hdec & Hh0 & Hi0 & Hr & _).
  - vm_compute. reflexivity.
  - vm_compute. discriminate.
  - exists file, rest, header0, image0, r. split_and!; try done.
    injection Hfs as <- <-. vm_compute in Hdec. now injection Hdec as <- <-.
Defined.

(** C10.  A name found in no decoded header of the group has no entry in
    the merged table, and nothing is recorded for it: when all files
    decode and the table is not empty, the frame records no error except
    possibly that of a failed save.  The "no channels" error is recorded
    exactly when all files decode and the merged table is empty. *)
Theorem unsupplied_channel_ignored :
  forall (types : TinyexrTypes) (codec : Tinyexr)
         (w : world) (frame : Z) (fs : list exrtool_run_file),
    let loc := (decode_files fs no_locals w).1 in
    (forall n,
       (forall d, d ∈ decoded_prefix fs ->
                  n ∉ chan_name <$> header_channels d.1.2) ->
       n ∉ chan_name <$> chans loc) /\
    (exists r, process_frame w frame fs = Some r /\
               errors (run r.2) = errors (run w) ++ frame_errors w frame fs) /\
    (all_decoded fs = true -> chans loc <> [] ->
     frame_errors w frame fs = [] \/
     exists out err, frame_errors w frame fs = [FailedSaveImage out err]) /\
    (forall f, FrameHasNoChannels f ∈ frame_errors w frame fs <->
               f = frame /\ all_decoded fs = true /\ chans loc = []).
Proof.
  intros types codec w frame fs loc. split_and!.
  - intros n Hnone Hin.
    apply list_elem_of_fmap in Hin as (c & -> & Hc).
    pose proof (merged_supplied fs w) as Hsup. fold loc in Hsup.
    rewrite Forall_forall in Hsup.
    destruct (Hsup c Hc) as (d & Hd & Hcd & _).
    apply (Hnone d Hd). now apply list_elem_of_fmap_2.
  - destruct (process_frame_returns w frame fs) as (r & Hr & _ & He & _).
    now exists r.
  - intros Hall Hne. unfold frame_errors. fold loc. rewrite Hall.
    destruct (first_file_decoded fs w Hne)
      as (file & rest & header0 & image0 & _ & _ & Hh0 & Hi0).
    fold loc in Hh0, Hi0.
    destruct (chans loc) as [|c cs]; [done|].
    destruct (headers loc) as [|h hs]; [done|].
    destruct (images loc) as [|i0 imgs]; [done|].
    destruct (SaveEXRImageToFile _ _ _) as [err|]; [right|now left].
    now eexists _, err.
  - intros f. unfold frame_errors. fold loc.
    destruct (all_decoded fs) eqn:Hall.
    + destruct (chans loc) as [|c cs] eqn:Hcs.
      * rewrite list_elem_of_singleton. split; [now intros [= ->]|].
        now intros (-> & _).
      * split; [|now intros (_ & _ & ?)].
        destruct (headers loc) as [|h hs]; [now intros ?%not_elem_of_nil|].
        destruct (images loc) as [|i0 imgs]; [now intros ?%not_elem_of_nil|].
        destruct (SaveEXRImageToFile _ _ _) as [err|].
        -- now intros ?%list_elem_of_singleton.
        -- now intros ?%not_elem_of_nil.
    + split; [|now intros (_ & ? & _)].
      intros Hin. now apply decode_failure_not_no_channels in Hin.
Qed.

(** On the sample disk: ["c.0002.exr"] holds only Z; asked for Z and for
    an absent A, the frame is saved with Z alone and records no error. *)
Lemma unsupplied_channel_ignored_witness :
  let fs := [run_file_of (request "c.0002.exr" ["Z"; "A"])] in
  let w := exrtool_process 1 (single_worker []) in
  chan_name <$> chans (decode_files fs no_locals w).1 = ["Z"] /\
  (frame_errors w 2 fs = [] \/
   exists out err, frame_errors w 2 fs = [FailedSaveImage out err]).
Proof.
  intros fs w. split; [vm_compute; reflexivity|].
  apply (unsupplied_channel_ignored _ _ w 2 fs).
  - vm_compute. reflexivity.
  - vm_compute. discriminate.
Defined.

(** C3 (as amended).  Processing a frame group adds to the done-units
    counter one unit per source file that decodes and one more unit for the
    group itself, whatever became of it.  Counted by attempts, that is one
    unit per decode attempt and one per save attempt, and one unit besides
    for a group that decodes fully but has no channels (it is never saved).
    The max-units value is [num_files + frames.size()], set when the run is
    created and changed by no action of a worker. *)
Theorem done_units_per_frame :
  (forall (types : TinyexrTypes) (codec : Tinyexr)
          (w : world) (frame : Z) (fs : list exrtool_run_file),
     exists r, process_frame w frame fs = Some r /\
       let decoded := Z.of_nat (length (decoded_prefix fs)) in
       let attempts := count_calls is_decode_attempt (codec_log r.2)
                       - count_calls is_decode_attempt (codec_log w) in
       let saves := count_calls is_save_attempt (codec_log r.2)
                    - count_calls is_save_attempt (codec_log w) in
       let unsaved :=
         if all_decoded fs
         then match chans (decode_files fs no_locals w).1 with
              | [] => 1
              | _ => 0
              end
         else 0 in
       a_progress (run r.2) = to_uint32 (a_progress (run w) + decoded + 1) /\
       decoded + 1 = attempts + saves + unsaved) /\
  (forall (types : TinyexrTypes) (cores : nat) (input : exrtool_input),
     max (exrtool_poll (exrtool_process cores input)).2
     = Z.of_nat (length (files input))
       + Z.of_nat (length (group_files (files input)))) /\
  (forall (types : TinyexrTypes) (codec : Tinyexr)
          (sched : list nat) (w : world),
     max (exrtool_poll (run_schedule sched w)).2 = max (exrtool_poll w).2).
Proof.
  split_and!.
  - intros types codec w frame fs.
    destruct (process_frame_returns w frame fs) as (r & Hr & Hp & _).
    destruct (process_frame_calls w frame fs) as (r' & Hr' & Hd & Hs).
    rewrite Hr in Hr'. injection Hr' as <-.
    exists r. split; [done|]. cbv zeta. split; [done|].
    rewrite Hd, Hs.
    destruct (all_decoded fs); [|lia].
    destruct (chans _); lia.
  - reflexivity.
  - intros types codec sched w.
    destruct (run_schedule_same_setup sched w) as (Hf & _ & Hin).
    unfold exrtool_poll. simpl. now rewrite Hf, Hin.
Qed.

(** C3, as stated, fails on a group that decodes but has no channels: one
    decode attempt and no save attempt, yet the counter goes up by two. *)
Lemma done_units_without_save :
  let fs := [run_file_of (request "c.0002.exr" ["R"])] in
  let w := exrtool_process 1 (single_worker []) in
  exists w',
    process_frame w 2 fs = Some (false, w') /\
    a_progress (run w) = 0 /\
    a_progress (run w') = 2 /\
    count_calls is_decode_attempt (codec_log w') = 1 /\
    count_calls is_save_attempt (codec_log w') = 0 /\
    errors (run w') = [FrameHasNoChannels 2].
Proof.
  eexists. split; [vm_compute; reflexivity|]. vm_compute. done.
Qed.

(** C6.  The frame groups built from the submitted files are ordered by
    strictly ascending frame number, so no number occurs twice; the groups
    are exactly the non-empty buckets of files with equal extracted number,
    each in submission order; and the group of the no-frame value, if there
    is one, is the last.  E.g. a.0001, b.0001, c.0002 give frame 1 with a
    and b, then frame 2 with c. *)
Theorem group_files_buckets_ascending :
  (forall fs : list exrtool_file,
     let groups := group_files fs in
     StronglySorted Z.lt groups.*1 /\
     NoDup groups.*1 /\
     (forall k v, (k, v) ∈ groups <-> v = bucket k fs /\ v <> []) /\
     (forall f, f ∈ fs ->
        exists v, (strip_frame (file_name f), v) ∈ groups /\ run_file_of f ∈ v) /\
     (forall v, (NO_FRAME, v) ∈ groups -> last groups = Some (NO_FRAME, v))) /\
  group_files [request "a.0001.exr" ["R"]; request "b.0001.exr" ["R"];
               request "c.0002.exr" ["Z"]]
  = [(1, [run_file_of (request "a.0001.exr" ["R"]);
          run_file_of (request "b.0001.exr" ["R"])]);
     (2, [run_file_of (request "c.0002.exr" ["Z"])])] /\
  (group_files [request "still.exr" ["R"]; request "a.0001.exr" ["R"]]).*1
  = [1; NO_FRAME].
Proof.
  split_and!; [|reflexivity|reflexivity].
  intros fs groups.
  pose proof (group_files_sorted fs) as Hs. fold groups in Hs.
  assert (Hgroups : forall k v, (k, v) ∈ groups <-> v = bucket k fs /\ v <> []).
  { intros k v. unfold groups. rewrite map_find_elem by done.
    rewrite group_files_find.
    destruct (bucket k fs) as [|rf b]; split.
    - done.
    - now intros [-> ?].
    - now intros [= <-].
    - now intros [-> _]. }
  split_and!; try done.
  - clear -Hs. induction Hs as [|k ks Hs IH Hk]; constructor; [|done].
    intros Hin. rewrite Forall_forall in Hk. apply Hk in Hin. lia.
  - intros f Hf. exists (bucket (strip_frame (file_name f)) fs).
    assert (Hin : run_file_of f ∈ bucket (strip_frame (file_name f)) fs).
    { unfold bucket. apply list_elem_of_fmap_2.
      apply list_elem_of_In, List.filter_In. split; [now apply list_elem_of_In|].
      apply Z.eqb_refl. }
    split; [|done]. apply Hgroups. split; [done|].
    intros Hnil. rewrite Hnil in Hin. now apply not_elem_of_nil in Hin.
  - intros v Hv. apply sorted_last_greatest; try done.
    apply Forall_forall. intros k Hk.
    apply list_elem_of_fmap in Hk as ([k' v'] & -> & Hkv). simpl.
    apply Hgroups in Hkv as [-> Hne].
    destruct (bucket k' fs) as [|rf b] eqn:Hb; [done|].
    destruct (bucket_frames k' fs rf) as (f & _ & <-).
    { rewrite Hb. now left. }
    apply strip_frame_range.
Qed.

(** * The claims about the worker loop *)

(** A run in which nothing fails: one worker takes both frame groups, the
    callback is invoked after each and once at the end. *)
Example single_worker_processes_all :
  let w := run_schedule (replicate 9 0%nat)
             (exrtool_process 1
                (single_worker [request "a.0001.exr" ["R"; "G"];
                                request "c.0002.exr" ["Z"];
                                request "b.0001.exr" ["B"; "R"]])) in
  threads (run w) = [Exited] /\
  errors (run w) = [] /\
  exrtool_poll w = (true, {| done := 5; max := 5 |}) /\
  progress_log w = [(0%nat, Some 0%nat); (0%nat, Some 1%nat); (0%nat, None)].
Proof. vm_compute. split_and!; reflexivity. Qed.

(** With a second worker the failing frame 1 costs one worker only, and the
    other one still takes frame 2: what happens to the other groups depends
    on the number of workers left. *)
Example second_worker_takes_over :
  let w := run_schedule [0; 1; 0; 1; 0; 1; 0; 1; 1; 1; 1]%nat
             (exrtool_process 1
                (pool 2 [request "bad.0001.exr" ["R"];
                         request "c.0002.exr" ["Z"]])) in
  threads (run w) = [Exited; Exited] /\
  errors (run w) = [FailedParseVersion "bad.0001.exr"] /\
  exrtool_poll w = (true, {| done := 3; max := 4 |}) /\
  progress_log w = [(1%nat, Some 1%nat); (0%nat, None); (1%nat, None)].
Proof. vm_compute. split_and!; reflexivity. Qed.

(** C1 is not met by the code: [process_next_frame] returns the result of
    [process_frame], so a worker leaves its loop when a frame group fails.
    With one worker, a first frame group that fails to decode is the last
    one claimed: the cursor never passes 1, and the run completes with the
    error of that group alone, however many groups follow.  On the sample
    disk: the file of frame 1 does not decode, the file of frame 2 would,
    and it is never opened. *)
Theorem failed_group_ends_single_worker :
  (forall (types : TinyexrTypes) (codec : Tinyexr)
          (cores : nat) (request : exrtool_input)
          (frame : Z) (fs : list exrtool_run_file)
          (rest : list (Z * list exrtool_run_file)) (n : nat),
     thread_count cores request = 1%nat ->
     group_files (files request) = (frame, fs) :: rest ->
     all_decoded fs = false ->
     let w := run_schedule (replicate n 0%nat) (exrtool_process cores request) in
     a_frames_started (run w) <= 1 /\
     ((4 <= n)%nat ->
      threads (run w) = [Exited] /\
      (exrtool_poll w).1 = true /\
      errors (run w) = decode_failure fs)) /\
  let w0 := exrtool_process 1
              (single_worker [request "bad.0001.exr" ["R"];
                              request "c.0002.exr" ["Z"]]) in
  (frames (run w0)).*1 = [1; 2] /\
  length (threads (run w0)) = 1%nat /\
  is_Some (decode (run_file_of (request "c.0002.exr" ["Z"]))) /\
  forall n : nat,
    let w := run_schedule (replicate n 0%nat) w0 in
    a_frames_started (run w) <= 1 /\
    (CallParseVersion "c.0002.exr" ∉ codec_log w) /\
    ((4 <= n)%nat ->
     threads (run w) = [Exited] /\
     (exrtool_poll w).1 = true /\
     errors (run w) = [FailedParseVersion "bad.0001.exr"] /\
     codec_log w = [CallParseVersion "bad.0001.exr"]).
Proof.
  split.
  { intros types codec cores req frame fs rest n Hone Hfirst Hfails.
    destruct (single_worker_stops_at_failure cores req frame fs rest
                Hone Hfirst Hfails n) as (Hcur & _ & Hend).
    split; [exact Hcur|]. intros Hn.
    destruct (Hend Hn) as (Ht & _ & _ & He & _ & Hpoll). done. }
  intros w0. split_and!.
  1-2: vm_compute; reflexivity.
  { vm_compute. eexists. reflexivity. }
  intros n.
  assert (Hcases : (n = 0 \/ n = 1 \/ n = 2 \/ n = 3 \/ 4 <= n)%nat) by lia.
  destruct Hcases as [-> | [-> | [-> | [-> | Hn]]]].
  1-4: cbv zeta; split_and!;
    [vm_compute; discriminate
    |vm_compute; intros Hin; repeat (apply elem_of_cons in Hin as [Hin|Hin]; [done|]);
       now apply not_elem_of_nil in Hin
    |lia].
  cbv zeta.
  rewrite run_schedule_settled by first [vm_compute; reflexivity | assumption].
  split_and!.
  - vm_compute. discriminate.
  - vm_compute. intros Hin.
    repeat (apply elem_of_cons in Hin as [Hin|Hin]; [done|]).
    now apply not_elem_of_nil in Hin.
  - intros _. vm_compute. split_and!; reflexivity.
Qed.

(** C2 is not met by the code, by the same return value: the loop body, and
    with it the progress call for the claimed index, runs only when
    [process_frame] succeeded.  A single worker whose first frame group
    fails to decode has claimed the in-bounds index 0, yet it never invokes
    the callback for an index; its only call is the one after the loop,
    made after [a_threads_done] was incremented. *)
Theorem failed_group_not_notified :
  (forall (types : TinyexrTypes) (codec : Tinyexr)
          (cores : nat) (request : exrtool_input)
          (frame : Z) (fs : list exrtool_run_file)
          (rest : list (Z * list exrtool_run_file)) (n : nat),
     thread_count cores request = 1%nat ->
     group_files (files request) = (frame, fs) :: rest ->
     all_decoded fs = false ->
     progress_fn request = true ->
     let w := run_schedule (replicate n 0%nat) (exrtool_process cores request) in
     (forall ix, (0%nat, Some ix) ∉ progress_log w) /\
     ((4 <= n)%nat ->
      a_frames_started (run w) = 1 /\
      a_threads_done (run w) = 1 /\
      progress_log w = [(0%nat, None)])) /\
  let w0 := exrtool_process 1 (single_worker [request "bad.0001.exr" ["R"]]) in
  length (frames (run w0)) = 1%nat /\
  progress_fn (input (run w0)) = true /\
  threads (run (step 0 w0)) = [Processing 0] /\
  forall n : nat,
    let w := run_schedule (replicate n 0%nat) w0 in
    ((0%nat, Some 0%nat) ∉ progress_log w) /\
    ((4 <= n)%nat ->
     threads (run w) = [Exited] /\
     a_threads_done (run w) = 1 /\
     progress_log w = [(0%nat, None)]).
Proof.
  split.
  { intros types codec cores req frame fs rest n Hone Hfirst Hfails Hfn.
    destruct (single_worker_stops_at_failure cores req frame fs rest
                Hone Hfirst Hfails n) as (_ & Hnone & Hend).
    split; [exact Hnone|]. intros Hn.
    destruct (Hend Hn) as (_ & Hs & Hd & _ & Hlog & _).
    rewrite Hfn in Hlog. done. }
  intros w0. split_and!.
  1-3: vm_compute; reflexivity.
  intros n.
  assert (Hcases : (n = 0 \/ n = 1 \/ n = 2 \/ n = 3 \/ 4 <= n)%nat) by lia.
  destruct Hcases as [-> | [-> | [-> | [-> | Hn]]]].
  1-4: cbv zeta; split_and!;
    [vm_compute; intros Hin; repeat (apply elem_of_cons in Hin as [Hin|Hin]; [done|]);
       now apply not_elem_of_nil in Hin
    |lia].
  cbv zeta.
  rewrite run_schedule_settled by first [vm_compute; reflexivity | assumption].
  split_and!.
  - vm_compute. intros Hin.
    repeat (apply elem_of_cons in Hin as [Hin|Hin]; [done|]).
    now apply not_elem_of_nil in Hin.
  - intros _. vm_compute. split_and!; reflexivity.
Qed.

(** * Further properties of the code *)

(** ** Output names and frame numbers *)

Lemma decimal_from_zeros k acc :
  decimal_from acc (replicate k "0"%char) = acc * 10 ^ Z.of_nat k.
Proof.
  revert acc. induction k as [|k IH]; intros acc.
  - simpl. lia.
  - simpl replicate. unfold decimal_from in *. simpl foldl. rewrite IH.
    change (digit_val "0") with 0.
    rewrite Nat2Z.inj_succ, Z.pow_succ_r by lia. lia.
Qed.

Lemma decimal_zero_pad n ds : decimal (zero_pad n ds) = decimal ds.
Proof.
  unfold decimal, zero_pad. now rewrite decimal_from_app, decimal_from_zeros.
Qed.

Lemma zero_pad_digits n ds : Forall is_digit ds -> Forall is_digit (zero_pad n ds).
Proof.
  intros Hds. unfold zero_pad. apply Forall_app. split; [|done].
  now apply Forall_replicate.
Qed.

Lemma zero_pad_nonempty n ds : ds <> [] -> zero_pad n ds <> [].
Proof.
  intros Hne Hnil. unfold zero_pad in Hnil. now apply app_eq_nil in Hnil as [_ ?].
Qed.

(** X1.  The name written for a frame is read back as that frame: when the
    template's run of ['#'] has at most 31 characters, is not preceded by
    a digit and is followed by no digit, [strip_frame] of the output name
    of a frame below [~0u] is that frame. *)
Theorem strip_frame_output_path template pre n suf frame :
  rightmost_hash_run (String.list_ascii_of_string template) pre n suf ->
  (n <= 31)%nat ->
  Forall non_digit suf ->
  (pre = [] \/ exists pre' c, pre = pre' ++ [c] /\ non_digit c) ->
  0 <= frame < 2 ^ 32 - 1 ->
  strip_frame (output_path template frame) = frame.
Proof.
  intros Hrun Hn Hsuf Hpre Hframe.
  destruct (utoa_digits frame) as (Hds & Hval & Hlen); [lia|].
  rewrite (output_path_run template pre n suf frame)
    by (try done; unfold NO_FRAME; lia).
  rewrite (strip_frame_run_small _ pre (zero_pad n (utoa frame)) suf).
  - rewrite decimal_zero_pad, Hval. apply to_uint32_small. lia.
  - rewrite String.list_ascii_of_string_of_list_ascii.
    unfold rightmost_run. split_and!; try done.
    + apply zero_pad_nonempty. intros Hnil. rewrite Hnil in Hlen. simpl in Hlen. lia.
    + now apply zero_pad_digits.
  - rewrite decimal_zero_pad, Hval. lia.
Qed.

Lemma strip_frame_output_path_witness :
  strip_frame (output_path "out.####.exr" 7) = 7.
Proof.
  apply (strip_frame_output_path "out.####.exr"
           (String.list_ascii_of_string "out.") 4%nat
           (String.list_ascii_of_string ".exr") 7).
  - unfold rightmost_hash_run. split_and!.
    + reflexivity.
    + lia.
    + repeat constructor.
    + right. exists (String.list_ascii_of_string "out"), "."%char.
      split; reflexivity.
  - lia.
  - repeat constructor.
  - right. exists (String.list_ascii_of_string "out"), "."%char.
    split; reflexivity.
  - lia.
Defined.

(** X2.  Two different frames below [~0u] never get the same output name
    from a template whose run of ['#'] has at most 31 characters, whatever
    stands before and after the run. *)
Theorem output_path_injective template pre n suf frame1 frame2 :
  rightmost_hash_run (String.list_ascii_of_string template) pre n suf ->
  (n <= 31)%nat ->
  0 <= frame1 < 2 ^ 32 - 1 -> 0 <= frame2 < 2 ^ 32 - 1 ->
  frame1 <> frame2 ->
  output_path template frame1 <> output_path template frame2.
Proof.
  intros Hrun Hn H1 H2 Hne Heq. apply Hne.
  destruct (utoa_digits frame1) as (_ & Hval1 & _); [lia|].
  destruct (utoa_digits frame2) as (_ & Hval2 & _); [lia|].
  rewrite (output_path_run template pre n suf frame1) in Heq
    by (try done; unfold NO_FRAME; lia).
  rewrite (output_path_run template pre n suf frame2) in Heq
    by (try done; unfold NO_FRAME; lia).
  apply (f_equal String.list_ascii_of_string) in Heq.
  rewrite !String.list_ascii_of_string_of_list_ascii in Heq.
  apply app_inv_head, app_inv_tail in Heq.
  apply (f_equal decimal) in Heq. rewrite !decimal_zero_pad in Heq. lia.
Qed.

Lemma output_path_injective_witness :
  7 <> 1007 /\ output_path "f_##.exr" 7 <> output_path "f_##.exr" 1007.
Proof.
  split; [lia|].
  apply (output_path_injective "f_##.exr"
           (String.list_ascii_of_string "f_") 2%nat
           (String.list_ascii_of_string ".exr") 7 1007).
  - unfold rightmost_hash_run. split_and!.
    + reflexivity.
    + lia.
    + repeat constructor.
    + right. exists (String.list_ascii_of_string "f"), "_"%char.
      split; reflexivity.
  - lia.
  - lia.
  - lia.
  - lia.
Defined.

(** ** More on the merged table and on [process_frame] *)

Section MergeMore.
Context `{Tinyexr}.

Lemma last_write_member n ws x :
  last_write n ws = Some x -> x ∈ ws /\ chan_name x.1 = n.
Proof.
  induction ws as [|w ws IH]; [done|]. simpl.
  destruct (last_write n ws) as [y|].
  - intros [= ->]. destruct (IH eq_refl) as [Hin Hn]. split; [now right|done].
  - destruct (String.eqb_spec (chan_name w.1) n) as [Hn|]; [|done].
    intros [= <-]. split; [now left|done].
Qed.

Lemma last_write_found n ws w :
  w ∈ ws -> chan_name w.1 = n -> is_Some (last_write n ws).
Proof.
  intros Hin Hn. induction ws as [|w' ws IH]; [now apply not_elem_of_nil in Hin|].
  simpl. destruct (last_write n ws) as [y|] eqn:Hl; [done|].
  apply elem_of_cons in Hin as [<- | Hin].
  - rewrite Hn, String.eqb_refl. done.
  - destruct (IH Hin) as [? ?]. done.
Qed.

Lemma table_find_member n cs : forall ds c d,
  table_find n cs ds = Some (c, d) -> chan_name c = n /\ c ∈ cs.
Proof.
  induction cs as [|c' cs IH]; intros [|d' ds] c d; simpl; try done.
  destruct (String.eqb_spec (chan_name c') n) as [Hn|].
  - intros [= <- <-]. split; [done|now left].
  - intros Hf. destruct (IH _ _ _ Hf). split; [done|now right].
Qed.

Lemma table_find_present n cs : forall ds,
  length ds = length cs -> n ∈ chan_name <$> cs -> is_Some (table_find n cs ds).
Proof.
  induction cs as [|c cs IH]; intros [|d ds] Hlen Hin; simpl in *; try done.
  - now apply not_elem_of_nil in Hin.
  - destruct (String.eqb_spec (chan_name c) n) as [|Hne]; [done|].
    apply elem_of_cons in Hin as [Hn | Hin]; [congruence|].
    apply IH; [lia|done].
Qed.

(** In a table with unique names, the entry found under the name of the
    channel at an index is the pair at that index. *)
Lemma table_find_at cs : forall ds i c d,
  NoDup (chan_name <$> cs) ->
  cs !! i = Some c -> ds !! i = Some d ->
  table_find (chan_name c) cs ds = Some (c, d).
Proof.
  induction cs as [|c' cs IH]; intros [|d' ds] i c d Hnd Hc Hd; try done.
  apply NoDup_cons in Hnd as [Hc' Hnd]. destruct i as [|i]; simpl in *.
  - injection Hc as ->. injection Hd as ->. now rewrite String.eqb_refl.
  - destruct (String.eqb_spec (chan_name c') (chan_name c)) as [Heq|_].
    + exfalso. apply Hc'. rewrite Heq. apply list_elem_of_fmap_2.
      eapply list_elem_of_lookup_2. exact Hc.
    + now apply (IH ds i).
Qed.

Lemma frame_errors_short w frame fs : (length (frame_errors w frame fs) <= 1)%nat.
Proof.
  unfold frame_errors. destruct (all_decoded fs).
  - destruct (chans _); [simpl; lia|].
    destruct (headers _); [simpl; lia|]. destruct (images _); [simpl; lia|].
    destruct (SaveEXRImageToFile _ _ _); simpl; lia.
  - induction fs as [|file rest IH]; simpl; [lia|].
    destruct (ParseEXRVersionFromFile (name file)) as [version|]; [|simpl; lia].
    destruct (ParseEXRHeaderFromFile version (name file)) as [header|err];
      [|simpl; lia].
    destruct (LoadEXRImageFromFile header (name file)) as [image|err];
      [done|simpl; lia].
Qed.

Lemma frame_errors_none w frame fs :
  frame_errors w frame fs = [] ->
  all_decoded fs = true /\ chans (decode_files fs no_locals w).1 <> [].
Proof.
  unfold frame_errors. destruct (all_decoded fs) eqn:Hall.
  - destruct (chans _); [done|]. done.
  - intros Hnil. now apply decode_failure_nonempty in Hall.
Qed.

End MergeMore.

(** X3.  The merged table of a frame group holds exactly the channel names
    that its decoded files supply among the requested ones, and channels
    and planes stay aligned: the plane at an index is the one that was
    supplied together with the channel at that index. *)
Theorem merged_table_aligned :
  forall (types : TinyexrTypes) (codec : Tinyexr)
         (fs : list exrtool_run_file) (w : world),
    let loc := (decode_files fs no_locals w).1 in
    (forall n, n ∈ chan_name <$> chans loc <->
               exists wr, wr ∈ group_writes fs /\ chan_name wr.1 = n) /\
    (forall i c d, chans loc !! i = Some c -> datas loc !! i = Some d ->
                   (c, d) ∈ group_writes fs).
Proof.
  intros types codec fs w loc.
  destruct (decode_files_locals fs no_locals w) as (_ & _ & Hc & _).
  fold loc in Hc. simpl in Hc.
  assert (Hempty : table_ok (([] : list EXRChannelInfo), ([] : list Plane))).
  { split; [done|constructor]. }
  assert (Hok : table_ok (chans loc, datas loc)).
  { rewrite Hc. now apply merge_all_ok. }
  destruct Hok as [Hlen Hs]. simpl in Hlen, Hs.
  assert (Hfind : forall n, table_find n (chans loc) (datas loc)
                            = last_write n (group_writes fs)).
  { intros n. pose proof (merge_all_find n (group_writes fs) ([], []) Hempty) as Hf.
    rewrite <- Hc in Hf. simpl in Hf. rewrite Hf.
    now destruct (last_write n (group_writes fs)). }
  split.
  - intros n. split.
    + intros Hin. destruct (table_find_present n _ _ Hlen Hin) as [[c d] Hf].
      rewrite Hfind in Hf. exists (c, d). now apply last_write_member in Hf.
    + intros (wr & Hin & Hn).
      destruct (last_write_found n _ wr Hin Hn) as [[c d] Hl].
      rewrite <- Hfind in Hl. apply table_find_member in Hl as [<- Hcin].
      now apply list_elem_of_fmap_2.
  - intros i c d Hci Hdi.
    pose proof (table_find_at _ _ i c d (sorted_names_NoDup _ Hs) Hci Hdi) as Hf.
    rewrite Hfind in Hf. now apply last_write_member in Hf.
Qed.

(** X4.  [process_frame] always returns; it records at most one error, and
    it returns [true] exactly when it recorded none.  It returns [true]
    only after it handed a composite to [SaveEXRImageToFile], once. *)
Theorem process_frame_verdict :
  forall (types : TinyexrTypes) (codec : Tinyexr)
         (w : world) (frame : Z) (fs : list exrtool_run_file),
    exists r es,
      process_frame w frame fs = Some r /\
      errors (run r.2) = errors (run w) ++ es /\
      (length es <= 1)%nat /\
      (r.1 = true <-> es = []) /\
      (r.1 = true ->
       count_calls is_save_attempt (codec_log r.2)
       = count_calls is_save_attempt (codec_log w) + 1).
Proof.
  intros types codec w frame fs.
  destruct (process_frame_returns w frame fs) as (r & Hr & _ & He & Hb & _).
  destruct (process_frame_calls w frame fs) as (r' & Hr' & _ & Hs).
  rewrite Hr in Hr'. injection Hr' as <-.
  exists r, (frame_errors w frame fs). split_and!; try done.
  - apply frame_errors_short.
  - rewrite Hb. now destruct (frame_errors w frame fs).
  - rewrite Hb. intros Htrue.
    destruct (frame_errors w frame fs) eqn:Hfe; [|done].
    apply frame_errors_none in Hfe as [Hall Hne].
    rewrite Hs, Hall. now destruct (chans _).
Qed.

(** ** What every state of a run satisfies *)

Section RunBasics.
Context `{Tinyexr}.

Lemma sum_over_cons {A} (f : A -> Z) x l :
  sum_over f (x :: l) = f x + sum_over f l.
Proof. reflexivity. Qed.

Lemma sum_over_app {A} (f : A -> Z) l1 l2 :
  sum_over f (l1 ++ l2) = sum_over f l1 + sum_over f l2.
Proof. induction l1 as [|x l1 IH]; simpl; [done|]. rewrite IH. lia. Qed.

Lemma sum_over_nonneg {A} (f : A -> Z) l :
  (forall x, 0 <= f x) -> 0 <= sum_over f l.
Proof.
  intros Hf. induction l as [|x l IH]; simpl; [done|]. specialize (Hf x). lia.
Qed.

Lemma sum_over_le {A} (f g : A -> Z) l :
  (forall x, f x <= g x) -> sum_over f l <= sum_over g l.
Proof.
  intros Hfg. induction l as [|x l IH]; simpl; [done|]. specialize (Hfg x). lia.
Qed.

Lemma count_workers_bounds p ts :
  0 <= count_workers p ts <= Z.of_nat (length ts).
Proof.
  unfold count_workers. induction ts as [|s ts IH]; simpl; [lia|].
  destruct (p s); lia.
Qed.

Lemma count_workers_all p ts :
  count_workers p ts = Z.of_nat (length ts) <-> Forall (fun s => p s = true) ts.
Proof.
  unfold count_workers. induction ts as [|s ts IH]; simpl.
  - split; [constructor|done].
  - pose proof (count_workers_bounds p ts) as Hb. unfold count_workers in Hb.
    rewrite Forall_cons. destruct (p s); split.
    + intros Hc. split; [done|]. apply IH. lia.
    + intros [_ Hall]. apply IH in Hall. lia.
    + lia.
    + now intros [? _].
Qed.

Lemma group_units_pos g : 1 <= group_units g.
Proof. unfold group_units. lia. Qed.

Lemma pending_units_nonneg fr s : 0 <= pending_units fr s.
Proof.
  destruct s; simpl; try lia.
  destruct (fr !! ix) as [g|]; [|lia]. pose proof (group_units_pos g). lia.
Qed.

(** The worker list around one worker. *)
Lemma split_worker (ts : list worker) tid s :
  ts !! tid = Some s ->
  exists l1 l2, ts = l1 ++ s :: l2 /\
                forall s', <[tid := s']> ts = l1 ++ s' :: l2.
Proof.
  intros Hs. apply list_elem_of_split_length in Hs as (l1 & l2 & -> & ->).
  exists l1, l2. split; [done|]. intros s'.
  rewrite insert_app_r_alt by lia. now rewrite Nat.sub_diag.
Qed.

Lemma claimed_of_le c fr : (claimed_of c fr <= length fr)%nat.
Proof. unfold claimed_of. lia. Qed.

Lemma claimed_of_past c fr :
  Z.of_nat (length fr) <= c ->
  claimed_of (c + 1) fr = claimed_of c fr /\ claimed_of c fr = length fr.
Proof. unfold claimed_of. lia. Qed.

Lemma claimed_of_next c fr :
  0 <= c < Z.of_nat (length fr) ->
  claimed_of c fr = Z.to_nat c /\ claimed_of (c + 1) fr = S (Z.to_nat c).
Proof. unfold claimed_of. lia. Qed.

Lemma units_take_S fr k g :
  fr !! k = Some g ->
  sum_over group_units (take (S k) fr)
  = sum_over group_units (take k fr) + group_units g.
Proof.
  intros Hg. rewrite (take_S_r _ _ _ Hg), sum_over_app. simpl. lia.
Qed.

Lemma units_take_le fr k :
  sum_over group_units (take k fr) <= sum_over group_units fr.
Proof.
  rewrite <- (take_drop k fr) at 2. rewrite sum_over_app.
  pose proof (sum_over_nonneg group_units (drop k fr)) as Hd.
  assert (0 <= sum_over group_units (drop k fr)).
  { apply Hd. intros g. pose proof (group_units_pos g). lia. }
  lia.
Qed.

(** Grouping neither drops nor repeats a file. *)
Lemma map_push_back_size k rf m :
  sum_over (fun g : Z * list exrtool_run_file => Z.of_nat (length g.2))
           (map_push_back k rf m)
  = sum_over (fun g : Z * list exrtool_run_file => Z.of_nat (length g.2)) m + 1.
Proof.
  induction m as [|[k0 v] m IH]; simpl; [lia|].
  destruct (k <? k0); [simpl; lia|].
  destruct (k =? k0); simpl.
  - rewrite length_app. simpl. lia.
  - rewrite IH. lia.
Qed.

Lemma group_files_size fs :
  sum_over (fun g : Z * list exrtool_run_file => Z.of_nat (length g.2))
           (group_files fs)
  = Z.of_nat (length fs).
Proof.
  induction fs as [|f fs IH] using rev_ind; [done|].
  rewrite group_files_snoc, map_push_back_size, IH, length_app. simpl. lia.
Qed.

(** All the units a run can make: at most [num_files + frames.size()]. *)
Lemma units_total fs :
  sum_over group_units (group_files fs)
  <= Z.of_nat (length fs) + Z.of_nat (length (group_files fs)).
Proof.
  rewrite <- group_files_size.
  generalize (group_files fs) as fr. intros fr.
  induction fr as [|[k v] fr IH]; [simpl; lia|].
  pose proof (decoded_prefix_length v).
  rewrite !sum_over_cons, length_cons. unfold group_units at 1. simpl snd.
  lia.
Qed.



End RunBasics.

Section RunSteps.
Context `{Tinyexr}.

(** *** What one action changes *)

Lemma step_claiming tid w :
  threads (run w) !! tid = Some Claiming ->
  step_to w (step tid w)
    (to_uint32 (a_frames_started (run w) + 1))
    (a_progress (run w)) (a_threads_done (run w))
    (<[tid := if Z.of_nat (length (frames (run w))) <=? a_frames_started (run w)
              then Finishing
              else Processing (Z.to_nat (a_frames_started (run w)))]>
       (threads (run w)))
    (errors (run w)).
Proof.
  intros Hs. unfold step, step_to. rewrite Hs. simpl.
  destruct (_ <=? _); simpl; done.
Qed.

Lemma step_processing tid w ix g :
  threads (run w) !! tid = Some (Processing ix) ->
  frames (run w) !! ix = Some g ->
  exists es,
    (length es <= 1)%nat /\
    (es = [] -> all_decoded g.2 = true) /\
    step_to w (step tid w)
      (a_frames_started (run w))
      (to_uint32 (a_progress (run w) + group_units g))
      (a_threads_done (run w))
      (<[tid := match es with [] => Notifying ix | _ => Finishing end]>
         (threads (run w)))
      (errors (run w) ++ es).
Proof.
  intros Hs Hg. destruct g as [frame fs].
  destruct (process_frame_returns w frame fs)
    as ([b w'] & Hr & Hp & He & Hb & (Hf & _ & Hin) & _ & Ht & Hc & Hd).
  simpl in *.
  exists (frame_errors w frame fs). split; [apply frame_errors_short|].
  split; [intros Hnil; now apply frame_errors_none in Hnil|].
  unfold step, step_to. rewrite Hs, Hg, Hr. unfold group_units. simpl.
  rewrite Z.add_assoc in *.
  subst b. destruct (frame_errors w frame fs); simpl;
    rewrite Hf, Hin, Hc, Hp, Hd, Ht, He; done.
Qed.

Lemma step_notifying tid w ix :
  threads (run w) !! tid = Some (Notifying ix) ->
  step_to w (step tid w)
    (a_frames_started (run w)) (a_progress (run w)) (a_threads_done (run w))
    (<[tid := Claiming]> (threads (run w))) (errors (run w)).
Proof.
  intros Hs. unfold step, step_to, notify. rewrite Hs.
  destruct (progress_fn _); simpl; done.
Qed.

Lemma step_finishing tid w :
  threads (run w) !! tid = Some Finishing ->
  step_to w (step tid w)
    (a_frames_started (run w)) (a_progress (run w))
    (to_uint32 (a_threads_done (run w) + 1))
    (<[tid := FinalNotify]> (threads (run w))) (errors (run w)).
Proof. intros Hs. unfold step, step_to. rewrite Hs. simpl. done. Qed.

Lemma step_final tid w :
  threads (run w) !! tid = Some FinalNotify ->
  step_to w (step tid w)
    (a_frames_started (run w)) (a_progress (run w)) (a_threads_done (run w))
    (<[tid := Exited]> (threads (run w))) (errors (run w)).
Proof.
  intros Hs. unfold step, step_to, notify. rewrite Hs.
  destruct (progress_fn _); simpl; done.
Qed.

Lemma step_idle tid w :
  threads (run w) !! tid = None \/ threads (run w) !! tid = Some Exited \/
  threads (run w) !! tid = Some Faulted ->
  step tid w = w.
Proof. unfold step. intros [-> | [-> | ->]]; done. Qed.

End RunSteps.

Section RunCounters.
Context `{Tinyexr}.

Implicit Types (fr : list (Z * list exrtool_run_file)) (ts : list worker).

Lemma count_workers_app p (l1 l2 : list worker) :
  count_workers p (l1 ++ l2) = count_workers p l1 + count_workers p l2.
Proof. apply sum_over_app. Qed.

Lemma count_workers_cons p s (l : list worker) :
  count_workers p (s :: l) = (if p s then 1 else 0) + count_workers p l.
Proof. reflexivity. Qed.

Lemma holds_cons s (l : list worker) :
  omap holds (s :: l)
  = match holds s with Some ix => ix :: omap holds l | None => omap holds l end.
Proof. reflexivity. Qed.

Lemma holder_stays (l1 l2 : list worker) s s' tid i :
  (l1 ++ s :: l2) !! tid = Some (Processing i) ->
  s <> Processing i ->
  (l1 ++ s' :: l2) !! tid = Some (Processing i).
Proof.
  intros Hl Hs.
  destruct (Nat.lt_trichotomy tid (length l1)) as [Hlt | [-> | Hgt]].
  - rewrite lookup_app_l in * by done. done.
  - rewrite list_lookup_middle in Hl by done. congruence.
  - rewrite lookup_app_r in * by lia.
    destruct (tid - length l1)%nat as [|k] eqn:Hk; [lia|]. done.
Qed.

(** Replacing a worker that holds nothing, or letting go of an index. *)
Lemma holds_distinct_drop (l1 l2 : list worker) s s' :
  NoDup (omap holds (l1 ++ s :: l2)) ->
  holds s' = None \/ holds s' = holds s ->
  NoDup (omap holds (l1 ++ s' :: l2)).
Proof.
  rewrite !omap_app, !holds_cons. intros Hnd [Hs' | Hs']; rewrite Hs'; [|done].
  destruct (holds s) as [ix|]; [|done].
  apply NoDup_app in Hnd as (H1 & H2 & H3). apply NoDup_cons in H3 as [_ H3].
  apply NoDup_app. split_and!; try done.
  intros x Hx Hx'. apply (H2 x Hx). now right.
Qed.

Lemma holds_bound_replace (bound bound' : nat) (l1 l2 : list worker) s s' :
  Forall (fun s => s <> Faulted /\ forall ix, holds s = Some ix -> (ix < bound)%nat)
         (l1 ++ s :: l2) ->
  (bound <= bound')%nat ->
  s' <> Faulted -> (forall ix, holds s' = Some ix -> (ix < bound')%nat) ->
  Forall (fun s => s <> Faulted /\ forall ix, holds s = Some ix -> (ix < bound')%nat)
         (l1 ++ s' :: l2).
Proof.
  intros Hall Hle Hf Hs'.
  assert (Himpl : forall l,
    Forall (fun s => s <> Faulted /\ forall ix, holds s = Some ix -> (ix < bound)%nat) l ->
    Forall (fun s => s <> Faulted /\ forall ix, holds s = Some ix -> (ix < bound')%nat) l).
  { intros l Hl. eapply Forall_impl; [exact Hl|]. intros x [Hx1 Hx2]. split; [done|].
    intros ix Hix. specialize (Hx2 ix Hix). lia. }
  apply Forall_app in Hall as [H1 H2]. apply Forall_cons in H2 as [_ H2].
  apply Forall_app. split; [now apply Himpl|].
  apply Forall_cons. split; [done|now apply Himpl].
Qed.

(** *** The invariant under each action *)

Lemma counters_claim_past fr c a d ts errs tid :
  counters_ok fr c a d ts errs ->
  ts !! tid = Some Claiming ->
  Z.of_nat (length fr) <= c ->
  counters_ok fr (c + 1) a d (<[tid := Finishing]> ts) errs.
Proof.
  intros [Hc Hh Hnd [Ha Hp] Hd He Hdec] Hs Hpast.
  apply split_worker in Hs as (l1 & l2 & -> & Hins). rewrite Hins. clear Hins.
  destruct (claimed_of_past c fr Hpast) as [Hcl HclL].
  rewrite count_workers_app, count_workers_cons in *.
  rewrite sum_over_app, sum_over_cons in Hp. simpl in Hc, Hp, He, Hd.
  constructor; rewrite ?Hcl.
  - rewrite count_workers_app, count_workers_cons. simpl. lia.
  - eapply holds_bound_replace; [exact Hh|lia|done|done].
  - eapply holds_distinct_drop; [exact Hnd|now left].
  - split; [done|]. rewrite sum_over_app, sum_over_cons. simpl. exact Hp.
  - rewrite count_workers_app, count_workers_cons. simpl. exact Hd.
  - rewrite count_workers_app, count_workers_cons. simpl. lia.
  - intros Hnil i g Hg Hi. destruct (Hdec Hnil i g Hg Hi) as [[tid' Ht] | Hall];
      [left|now right].
    exists tid'. eapply holder_stays; [exact Ht|done].
Qed.

Lemma counters_claim_next fr c a d ts errs tid :
  counters_ok fr c a d ts errs ->
  ts !! tid = Some Claiming ->
  c < Z.of_nat (length fr) ->
  counters_ok fr (c + 1) a d (<[tid := Processing (Z.to_nat c)]> ts) errs.
Proof.
  intros [Hc Hh Hnd [Ha Hp] Hd He Hdec] Hs Hnext.
  pose proof Hs as Htid.
  apply split_worker in Hs as (l1 & l2 & -> & Hins). rewrite Hins.
  destruct (claimed_of_next c fr) as [Hcl Hcl']; [lia|].
  destruct (lookup_lt_is_Some_2 fr (Z.to_nat c)) as [g Hg]; [lia|].
  rewrite count_workers_app, count_workers_cons in *.
  rewrite sum_over_app, sum_over_cons in Hp. simpl in Hc, Hp, He, Hd.
  constructor; rewrite ?Hcl'.
  - rewrite count_workers_app, count_workers_cons. simpl.
    pose proof (count_workers_bounds left_loop l1).
    pose proof (count_workers_bounds left_loop l2). lia.
  - eapply holds_bound_replace; [exact Hh|lia|done|].
    simpl. intros ix [= <-]. lia.
  - rewrite omap_app, holds_cons in *. simpl in *.
    apply NoDup_app in Hnd as (H1 & H2 & H3).
    assert (Hfresh : forall l, Forall (fun s => s <> Faulted /\
                forall ix, holds s = Some ix -> (ix < claimed_of c fr)%nat) l ->
              Z.to_nat c ∉ omap holds l).
    { intros l Hl Hin. apply list_elem_of_omap in Hin as (s & Hsl & Hhs).
      rewrite Forall_forall in Hl. destruct (Hl s Hsl) as [_ Hb].
      specialize (Hb _ Hhs). lia. }
    apply Forall_app in Hh as [Hh1 Hh2]. apply Forall_cons in Hh2 as [_ Hh2].
    apply NoDup_app. split_and!; try done.
    + intros x Hx Hx'. apply elem_of_cons in Hx' as [-> | Hx'].
      * now apply (Hfresh l1).
      * now apply (H2 x).
    + apply NoDup_cons. split; [now apply Hfresh|done].
  - split; [done|]. rewrite sum_over_app, sum_over_cons. simpl. rewrite Hg.
    rewrite (units_take_S _ _ _ Hg). rewrite Hcl in Hp. lia.
  - rewrite count_workers_app, count_workers_cons. simpl. exact Hd.
  - rewrite count_workers_app, count_workers_cons. simpl. lia.
  - intros Hnil i g' Hg' Hi.
    destruct (decide (i = Z.to_nat c)) as [-> | Hne].
    + left. exists tid. rewrite <- Hins.
      apply list_lookup_insert_eq. eapply lookup_lt_Some. exact Htid.
    + destruct (Hdec Hnil i g' Hg') as [[tid' Ht] | Hall]; [lia|left|now right].
      exists tid'. eapply holder_stays; [exact Ht|done].
Qed.

Lemma counters_process fr c a d ts errs tid ix g es :
  counters_ok fr c a d ts errs ->
  ts !! tid = Some (Processing ix) ->
  fr !! ix = Some g ->
  (length es <= 1)%nat ->
  (es = [] -> all_decoded g.2 = true) ->
  counters_ok fr c (a + group_units g) d
    (<[tid := match es with [] => Notifying ix | _ => Finishing end]> ts)
    (errs ++ es).
Proof.
  intros [Hc Hh Hnd [Ha Hp] Hd He Hdec] Hs Hg Hlen Hes.
  apply split_worker in Hs as (l1 & l2 & -> & Hins). rewrite Hins. clear Hins.
  pose proof (group_units_pos g) as Hpos.
  rewrite count_workers_app, count_workers_cons in *.
  rewrite sum_over_app, sum_over_cons in Hp. simpl in Hc, Hp, He, Hd.
  rewrite Hg in Hp.
  constructor.
  - rewrite count_workers_app, count_workers_cons.
    destruct es; simpl; lia.
  - eapply holds_bound_replace; [exact Hh|lia|now destruct es|].
    intros ix' Hix'. apply Forall_app in Hh as [_ Hh2].
    apply Forall_cons in Hh2 as [[_ Hb] _].
    destruct es; simpl in Hix'; [|done]. injection Hix' as <-. now apply Hb.
  - eapply holds_distinct_drop; [exact Hnd|]. destruct es; [now right|now left].
  - split; [lia|]. rewrite sum_over_app, sum_over_cons.
    destruct es; simpl; lia.
  - rewrite count_workers_app, count_workers_cons. destruct es; simpl; exact Hd.
  - rewrite count_workers_app, count_workers_cons, length_app.
    destruct es as [|e [|e' es]]; simpl in *; lia.
  - intros Hnil i g' Hg' Hi. apply app_eq_nil in Hnil as [Hnil ->].
    destruct (decide (i = ix)) as [-> | Hne].
    + right. rewrite Hg in Hg'. injection Hg' as <-. now apply Hes.
    + destruct (Hdec Hnil i g' Hg' Hi) as [[tid' Ht] | Hall]; [left|now right].
      exists tid'. eapply holder_stays; [exact Ht|]. congruence.
Qed.

Lemma counters_notify fr c a d ts errs tid ix :
  counters_ok fr c a d ts errs ->
  ts !! tid = Some (Notifying ix) ->
  counters_ok fr c a d (<[tid := Claiming]> ts) errs.
Proof.
  intros [Hc Hh Hnd [Ha Hp] Hd He Hdec] Hs.
  apply split_worker in Hs as (l1 & l2 & -> & Hins). rewrite Hins. clear Hins.
  rewrite count_workers_app, count_workers_cons in *.
  rewrite sum_over_app, sum_over_cons in Hp. simpl in Hc, Hp, He, Hd.
  constructor.
  - rewrite count_workers_app, count_workers_cons. simpl. lia.
  - eapply holds_bound_replace; [exact Hh|lia|done|done].
  - eapply holds_distinct_drop; [exact Hnd|now left].
  - split; [done|]. rewrite sum_over_app, sum_over_cons. simpl. exact Hp.
  - rewrite count_workers_app, count_workers_cons. simpl. exact Hd.
  - rewrite count_workers_app, count_workers_cons. simpl. lia.
  - intros Hnil i g Hg Hi. destruct (Hdec Hnil i g Hg Hi) as [[tid' Ht] | Hall];
      [left|now right].
    exists tid'. eapply holder_stays; [exact Ht|done].
Qed.

Lemma counters_finish fr c a d ts errs tid :
  counters_ok fr c a d ts errs ->
  ts !! tid = Some Finishing ->
  counters_ok fr c a (d + 1) (<[tid := FinalNotify]> ts) errs.
Proof.
  intros [Hc Hh Hnd [Ha Hp] Hd He Hdec] Hs.
  apply split_worker in Hs as (l1 & l2 & -> & Hins). rewrite Hins. clear Hins.
  rewrite count_workers_app, count_workers_cons in *.
  rewrite sum_over_app, sum_over_cons in Hp. simpl in Hc, Hp, He, Hd.
  constructor.
  - rewrite count_workers_app, count_workers_cons. simpl. lia.
  - eapply holds_bound_replace; [exact Hh|lia|done|done].
  - eapply holds_distinct_drop; [exact Hnd|now left].
  - split; [done|]. rewrite sum_over_app, sum_over_cons. simpl. exact Hp.
  - rewrite count_workers_app, count_workers_cons. simpl. lia.
  - rewrite count_workers_app, count_workers_cons. simpl. lia.
  - intros Hnil i g Hg Hi. destruct (Hdec Hnil i g Hg Hi) as [[tid' Ht] | Hall];
      [left|now right].
    exists tid'. eapply holder_stays; [exact Ht|done].
Qed.

Lemma counters_final fr c a d ts errs tid :
  counters_ok fr c a d ts errs ->
  ts !! tid = Some FinalNotify ->
  counters_ok fr c a d (<[tid := Exited]> ts) errs.
Proof.
  intros [Hc Hh Hnd [Ha Hp] Hd He Hdec] Hs.
  apply split_worker in Hs as (l1 & l2 & -> & Hins). rewrite Hins. clear Hins.
  rewrite count_workers_app, count_workers_cons in *.
  rewrite sum_over_app, sum_over_cons in Hp. simpl in Hc, Hp, He, Hd.
  constructor.
  - rewrite count_workers_app, count_workers_cons. simpl. lia.
  - eapply holds_bound_replace; [exact Hh|lia|done|done].
  - eapply holds_distinct_drop; [exact Hnd|now left].
  - split; [done|]. rewrite sum_over_app, sum_over_cons. simpl. exact Hp.
  - rewrite count_workers_app, count_workers_cons. simpl. exact Hd.
  - rewrite count_workers_app, count_workers_cons. simpl. lia.
  - intros Hnil i g Hg Hi. destruct (Hdec Hnil i g Hg Hi) as [[tid' Ht] | Hall];
      [left|now right].
    exists tid'. eapply holder_stays; [exact Ht|done].
Qed.

End RunCounters.

Section RunOk.
Context `{Tinyexr}.

Lemma count_workers_missing p (ts : list worker) tid s :
  ts !! tid = Some s -> p s = false ->
  count_workers p ts <= Z.of_nat (length ts) - 1.
Proof.
  intros Hs Hp. apply split_worker in Hs as (l1 & l2 & -> & _).
  rewrite count_workers_app, count_workers_cons, Hp, length_app, length_cons.
  pose proof (count_workers_bounds p l1). pose proof (count_workers_bounds p l2).
  lia.
Qed.

Lemma pending_at_least fr (ts : list worker) tid ix g :
  ts !! tid = Some (Processing ix) -> fr !! ix = Some g ->
  group_units g <= sum_over (pending_units fr) ts.
Proof.
  intros Hs Hg. apply split_worker in Hs as (l1 & l2 & -> & _).
  rewrite sum_over_app, sum_over_cons. simpl. rewrite Hg.
  pose proof (sum_over_nonneg (pending_units fr) l1 (pending_units_nonneg fr)).
  pose proof (sum_over_nonneg (pending_units fr) l2 (pending_units_nonneg fr)).
  lia.
Qed.

Lemma holds_replicate_claiming n : omap holds (replicate n Claiming) = [].
Proof. induction n as [|n IH]; [done|]. simpl. exact IH. Qed.

Lemma sum_over_replicate {A} (f : A -> Z) n x :
  f x = 0 -> sum_over f (replicate n x) = 0.
Proof.
  intros Hx. induction n as [|n IH]; [done|].
  simpl replicate. rewrite sum_over_cons, IH, Hx. done.
Qed.

(** The run is created in a good state. *)
Lemma run_ok_init cores input :
  run_ok cores input (exrtool_process cores input).
Proof.
  constructor; simpl; try done.
  - apply length_replicate.
  - constructor; simpl.
    + pose proof (count_workers_bounds left_loop
                    (replicate (thread_count cores input) Claiming)). lia.
    + apply Forall_replicate. split; done.
    + rewrite holds_replicate_claiming. constructor.
    + split; [done|]. rewrite sum_over_replicate by done.
      replace (claimed_of 0 (group_files (files input))) with O
        by (unfold claimed_of; lia).
      done.
    + unfold count_workers. now rewrite sum_over_replicate.
    + unfold count_workers. rewrite sum_over_replicate by done.
      unfold claimed_of. lia.
    + intros _ i g _ Hi. unfold claimed_of in Hi. lia.
Qed.

(** Every action keeps the run in a good state, and moves the three
    counters upwards only. *)
Lemma run_ok_step cores input tid w :
  fits cores input ->
  run_ok cores input w ->
  run_ok cores input (step tid w) /\
  a_frames_started (run w) <= a_frames_started (run (step tid w)) /\
  a_progress (run w) <= a_progress (run (step tid w)) /\
  a_threads_done (run w) <= a_threads_done (run (step tid w)).
Proof.
  intros Hfits [Hfr Hin Hth Hok]. unfold fits in Hfits.
  pose proof (units_total (files input)) as Htotal. rewrite <- Hfr in Htotal.
  assert (Hwrap : forall w' c a d ts errs,
    step_to w w' c a d ts errs ->
    length ts = length (threads (run w)) ->
    counters_ok (frames (run w)) c a d ts errs ->
    run_ok cores input w').
  { intros w' c a d ts errs (Hf' & Hi' & <- & <- & <- & <- & <-) Hlen Hc.
    constructor; [congruence|congruence|congruence|]. now rewrite Hf'. }
  destruct (threads (run w) !! tid) as [s|] eqn:Hs;
    [|rewrite step_idle by auto; split_and!; [done|lia..]].
  destruct s as [ | ix | ix | | | | ].
  - (* the cursor is advanced *)
    pose proof (step_claiming tid w Hs) as Hstep.
    pose proof (count_workers_missing left_loop _ _ _ Hs eq_refl) as Hcount.
    pose proof (ok_cursor _ _ _ _ _ _ Hok) as Hc.
    assert (Hnowrap : to_uint32 (a_frames_started (run w) + 1)
                      = a_frames_started (run w) + 1).
    { apply to_uint32_small. rewrite Hfr in Hc. lia. }
    rewrite Hnowrap in Hstep.
    pose proof Hstep as (Hf' & Hi' & Hc' & Ha' & Hd' & Ht' & He').
    split_and!; [|lia..].
    eapply Hwrap.
    + exact Hstep.
    + now rewrite length_insert.
    + destruct (Z.leb_spec (Z.of_nat (length (frames (run w))))
                  (a_frames_started (run w))).
      * now apply counters_claim_past.
      * now apply counters_claim_next.
  - (* a frame group is processed *)
    pose proof (ok_holds _ _ _ _ _ _ Hok) as Hh.
    rewrite Forall_forall in Hh.
    destruct (Hh _ (list_elem_of_lookup_2 _ _ _ Hs)) as [_ Hb].
    specialize (Hb ix eq_refl).
    pose proof (claimed_of_le (a_frames_started (run w)) (frames (run w))).
    destruct (lookup_lt_is_Some_2 (frames (run w)) ix) as [g Hg]; [lia|].
    destruct (step_processing tid w ix g Hs Hg) as (es & Hlen & Hes & Hstep).
    destruct (ok_progress _ _ _ _ _ _ Hok) as [Ha Hp].
    pose proof (pending_at_least _ _ _ _ _ Hs Hg) as Hpend.
    pose proof (units_take_le (frames (run w))
                  (claimed_of (a_frames_started (run w)) (frames (run w)))).
    pose proof (group_units_pos g).
    assert (Hnowrap : to_uint32 (a_progress (run w) + group_units g)
                      = a_progress (run w) + group_units g).
    { apply to_uint32_small. rewrite Hfr in *. lia. }
    rewrite Hnowrap in Hstep.
    pose proof Hstep as (Hf' & Hi' & Hc' & Ha' & Hd' & Ht' & He').
    split_and!; [|lia..].
    eapply Hwrap.
    + exact Hstep.
    + now rewrite length_insert.
    + now apply counters_process.
  - (* the callback is invoked for the index *)
    pose proof (step_notifying tid w ix Hs) as Hstep.
    pose proof Hstep as (Hf' & Hi' & Hc' & Ha' & Hd' & Ht' & He').
    split_and!; [|lia..].
    eapply Hwrap.
    + exact Hstep.
    + now rewrite length_insert.
    + now apply (counters_notify _ _ _ _ _ _ _ ix).
  - (* the finished counter is advanced *)
    pose proof (step_finishing tid w Hs) as Hstep.
    pose proof (count_workers_missing signalled _ _ _ Hs eq_refl) as Hcount.
    pose proof (ok_done _ _ _ _ _ _ Hok) as Hd.
    pose proof (count_workers_bounds signalled (threads (run w))).
    assert (Hnowrap : to_uint32 (a_threads_done (run w) + 1)
                      = a_threads_done (run w) + 1).
    { apply to_uint32_small. lia. }
    rewrite Hnowrap in Hstep.
    pose proof Hstep as (Hf' & Hi' & Hc' & Ha' & Hd' & Ht' & He').
    split_and!; [|lia..].
    eapply Hwrap.
    + exact Hstep.
    + now rewrite length_insert.
    + now apply counters_finish.
  - (* the last call of the callback *)
    pose proof (step_final tid w Hs) as Hstep.
    pose proof Hstep as (Hf' & Hi' & Hc' & Ha' & Hd' & Ht' & He').
    split_and!; [|lia..].
    eapply Hwrap.
    + exact Hstep.
    + now rewrite length_insert.
    + now apply counters_final.
  - rewrite step_idle by auto. split_and!; [done|lia..].
  - rewrite step_idle by auto. split_and!; [done|lia..].
Qed.

Lemma run_ok_schedule cores input sched : forall w,
  fits cores input ->
  run_ok cores input w ->
  run_ok cores input (run_schedule sched w).
Proof.
  induction sched as [|tid sched IH]; intros w Hfits Hok; [done|].
  simpl. apply IH; [done|]. now apply run_ok_step.
Qed.

(** Every state of a run that fits is a good state. *)
Lemma run_ok_reached cores input sched :
  fits cores input ->
  run_ok cores input (run_schedule sched (exrtool_process cores input)).
Proof. intros Hfits. apply run_ok_schedule; [done|]. apply run_ok_init. Qed.

End RunOk.

Section RunFacts.
Context `{Tinyexr}.

(** The worker list and the cursor after an action, in a good state. *)
Lemma step_shape cores inp tid w :
  fits cores inp -> run_ok cores inp w ->
  frames (run (step tid w)) = frames (run w) /\
  match threads (run w) !! tid with
  | Some Claiming =>
      a_frames_started (run (step tid w)) = a_frames_started (run w) + 1 /\
      threads (run (step tid w))
      = <[tid := if Z.of_nat (length (frames (run w))) <=? a_frames_started (run w)
                 then Finishing
                 else Processing (Z.to_nat (a_frames_started (run w)))]>
          (threads (run w))
  | Some (Processing ix) =>
      a_frames_started (run (step tid w)) = a_frames_started (run w) /\
      (threads (run (step tid w)) = <[tid := Notifying ix]> (threads (run w)) \/
       threads (run (step tid w)) = <[tid := Finishing]> (threads (run w)))
  | Some (Notifying ix) =>
      a_frames_started (run (step tid w)) = a_frames_started (run w) /\
      threads (run (step tid w)) = <[tid := Claiming]> (threads (run w))
  | Some Finishing =>
      a_frames_started (run (step tid w)) = a_frames_started (run w) /\
      threads (run (step tid w)) = <[tid := FinalNotify]> (threads (run w))
  | Some FinalNotify =>
      a_frames_started (run (step tid w)) = a_frames_started (run w) /\
      threads (run (step tid w)) = <[tid := Exited]> (threads (run w))
  | Some Exited | Some Faulted | None => step tid w = w
  end.
Proof.
  intros Hfits Hok. pose proof Hok as [Hfr Hin Hth Hc]. unfold fits in Hfits.
  destruct (threads (run w) !! tid) as [s|] eqn:Hs;
    [|rewrite step_idle by auto; done].
  destruct s as [ | ix | ix | | | | ].
  - pose proof (step_claiming tid w Hs) as (Hf' & _ & Hc' & _ & _ & Ht' & _).
    pose proof (count_workers_missing left_loop _ _ _ Hs eq_refl) as Hcount.
    pose proof (ok_cursor _ _ _ _ _ _ Hc) as Hcur.
    rewrite to_uint32_small in Hc' by (rewrite Hfr in Hcur; lia).
    done.
  - pose proof (ok_holds _ _ _ _ _ _ Hc) as Hh.
    rewrite Forall_forall in Hh.
    destruct (Hh _ (list_elem_of_lookup_2 _ _ _ Hs)) as [_ Hb].
    specialize (Hb ix eq_refl).
    pose proof (claimed_of_le (a_frames_started (run w)) (frames (run w))).
    destruct (lookup_lt_is_Some_2 (frames (run w)) ix) as [g Hg]; [lia|].
    destruct (step_processing tid w ix g Hs Hg)
      as (es & _ & _ & (Hf' & _ & Hc' & _ & _ & Ht' & _)).
    split_and!; try done. destruct es; [now left|now right].
  - now pose proof (step_notifying tid w ix Hs) as (Hf' & _ & Hc' & _ & _ & Ht' & _).
  - now pose proof (step_finishing tid w Hs) as (Hf' & _ & Hc' & _ & _ & Ht' & _).
  - now pose proof (step_final tid w Hs) as (Hf' & _ & Hc' & _ & _ & Ht' & _).
  - rewrite step_idle by auto. done.
  - rewrite step_idle by auto. done.
Qed.

(** No action removes or rewrites a recorded error. *)
Lemma step_errors tid w :
  exists es, errors (run (step tid w)) = errors (run w) ++ es.
Proof.
  destruct (threads (run w) !! tid) as [s|] eqn:Hs;
    [|exists []; rewrite step_idle by auto; now rewrite app_nil_r].
  destruct s as [ | ix | ix | | | | ].
  - destruct (step_claiming tid w Hs) as (_ & _ & _ & _ & _ & _ & He).
    exists []. now rewrite app_nil_r.
  - destruct (frames (run w) !! ix) as [g|] eqn:Hg.
    + destruct (step_processing tid w ix g Hs Hg)
        as (es & _ & _ & (_ & _ & _ & _ & _ & _ & He)).
      now exists es.
    + exists []. unfold step. rewrite Hs, Hg. simpl. now rewrite app_nil_r.
  - destruct (step_notifying tid w ix Hs) as (_ & _ & _ & _ & _ & _ & He).
    exists []. now rewrite app_nil_r.
  - destruct (step_finishing tid w Hs) as (_ & _ & _ & _ & _ & _ & He).
    exists []. now rewrite app_nil_r.
  - destruct (step_final tid w Hs) as (_ & _ & _ & _ & _ & _ & He).
    exists []. now rewrite app_nil_r.
  - exists []. rewrite step_idle by auto. now rewrite app_nil_r.
  - exists []. rewrite step_idle by auto. now rewrite app_nil_r.
Qed.

Lemma run_schedule_errors sched : forall w,
  exists es, errors (run (run_schedule sched w)) = errors (run w) ++ es.
Proof.
  induction sched as [|tid sched IH]; intros w.
  - exists []. simpl. now rewrite app_nil_r.
  - simpl. destruct (IH (step tid w)) as (es2 & ->).
    destruct (step_errors tid w) as (es1 & ->).
    exists (es1 ++ es2). now rewrite app_assoc.
Qed.

Lemma holders_distinct (ts : list worker) : forall t1 t2 s1 s2 ix,
  NoDup (omap holds ts) ->
  ts !! t1 = Some s1 -> ts !! t2 = Some s2 ->
  holds s1 = Some ix -> holds s2 = Some ix ->
  t1 = t2.
Proof.
  induction ts as [|s ts IH]; intros t1 t2 s1 s2 ix Hnd H1 H2 Hh1 Hh2; [done|].
  rewrite holds_cons in Hnd.
  assert (Hin : forall t s', ts !! t = Some s' -> holds s' = Some ix ->
                             ix ∈ omap holds ts).
  { intros t s' Ht Hs'. apply list_elem_of_omap. exists s'.
    split; [|done]. eapply list_elem_of_lookup_2. exact Ht. }
  destruct t1 as [|t1], t2 as [|t2]; simpl in *.
  - done.
  - injection H1 as ->. rewrite Hh1 in Hnd. apply NoDup_cons in Hnd as [Hnot _].
    exfalso. apply Hnot. now apply (Hin t2 s2).
  - injection H2 as ->. rewrite Hh2 in Hnd. apply NoDup_cons in Hnd as [Hnot _].
    exfalso. apply Hnot. now apply (Hin t1 s1).
  - f_equal. apply (IH t1 t2 s1 s2 ix); try done.
    destruct (holds s); [now apply NoDup_cons in Hnd as [_ ?]|done].
Qed.



(** *** After completion nothing changes but the last notifications *)



(** *** No frame group is handed out twice *)

Lemma elem_of_insert_inv {A} (l : list A) i x y :
  y ∈ <[i := x]> l -> y = x \/ y ∈ l.
Proof.
  intros Hy. apply list_elem_of_lookup_1 in Hy as [j Hj].
  apply list_lookup_insert_Some in Hj as [(_ & -> & _) | (_ & Hj)];
    [by left|right].
  eapply list_elem_of_lookup_2. exact Hj.
Qed.

(** Once the cursor has passed a group and no worker is about to process
    it, that stays so. *)
Lemma not_available_step cores inp tid w ix :
  fits cores inp -> run_ok cores inp w ->
  ~ available w ix -> ~ available (step tid w) ix.
Proof.
  intros Hfits Hok Hnot [Hcur | Hin]; apply Hnot.
  - left. destruct (run_ok_step cores inp tid w Hfits Hok) as (_ & Hmono & _). lia.
  - destruct (step_shape cores inp tid w Hfits Hok) as [_ Hshape].
    destruct (threads (run w) !! tid) as [[ | ix' | ix' | | | | ]|] eqn:Hs;
      try (rewrite Hshape in Hin; by right).
    + destruct Hshape as [_ Hts]. rewrite Hts in Hin.
      apply elem_of_insert_inv in Hin as [Heq | Hin]; [|by right].
      destruct (_ <=? _) eqn:Hpast; [discriminate Heq|].
      injection Heq as ->. left.
      destruct Hok as [_ _ _ Hc]. pose proof (ok_cursor _ _ _ _ _ _ Hc). lia.
    + destruct Hshape as [_ [Hts | Hts]]; rewrite Hts in Hin;
        apply elem_of_insert_inv in Hin as [Heq | Hin];
        (discriminate Heq || by right).
    + destruct Hshape as [_ Hts]. rewrite Hts in Hin.
      apply elem_of_insert_inv in Hin as [Heq | Hin];
        (discriminate Heq || by right).
    + destruct Hshape as [_ Hts]. rewrite Hts in Hin.
      apply elem_of_insert_inv in Hin as [Heq | Hin];
        (discriminate Heq || by right).
    + destruct Hshape as [_ Hts]. rewrite Hts in Hin.
      apply elem_of_insert_inv in Hin as [Heq | Hin];
        (discriminate Heq || by right).
Qed.

(** The worker that processes a group is the last one to do so. *)
Lemma processed_not_available cores inp tid w ix :
  fits cores inp -> run_ok cores inp w ->
  threads (run w) !! tid = Some (Processing ix) ->
  ~ available (step tid w) ix.
Proof.
  intros Hfits Hok Hs.
  destruct (step_shape cores inp tid w Hfits Hok) as [_ Hshape].
  rewrite Hs in Hshape. destruct Hshape as [Hcur Hts].
  pose proof Hok as [_ _ _ Hc].
  pose proof (ok_holds _ _ _ _ _ _ Hc) as Hh. rewrite Forall_forall in Hh.
  destruct (Hh _ (list_elem_of_lookup_2 _ _ _ Hs)) as [_ Hb].
  specialize (Hb ix eq_refl). unfold claimed_of in Hb.
  intros [Hpast | Hin]; [lia|].
  assert (Hother : forall s', s' <> Processing ix ->
            Processing ix ∈ <[tid := s']> (threads (run w)) -> False).
  { intros s' Hs' Hin'. apply list_elem_of_lookup_1 in Hin' as [j Hj].
    apply list_lookup_insert_Some in Hj as [(_ & Heq & _) | (Hne & Hj)];
      [done|].
    apply Hne.
    apply (holders_distinct (threads (run w)) tid j
             (Processing ix) (Processing ix) ix); try done.
    exact (ok_distinct _ _ _ _ _ _ Hc). }
  destruct Hts as [Hts | Hts]; rewrite Hts in Hin;
    [apply (Hother (Notifying ix))|apply (Hother Finishing)]; done.
Qed.

Lemma processings_bound cores inp ix sched : forall w,
  fits cores inp -> run_ok cores inp w ->
  (~ available w ix -> processings ix sched w = 0%nat) /\
  (processings ix sched w <= 1)%nat.
Proof.
  induction sched as [|tid sched IH]; intros w Hfits Hok; [simpl; split; [done|lia]|].
  destruct (run_ok_step cores inp tid w Hfits Hok) as (Hok' & _).
  destruct (IH (step tid w) Hfits Hok') as [IHnone IHone].
  cbn [processings].
  destruct (threads (run w) !! tid) as [s|] eqn:Hs;
    [|split; [intros Hnot; apply IHnone;
              by apply (not_available_step cores inp)|done]].
  assert (Hdec : s = Processing ix \/ s <> Processing ix).
  { destruct s as [ | ix' | ix' | | | | ]; try (by right).
    destruct (Nat.eq_dec ix' ix) as [-> | Hne]; [by left|right; congruence]. }
  destruct Hdec as [-> | Hne].
  - assert (Hrest : processings ix sched (step tid w) = 0%nat).
    { apply IHnone. by apply (processed_not_available cores inp). }
    rewrite Hrest. split.
    + intros Hnot. exfalso. apply Hnot. right.
      eapply list_elem_of_lookup_2. exact Hs.
    + destruct (frames (run w) !! ix); [|lia].
      destruct (ix =? ix)%nat; lia.
  - assert (Hzero : (match s, frames (run w) !! ix with
                     | Processing ix', Some _ => if (ix' =? ix)%nat then 1 else 0
                     | _, _ => 0
                     end = 0)%nat).
    { destruct s as [ | ix' | ix' | | | | ]; try done.
      destruct (frames (run w) !! ix); [|done].
      destruct (Nat.eqb_spec ix' ix) as [-> | _]; [done|done]. }
    rewrite Hzero. split; [|done].
    intros Hnot. apply IHnone. by apply (not_available_step cores inp).
Qed.

(** *** Errors, held indices and claimed groups *)

Lemma held_replace (ts : list worker) tid s s' :
  ts !! tid = Some s ->
  held (<[tid := s']> ts)
  = held ts - match holds s with Some _ => 1 | None => 0 end
            + match holds s' with Some _ => 1 | None => 0 end.
Proof.
  intros Hs. apply split_worker in Hs as (l1 & l2 & -> & Hins).
  rewrite Hins. unfold held. rewrite !omap_app, !holds_cons, !length_app.
  destruct (holds s), (holds s'); simpl; lia.
Qed.

(** Every recorded error and every held index belongs to a claimed group
    of its own. *)
Lemma errors_held_step cores inp tid w :
  fits cores inp -> run_ok cores inp w ->
  Z.of_nat (length (errors (run w))) + held (threads (run w))
    <= Z.of_nat (claimed w) ->
  Z.of_nat (length (errors (run (step tid w)))) + held (threads (run (step tid w)))
    <= Z.of_nat (claimed (step tid w)).
Proof.
  intros Hfits Hok Hinv.
  destruct (step_shape cores inp tid w Hfits Hok) as [Hfr Hshape].
  pose proof Hok as [_ _ _ Hc].
  pose proof (ok_cursor _ _ _ _ _ _ Hc) as Hcur.
  unfold claimed in *. rewrite Hfr.
  destruct (threads (run w) !! tid) as [[ | ix | ix | | | | ]|] eqn:Hs;
    try (rewrite Hshape; exact Hinv).
  - destruct Hshape as [Hcur' Hts].
    destruct (step_claiming tid w Hs) as (_ & _ & _ & _ & _ & _ & He).
    rewrite He, Hcur', Hts, (held_replace _ _ _ _ Hs).
    destruct (Z.leb_spec (Z.of_nat (length (frames (run w))))
                         (a_frames_started (run w))) as [Hpast | Hnext].
    + destruct (claimed_of_past _ _ Hpast) as [-> _]. simpl. lia.
    + destruct (claimed_of_next (a_frames_started (run w)) (frames (run w)))
        as [Hcl ->]; [lia|].
      rewrite Hcl in Hinv. simpl. lia.
  - destruct Hshape as [Hcur' _].
    pose proof (ok_holds _ _ _ _ _ _ Hc) as Hh. rewrite Forall_forall in Hh.
    destruct (Hh _ (list_elem_of_lookup_2 _ _ _ Hs)) as [_ Hb].
    specialize (Hb ix eq_refl).
    pose proof (claimed_of_le (a_frames_started (run w)) (frames (run w))).
    destruct (lookup_lt_is_Some_2 (frames (run w)) ix) as [g Hg]; [lia|].
    destruct (step_processing tid w ix g Hs Hg)
      as (es & Hlen & _ & (_ & _ & _ & _ & _ & Hts & He)).
    rewrite He, Hcur', Hts, (held_replace _ _ _ _ Hs), length_app.
    destruct es as [|e es]; simpl in *; lia.
  - destruct Hshape as [Hcur' Hts].
    destruct (step_notifying tid w ix Hs) as (_ & _ & _ & _ & _ & _ & He).
    rewrite He, Hcur', Hts, (held_replace _ _ _ _ Hs). simpl. lia.
  - destruct Hshape as [Hcur' Hts].
    destruct (step_finishing tid w Hs) as (_ & _ & _ & _ & _ & _ & He).
    rewrite He, Hcur', Hts, (held_replace _ _ _ _ Hs). simpl. lia.
  - destruct Hshape as [Hcur' Hts].
    destruct (step_final tid w Hs) as (_ & _ & _ & _ & _ & _ & He).
    rewrite He, Hcur', Hts, (held_replace _ _ _ _ Hs). simpl. lia.
Qed.

Lemma errors_held_schedule cores inp sched : forall w,
  fits cores inp -> run_ok cores inp w ->
  Z.of_nat (length (errors (run w))) + held (threads (run w))
    <= Z.of_nat (claimed w) ->
  Z.of_nat (length (errors (run (run_schedule sched w))))
  + held (threads (run (run_schedule sched w)))
    <= Z.of_nat (claimed (run_schedule sched w)).
Proof.
  induction sched as [|tid sched IH]; intros w Hfits Hok Hinv; [done|].
  simpl. apply IH; [done| |by apply (errors_held_step cores inp)].
  by apply run_ok_step.
Qed.

End RunFacts.

(** X5.  In every state of a run whose sizes fit the 32-bit counters, the
    done units polled lie between 0 and the max units, no action of a
    worker makes them smaller, and the max units are
    [num_files + frames.size()] throughout. *)
Theorem done_within_max :
  forall (types : TinyexrTypes) (codec : Tinyexr)
         (cores : nat) (inp : exrtool_input) (sched : list nat) (tid : nat),
    fits cores inp ->
    let w := run_schedule sched (exrtool_process cores inp) in
    let now := (exrtool_poll w).2 in
    let next := (exrtool_poll (step tid w)).2 in
    0 <= done now /\ done now <= done next /\ done next <= max next /\
    max next = max now /\
    max now = Z.of_nat (length (files inp))
              + Z.of_nat (length (group_files (files inp))).
Proof.
  intros types codec cores inp sched tid Hfits w now next.
  pose proof (run_ok_reached cores inp sched Hfits) as Hok. fold w in Hok.
  destruct (run_ok_step cores inp tid w Hfits Hok) as (Hok' & _ & Hmono & _).
  assert (Hbound : forall w', run_ok cores inp w' ->
    0 <= a_progress (run w') /\
    a_progress (run w') <= Z.of_nat (length (files inp))
                           + Z.of_nat (length (group_files (files inp))) /\
    Z.of_nat (length (files (input (run w'))))
    + Z.of_nat (length (frames (run w')))
    = Z.of_nat (length (files inp))
      + Z.of_nat (length (group_files (files inp)))).
  { intros w' [Hfr Hin _ Hc]. destruct (ok_progress _ _ _ _ _ _ Hc) as [Ha Hp].
    pose proof (sum_over_nonneg (pending_units (frames (run w')))
                  (threads (run w')) (pending_units_nonneg _)).
    pose proof (units_take_le (frames (run w'))
                  (claimed_of (a_frames_started (run w')) (frames (run w')))).
    pose proof (units_total (files inp)).
    rewrite Hfr, Hin in *. lia. }
  destruct (Hbound w Hok) as (H0 & H1 & H2).
  destruct (Hbound (step tid w) Hok') as (H0' & H1' & H2').
  unfold now, next, exrtool_poll. simpl. lia.
Qed.

Lemma done_within_max_witness :
  let w := run_schedule [0; 1; 0]%nat
             (exrtool_process 1
                (pool 2 [request "a.0001.exr" ["R"]; request "c.0002.exr" ["Z"]])) in
  0 <= done (exrtool_poll w).2 /\
  done (exrtool_poll w).2 <= done (exrtool_poll (step 1 w)).2 /\
  done (exrtool_poll (step 1 w)).2 <= max (exrtool_poll (step 1 w)).2.
Proof.
  intros w.
  destruct (done_within_max _ _ 1%nat
              (pool 2 [request "a.0001.exr" ["R"]; request "c.0002.exr" ["Z"]])
              [0; 1; 0]%nat 1%nat) as (H0 & H1 & H2 & _).
  - unfold fits. vm_compute. reflexivity.
  - split_and!; assumption.
Defined.



(** X7.  In every state of a run that fits, no worker has read outside the
    frame array: each index a worker holds has a frame group and lies
    below the cursor, and two workers never hold the same index.  Over the
    whole run no frame group is handed to [process_frame] more than
    once. *)
Theorem workers_hold_distinct_groups :
  forall (types : TinyexrTypes) (codec : Tinyexr)
         (cores : nat) (inp : exrtool_input) (sched : list nat),
    fits cores inp ->
    let w := run_schedule sched (exrtool_process cores inp) in
    Forall (fun s => s <> Faulted) (threads (run w)) /\
    (forall tid s ix,
       threads (run w) !! tid = Some s -> holds s = Some ix ->
       is_Some (frames (run w) !! ix) /\ Z.of_nat ix < a_frames_started (run w)) /\
    (forall t1 t2 s1 s2 ix,
       threads (run w) !! t1 = Some s1 -> threads (run w) !! t2 = Some s2 ->
       holds s1 = Some ix -> holds s2 = Some ix -> t1 = t2) /\
    (forall ix,
       (processings ix sched (exrtool_process cores inp) <= 1)%nat).
Proof.
  intros types codec cores inp sched Hfits w.
  pose proof (run_ok_reached cores inp sched Hfits) as [_ _ _ Hc]. fold w in Hc.
  pose proof (ok_holds _ _ _ _ _ _ Hc) as Hh.
  split_and!.
  - eapply Forall_impl; [exact Hh|]. now intros s [? _].
  - intros tid s ix Hs Hix. rewrite Forall_forall in Hh.
    destruct (Hh s (list_elem_of_lookup_2 _ _ _ Hs)) as [_ Hb].
    specialize (Hb ix Hix). unfold claimed_of in Hb.
    split; [apply lookup_lt_is_Some_2|]; lia.
  - intros t1 t2 s1 s2 ix. apply holders_distinct.
    exact (ok_distinct _ _ _ _ _ _ Hc).
  - intros ix.
    apply (processings_bound cores inp ix sched _ Hfits (run_ok_init cores inp)).
Qed.

Lemma workers_hold_distinct_groups_witness :
  let inp := pool 2 [request "a.0001.exr" ["R"]; request "c.0002.exr" ["Z"]] in
  let sched := [0; 1; 0; 1; 1; 0; 0; 1; 0; 1]%nat in
  threads (run (run_schedule [0; 1]%nat (exrtool_process 1 inp)))
  = [Processing 0; Processing 1] /\
  processings 0 sched (exrtool_process 1 inp) = 1%nat /\
  processings 1 sched (exrtool_process 1 inp) = 1%nat /\
  (forall ix, (processings ix sched (exrtool_process 1 inp) <= 1)%nat).
Proof.
  intros inp sched.
  split_and!; [vm_compute; reflexivity..|].
  apply (workers_hold_distinct_groups _ _ 1%nat inp sched).
  unfold fits. vm_compute. reflexivity.
Defined.



(** X9.  A run never holds more errors than it has worker threads, nor
    more than frame groups that have been claimed: every recorded error
    belongs to a claimed frame group of its own. *)
Theorem errors_within_workers_and_groups :
  forall (types : TinyexrTypes) (codec : Tinyexr)
         (cores : nat) (inp : exrtool_input) (sched : list nat),
    fits cores inp ->
    let w := run_schedule sched (exrtool_process cores inp) in
    (exrtool_get_num_errors w <= thread_count cores inp)%nat /\
    Z.of_nat (exrtool_get_num_errors w)
    <= Z.min (a_frames_started (run w)) (Z.of_nat (length (frames (run w)))) /\
    (exrtool_get_num_errors w <= length (group_files (files inp)))%nat.
Proof.
  intros types codec cores inp sched Hfits w.
  pose proof (run_ok_reached cores inp sched Hfits) as [Hfr _ Hth Hc].
  fold w in Hfr, Hth, Hc.
  pose proof (ok_errors _ _ _ _ _ _ Hc) as He.
  pose proof (ok_cursor _ _ _ _ _ _ Hc) as Hcur.
  pose proof (count_workers_bounds left_loop (threads (run w))) as Hb.
  assert (Hinv : Z.of_nat (length (errors (run w))) + held (threads (run w))
                 <= Z.of_nat (claimed w)).
  { apply (errors_held_schedule cores inp sched _ Hfits (run_ok_init cores inp)).
    unfold held, claimed, claimed_of. simpl.
    rewrite holds_replicate_claiming. simpl. lia. }
  unfold held, claimed, claimed_of in Hinv. unfold claimed_of in He.
  unfold exrtool_get_num_errors. rewrite <- Hfr.
  split_and!; lia.
Qed.

Lemma errors_within_workers_and_groups_witness :
  let w := run_schedule [0; 1; 0; 1]%nat
             (exrtool_process 1
                (pool 2 [request "bad.0001.exr" ["R"];
                         request "worse.0002.exr" ["Z"];
                         request "c.0003.exr" ["Z"]])) in
  exrtool_get_num_errors w = 2%nat /\
  (exrtool_get_num_errors w <= 2)%nat /\
  Z.of_nat (exrtool_get_num_errors w) <= Z.min (a_frames_started (run w)) 3.
Proof.
  intros w.
  destruct (errors_within_workers_and_groups _ _ 1%nat
              (pool 2 [request "bad.0001.exr" ["R"];
                       request "worse.0002.exr" ["Z"];
                       request "c.0003.exr" ["Z"]])
              [0; 1; 0; 1]%nat) as (Hthreads & Hgroups & _).
  - unfold fits. vm_compute. reflexivity.
  - split_and!; [vm_compute; reflexivity|exact Hthreads|exact Hgroups].
Defined.

(** X10.  The error list only grows: whatever the workers do, the errors
    recorded so far stay at their indices, and [exrtool_get_error] yields
    none exactly for an index that is not below the number of errors. *)
Theorem errors_append_only :
  forall (types : TinyexrTypes) (codec : Tinyexr) (sched : list nat) (w : world),
    let w' := run_schedule sched w in
    (exists es, errors (run w') = errors (run w) ++ es) /\
    (exrtool_get_num_errors w <= exrtool_get_num_errors w')%nat /\
    (forall i e, exrtool_get_error w i = Some e -> exrtool_get_error w' i = Some e) /\
    (forall i, exrtool_get_error w i = None <-> (exrtool_get_num_errors w <= i)%nat).
Proof.
  intros types codec sched w w'.
  destruct (run_schedule_errors sched w) as (es & Hes). fold w' in Hes.
  unfold exrtool_get_num_errors, exrtool_get_error. rewrite Hes.
  split_and!.
  - now exists es.
  - rewrite length_app. lia.
  - intros i e Hi. now apply lookup_app_l_Some.
  - intros i. apply lookup_ge_None.
Qed.

(** ** Every worker exits *)

Section RunLiveness.
Context `{Tinyexr}.

(** The action of another thread leaves a worker at most as far from its
    exit as it was. *)
Lemma actions_left_other cores inp tid tid' w :
  fits cores inp -> run_ok cores inp w -> tid' <> tid ->
  (actions_left (step tid' w) tid <= actions_left w tid)%nat.
Proof.
  intros Hfits Hok Hne.
  destruct (step_shape cores inp tid' w Hfits Hok) as [Hf Hshape].
  destruct (run_ok_step cores inp tid' w Hfits Hok) as (_ & Hmono & _).
  assert (Hsame : threads (run (step tid' w)) !! tid = threads (run w) !! tid).
  { destruct (threads (run w) !! tid') as [[ | ix | ix | | | | ]|];
      try (now rewrite Hshape).
    - destruct Hshape as [_ ->]. now apply list_lookup_insert_ne.
    - destruct Hshape as [_ [-> | ->]]; now apply list_lookup_insert_ne.
    - destruct Hshape as [_ ->]. now apply list_lookup_insert_ne.
    - destruct Hshape as [_ ->]. now apply list_lookup_insert_ne.
    - destruct Hshape as [_ ->]. now apply list_lookup_insert_ne. }
  unfold actions_left, claimed, claimed_of. rewrite Hsame, Hf.
  destruct (threads (run w) !! tid) as [[ | ix | ix | | | | ]|]; lia.
Qed.

(** Its own action brings a worker that has not exited closer to its
    exit. *)
Lemma actions_left_own cores inp tid w :
  fits cores inp -> run_ok cores inp w ->
  (actions_left (step tid w) tid < actions_left w tid)%nat \/
  (actions_left w tid = 0%nat /\ step tid w = w).
Proof.
  intros Hfits Hok.
  destruct (step_shape cores inp tid w Hfits Hok) as [Hf Hshape].
  pose proof Hok as [Hfr Hin Hth Hc].
  pose proof (ok_cursor _ _ _ _ _ _ Hc) as Hcur.
  destruct (threads (run w) !! tid) as [s|] eqn:Hs;
    [|right; unfold actions_left; now rewrite Hs].
  pose proof (lookup_lt_Some _ _ _ Hs) as Hlt.
  unfold actions_left, claimed, claimed_of. rewrite Hs, Hf.
  destruct s as [ | ix | ix | | | | ]; try (now right); left.
  - destruct Hshape as [-> ->]. rewrite list_lookup_insert_eq by done.
    destruct (Z.leb_spec (Z.of_nat (length (frames (run w))))
                (a_frames_started (run w))); lia.
  - destruct Hshape as [-> [-> | ->]]; rewrite list_lookup_insert_eq by done; lia.
  - destruct Hshape as [-> ->]. rewrite list_lookup_insert_eq by done. lia.
  - destruct Hshape as [-> ->]. rewrite list_lookup_insert_eq by done. lia.
  - destruct Hshape as [-> ->]. rewrite list_lookup_insert_eq by done. lia.
Qed.

Lemma actions_left_schedule cores inp tid sched : forall w,
  fits cores inp -> run_ok cores inp w ->
  (actions_left (run_schedule sched w) tid
   <= actions_left w tid - turns tid sched)%nat.
Proof.
  induction sched as [|tid' sched IH]; intros w Hfits Hok.
  - unfold turns. simpl. lia.
  - change (run_schedule (tid' :: sched) w)
      with (run_schedule sched (step tid' w)).
    destruct (run_ok_step cores inp tid' w Hfits Hok) as (Hok' & _).
    specialize (IH (step tid' w) Hfits Hok').
    unfold turns in *. simpl.
    destruct (Nat.eqb_spec tid tid') as [<- | Hne]; simpl.
    + destruct (actions_left_own cores inp tid w Hfits Hok) as [Hlt | [Hzero Hidle]];
        [lia|].
      rewrite Hidle in IH |- *. lia.
    + pose proof (actions_left_other cores inp tid tid' w Hfits Hok). lia.
Qed.

End RunLiveness.

(** X11.  Every worker exits, and the run completes: a worker that has
    been given [3 * frames.size() + 3] actions has exited, whatever the
    other threads did in between, and once every worker has had that many
    [exrtool_poll] reports completion. *)
Theorem workers_exit :
  forall (types : TinyexrTypes) (codec : Tinyexr)
         (cores : nat) (inp : exrtool_input) (sched : list nat),
    fits cores inp ->
    let w := run_schedule sched (exrtool_process cores inp) in
    let enough := (3 * length (group_files (files inp)) + 3)%nat in
    (forall tid, (tid < thread_count cores inp)%nat ->
                 (enough <= turns tid sched)%nat ->
                 threads (run w) !! tid = Some Exited) /\
    ((forall tid, (tid < thread_count cores inp)%nat ->
                  (enough <= turns tid sched)%nat) ->
     (exrtool_poll w).1 = true).
Proof.
  intros types codec cores inp sched Hfits w enough.
  pose proof (run_ok_reached cores inp sched Hfits) as Hok. fold w in Hok.
  pose proof Hok as [Hfr Hin Hth Hc].
  assert (Hone : forall tid, (tid < thread_count cores inp)%nat ->
            (enough <= turns tid sched)%nat ->
            threads (run w) !! tid = Some Exited).
  { intros tid Htid Hturns.
    pose proof (actions_left_schedule cores inp tid sched
                  (exrtool_process cores inp) Hfits (run_ok_init cores inp)) as Hleft.
    fold w in Hleft.
    assert (Hstart : actions_left (exrtool_process cores inp) tid = enough).
    { unfold actions_left, claimed, claimed_of. simpl.
      rewrite lookup_replicate_2 by done. unfold enough. lia. }
    rewrite Hstart in Hleft.
    assert (Hzero : actions_left w tid = 0%nat) by lia.
    destruct (lookup_lt_is_Some_2 (threads (run w)) tid) as [s Hs]; [lia|].
    pose proof (ok_holds _ _ _ _ _ _ Hc) as Hh. rewrite Forall_forall in Hh.
    destruct (Hh _ (list_elem_of_lookup_2 _ _ _ Hs)) as [Hnf _].
    unfold actions_left in Hzero. rewrite Hs in Hzero.
    destruct s; try done; lia. }
  split; [exact Hone|].
  intros Hall. unfold exrtool_poll. simpl. apply Z.eqb_eq.
  rewrite (ok_done _ _ _ _ _ _ Hc). apply count_workers_all.
  apply Forall_lookup. intros tid s Hs.
  pose proof (lookup_lt_Some _ _ _ Hs) as Hlt. rewrite Hth in Hlt.
  rewrite (Hone tid Hlt (Hall tid Hlt)) in Hs. now injection Hs as <-.
Qed.

Lemma workers_exit_witness :
  let inp := single_worker [request "a.0001.exr" ["R"]; request "c.0002.exr" ["Z"]] in
  let w := run_schedule (replicate 9 0%nat) (exrtool_process 1 inp) in
  (3 * length (group_files (files inp)) + 3 = 9)%nat /\
  threads (run w) !! 0%nat = Some Exited.
Proof.
  intros inp w. split; [vm_compute; reflexivity|].
  apply (workers_exit _ _ 1%nat inp (replicate 9 0%nat)).
  - unfold fits. vm_compute. reflexivity.
  - vm_compute. lia.
  - vm_compute. lia.
Defined.

(** * The caller *)

(** ** The names of the file dialog *)

Lemma strchr_found file c e :
  UI.strchr file c = Some e ->
  file = take e file ++ c :: drop (S e) file /\ (c ∉ take e file) /\
  (e < length file)%nat.
Proof.
  revert e. induction file as [|x file IH]; intros e; simpl; [done|].
  destruct (Ascii.eqb_spec x c) as [->|Hne].
  - intros [= <-]. simpl. rewrite drop_0. split_and!; [done|apply not_elem_of_nil|lia].
  - destruct (UI.strchr file c) as [e'|] eqn:He'; [|done].
    simpl. intros [= <-]. destruct (IH e' eq_refl) as (Hfile & Hnot & Hlt).
    simpl. split_and!.
    + now rewrite <- Hfile.
    + intros Hin. apply elem_of_cons in Hin as [-> | Hin]; done.
    + lia.
Qed.

Lemma strchr_absent file c : UI.strchr file c = None -> c ∉ file.
Proof.
  induction file as [|x file IH]; simpl; [intros _; apply not_elem_of_nil|].
  destruct (Ascii.eqb_spec x c) as [->|Hne]; [done|].
  destruct (UI.strchr file c); [done|]. intros _ Hin.
  apply elem_of_cons in Hin as [-> | Hin]; [done|]. now apply IH.
Qed.

Lemma dialog_names_loop_joins rounds : forall file,
  (length file < rounds)%nat ->
  let names := UI.dialog_names_loop rounds file in
  names <> [] /\ UI.join_bar names = file /\
  Forall (fun n => "|"%char ∉ String.list_ascii_of_string n) names.
Proof.
  induction rounds as [|rounds IH]; intros file Hlen; [lia|].
  simpl. destruct (UI.strchr file "|") as [e|] eqn:He.
  - destruct (strchr_found _ _ _ He) as (Hfile & Hnot & Hlt).
    destruct (IH (drop (S e) file)) as (Hne & Hjoin & Hall).
    { rewrite length_drop. lia. }
    split_and!.
    + done.
    + simpl. destruct (UI.dialog_names_loop rounds (drop (S e) file)) as [|n ns] eqn:Hn;
        [done|].
      rewrite Hjoin, String.list_ascii_of_string_of_list_ascii. now rewrite <- Hfile.
    + constructor; [|done].
      now rewrite String.list_ascii_of_string_of_list_ascii.
  - split_and!.
    + done.
    + simpl. apply String.list_ascii_of_string_of_list_ascii.
    + constructor; [|constructor].
      rewrite String.list_ascii_of_string_of_list_ascii. now apply strchr_absent.
Qed.

Lemma string_length_chars (s : string) :
  String.length s = length (String.list_ascii_of_string s).
Proof. induction s as [|c s IH]; simpl; [done|]. now rewrite IH. Qed.

(** X12.  The names taken from the file dialog: NULL gives none; a string
    gives at least one name, no name contains ['|'], and the names put
    together with ['|'] between them are the string again, so nothing of
    the selection is lost.  [addFile] is therefore never called with an
    empty list: "Add sequence" always yields a state. *)
Theorem dialog_names_round_trip :
  UI.dialog_names None = [] /\
  (forall selection : string,
     let names := UI.dialog_names (Some selection) in
     names <> [] /\
     UI.join_bar names = String.list_ascii_of_string selection /\
     Forall (fun n => "|"%char ∉ String.list_ascii_of_string n) names) /\
  (forall (types : TinyexrTypes) (codec : Tinyexr)
          (file : option string) (st : UI.UIState),
     is_Some (UI.add_sequence file st)) /\
  UI.dialog_names (Some "a.0001.exr|a.0002.exr")
  = ["a.0001.exr"; "a.0002.exr"]%list.
Proof.
  assert (Hnames : forall selection : string,
     let names := UI.dialog_names (Some selection) in
     names <> [] /\
     UI.join_bar names = String.list_ascii_of_string selection /\
     Forall (fun n => "|"%char ∉ String.list_ascii_of_string n) names).
  { intros selection. apply dialog_names_loop_joins.
    rewrite string_length_chars. lia. }
  split_and!; [done|exact Hnames| |reflexivity].
  intros types codec file st. unfold UI.add_sequence.
  destruct file as [selection|]; [|simpl; done].
  destruct (Hnames selection) as (Hne & _).
  destruct (UI.dialog_names (Some selection)) as [|first rest]; [done|].
  simpl. unfold UI.addFile. destruct (UI.getHeader first); done.
Qed.

(** ** The common prefix *)

Lemma best_index_longest rounds : forall i best prefix name,
  (rounds + i = length name)%nat ->
  best = O \/ UI.shared_directory prefix name best ->
  (forall k, UI.shared_directory prefix name k -> (k <= i)%nat -> (k <= best)%nat) ->
  let b := UI.best_index rounds i best prefix name in
  (b = O \/ UI.shared_directory prefix name b) /\
  (forall k, UI.shared_directory prefix name k -> (k <= b)%nat).
Proof.
  induction rounds as [|rounds IH]; intros i best prefix name Hlen Hbest Hmax.
  - simpl. split; [done|]. intros k Hk. apply Hmax; [done|].
    destruct Hk as (_ & _ & Hkn & _). lia.
  - simpl. destruct (Nat.leb_spec (length prefix) i) as [Hpi | Hpi].
    { split; [done|]. intros k Hk. apply Hmax; [done|].
      destruct Hk as (_ & Hkp & _). lia. }
    destruct (lookup_lt_is_Some_2 name i) as [c Hc]; [lia|]. rewrite Hc.
    destruct (UI.is_separator c) eqn:Hsep; simpl.
    + unfold UI.memcmp_equal.
      destruct (bool_decide_reflect (take (S i) prefix = take (S i) name))
        as [Heq | Hneq]; simpl.
      * apply IH; [lia| |].
        -- right. unfold UI.shared_directory. split_and!; try lia; [done|].
           exists c. replace (S i - 1)%nat with i by lia. done.
        -- intros k _ Hk. exact Hk.
      * split; [done|]. intros k Hk.
        destruct (Nat.le_gt_cases k i) as [Hki | Hki]; [now apply Hmax|].
        exfalso. apply Hneq. destruct Hk as (_ & _ & _ & Htake & _).
        apply (f_equal (take (S i))) in Htake.
        rewrite !take_take in Htake.
        now replace (S i `min` k)%nat with (S i) in Htake by lia.
    + apply IH; [lia|done|].
      intros k Hk Hki.
      destruct (Nat.eq_dec k (S i)) as [-> | Hne]; [|apply Hmax; [done|lia]].
      destruct Hk as (_ & _ & _ & _ & c' & Hc' & Hsep').
      replace (S i - 1)%nat with i in Hc' by lia. congruence.
Qed.

Lemma common_prefix_chars prefix name :
  let p := String.list_ascii_of_string prefix in
  let n := String.list_ascii_of_string name in
  exists b,
    String.list_ascii_of_string (UI.common_prefix prefix name) = take b p /\
    (b = O \/ UI.shared_directory p n b) /\
    (forall k, UI.shared_directory p n k -> (k <= b)%nat).
Proof.
  intros p n. exists (UI.best_index (length n) 0 0 p n).
  split; [apply String.list_ascii_of_string_of_list_ascii|].
  apply best_index_longest; [lia|now left|].
  intros k (Hk & _) Hk0. lia.
Qed.

Lemma common_prefix_longest_directory_aux prefix name :
  String.list_ascii_of_string (UI.common_prefix prefix name)
  `prefix_of` String.list_ascii_of_string prefix /\
  String.list_ascii_of_string (UI.common_prefix prefix name)
  `prefix_of` String.list_ascii_of_string name.
Proof.
  destruct (common_prefix_chars prefix name) as (b & Hr & Hb & _).
  rewrite Hr. split; [apply prefix_take|].
  destruct Hb as [-> | (_ & _ & _ & Htake & _)].
  - apply prefix_nil.
  - rewrite Htake. apply prefix_take.
Qed.

(** X13.  The new common prefix computed by [addFile] is a prefix of the
    old one and of the added name; it is empty or ends with a path
    separator; and it is the longest such: every prefix of both that ends
    with a separator is a prefix of it. *)
Theorem common_prefix_longest_directory :
  forall prefix name : string,
    let p := String.list_ascii_of_string prefix in
    let n := String.list_ascii_of_string name in
    let r := String.list_ascii_of_string (UI.common_prefix prefix name) in
    r `prefix_of` p /\ r `prefix_of` n /\
    (r = [] \/ exists c, last r = Some c /\ UI.is_separator c = true) /\
    (forall (d : list ascii) (c : ascii),
       d `prefix_of` p -> d `prefix_of` n ->
       last d = Some c -> UI.is_separator c = true ->
       d `prefix_of` r).
Proof.
  intros prefix name p n r.
  destruct (common_prefix_chars prefix name) as (b & Hr & Hb & Hmax).
  fold p n in Hr, Hb, Hmax. fold r in Hr.
  split_and!.
  - rewrite Hr. apply prefix_take.
  - destruct Hb as [-> | (_ & _ & _ & Htake & _)].
    + rewrite Hr. apply prefix_nil.
    + rewrite Hr, Htake. apply prefix_take.
  - destruct Hb as [-> | (H0 & Hp & Hn & Htake & c & Hc & Hsep)].
    + left. now rewrite Hr.
    + right. exists c. split; [|done].
      rewrite Hr, Htake, last_lookup, length_take.
      replace (pred (b `min` length n)) with (b - 1)%nat by lia.
      rewrite lookup_take_lt by lia. exact Hc.
  - intros d c [dp Hdp] [dn Hdn] Hlast Hsep.
    assert (Hd : UI.shared_directory p n (length d)).
    { assert (Hpos : (0 < length d)%nat).
      { destruct d; [done|simpl; lia]. }
      unfold UI.shared_directory. split_and!; try done.
      - rewrite Hdp, length_app. lia.
      - rewrite Hdn, length_app. lia.
      - rewrite Hdp, Hdn, !take_app_length. done.
      - exists c. split; [|done]. rewrite Hdn, lookup_app_l by lia.
        rewrite last_lookup in Hlast.
        now replace (length d - 1)%nat with (pred (length d)) by lia. }
    specialize (Hmax _ Hd). rewrite Hr, Hdp.
    rewrite take_app_ge by lia. apply prefix_app_r. done.
Qed.

Example common_prefix_of_two_sequences :
  UI.common_prefix "/render/shotA/beauty.0001.exr" "/render/shotB/depth.0001.exr"
  = "/render/" /\
  UI.common_prefix "/render/shotA/beauty.0001.exr" "/render/shotA/beauty.0001.exr"
  = "/render/shotA/" /\
  UI.common_prefix "beauty.0001.exr" "depth.0001.exr" = "".
Proof. split_and!; reflexivity. Qed.

(** X14.  The common prefix stays a prefix of the name of every file list
    shown, through every "Add sequence" (whether or not the header of the
    added file can be read) and through "Reset"; so the label drawn for a
    list, its name past the first [commonPrefix.size()] characters, always
    starts inside the name. *)
Theorem common_prefix_kept :
  forall (types : TinyexrTypes) (codec : Tinyexr)
         (st : UI.UIState) (file : option string),
    UI.prefix_ok st ->
    UI.prefix_ok (UI.reset st) /\
    exists st',
      UI.add_sequence file st = Some st' /\ UI.prefix_ok st' /\
      Forall (fun l => (String.length (UI.commonPrefix st')
                        <= String.length (UI.list_name l))%nat)
             (UI.fileLists st').
Proof.
  intros types codec st file Hok. split; [constructor|].
  assert (Hlen : forall st', UI.prefix_ok st' ->
            Forall (fun l => (String.length (UI.commonPrefix st')
                              <= String.length (UI.list_name l))%nat)
                   (UI.fileLists st')).
  { intros st' Hok'. eapply Forall_impl; [exact Hok'|].
    intros l Hl. rewrite !string_length_chars. now apply prefix_length. }
  assert (Hadd : exists st', UI.add_sequence file st = Some st' /\ UI.prefix_ok st').
  { unfold UI.add_sequence.
    destruct (UI.dialog_names file) as [|first rest] eqn:Hnames; [now exists st|].
    simpl. unfold UI.addFile.
    set (prefix0 := if (length (UI.fileLists st) =? 0)%nat then first
                    else UI.commonPrefix st).
    destruct (common_prefix_longest_directory_aux prefix0 first) as (Hp0 & Hfirst).
    assert (Hold : Forall (fun l =>
              String.list_ascii_of_string (UI.common_prefix prefix0 first)
              `prefix_of` String.list_ascii_of_string (UI.list_name l))
              (UI.fileLists st)).
    { unfold UI.prefix_ok in Hok. unfold prefix0 in *. clear prefix0.
      destruct (UI.fileLists st) as [|l0 ls]; [constructor|].
      simpl in Hp0 |- *.
      eapply Forall_impl; [exact Hok|]. intros l Hl.
      etrans; [exact Hp0|exact Hl]. }
    destruct (UI.getHeader first) as [header|]; eexists; (split; [reflexivity|]).
    - unfold UI.prefix_ok. simpl. apply Forall_app. split; [done|].
      constructor; [done|constructor].
    - exact Hold. }
  destruct Hadd as (st' & Hst' & Hok'). exists st'. split_and!; auto.
Qed.

Lemma common_prefix_kept_witness :
  let st := {| UI.fileLists :=
                 [{| UI.list_name := "/render/shotA/a.0001.exr";
                     UI.list_files := ["/render/shotA/a.0001.exr";
                                       "/render/shotA/a.0002.exr"];
                     UI.list_categories :=
                       [{| UI.cat_name := "Color (Beauty)"; UI.cat_open := false;
                           UI.cat_channels := {["R" := false; "G" := false]} |}] |}];
               UI.selectedIndex := 0;
               UI.commonPrefix := "/render/shotA/" |} in
  UI.prefix_ok st /\
  exists st',
    @UI.add_sequence Disk.types UI.shots
      (Some "/render/shotB/b.0001.exr|/render/shotB/b.0002.exr") st
    = Some st' /\
    UI.list_name <$> UI.fileLists st'
    = ["/render/shotA/a.0001.exr"; "/render/shotB/b.0001.exr"] /\
    UI.commonPrefix st' = "/render/" /\
    UI.prefix_ok st' /\
    Forall (fun l => (String.length (UI.commonPrefix st')
                      <= String.length (UI.list_name l))%nat)
           (UI.fileLists st').
Proof.
  intros st.
  assert (Hst : UI.prefix_ok st).
  { constructor; [|constructor].
    exists (String.list_ascii_of_string "a.0001.exr"). reflexivity. }
  split; [exact Hst|].
  destruct (common_prefix_kept Disk.types UI.shots st
              (Some "/render/shotB/b.0001.exr|/render/shotB/b.0002.exr") Hst)
    as [_ (st' & Hadd & Hok & Hlen)].
  exists st'. split_and!; [exact Hadd| | |exact Hok|exact Hlen].
  - vm_compute in Hadd. injection Hadd as <-. reflexivity.
  - vm_compute in Hadd. injection Hadd as <-. reflexivity.
Defined.

(** ** The matcher of the category patterns *)

Lemma matches_seq_inv r1 r2 s :
  UI.matches (UI.Seq r1 r2) s ->
  exists s1 s2, s = s1 ++ s2 /\ UI.matches r1 s1 /\ UI.matches r2 s2.
Proof. intros Hm. inversion Hm; subst. eauto. Qed.

Lemma nullable_matches r : UI.nullable r = true <-> UI.matches r [].
Proof.
  induction r as [ | | c | cs | | r1 IH1 r2 IH2 | r1 IH1 r2 IH2 | r IH]; simpl.
  - split; [done|]. intros Hm. inversion Hm.
  - split; [constructor|done].
  - split; [done|]. intros Hm. inversion Hm.
  - split; [done|]. intros Hm. inversion Hm.
  - split; [done|]. intros Hm. inversion Hm.
  - rewrite andb_true_iff, IH1, IH2. split.
    + intros [H1 H2]. now apply (UI.matches_seq r1 r2 [] []).
    + intros Hm. apply matches_seq_inv in Hm as (s1 & s2 & Hs & H1 & H2).
      symmetry in Hs. apply app_eq_nil in Hs as [-> ->]. done.
  - rewrite orb_true_iff, IH1, IH2. split.
    + intros [H1 | H2]; [now apply UI.matches_alt_l|now apply UI.matches_alt_r].
    + intros Hm. inversion Hm; subst; [now left|now right].
  - split; [constructor|done].
Qed.

(** A match of [r*] that starts with [c] starts with a match of [r] that
    starts with [c]. *)
Lemma matches_star_head r c s :
  UI.matches (UI.Star r) (c :: s) ->
  exists s1 s2, s = s1 ++ s2 /\ UI.matches r (c :: s1) /\ UI.matches (UI.Star r) s2.
Proof.
  intros Hm. remember (UI.Star r) as r' eqn:Hr. remember (c :: s) as cs eqn:Hcs.
  revert s Hcs.
  induction Hm as [ | | | | | | | r0 | r0 s1 s2 H1 _ H2 IH2]; intros t Hcs;
    try discriminate.
  injection Hr as ->.
  destruct s1 as [|c1 s1].
  - simpl in Hcs. now apply IH2.
  - simpl in Hcs. injection Hcs as -> <-. now exists s1, s2.
Qed.

Lemma after_matches r : forall c s,
  UI.matches (UI.after c r) s <-> UI.matches r (c :: s).
Proof.
  induction r as [ | | c' | cs | | r1 IH1 r2 IH2 | r1 IH1 r2 IH2 | r IH];
    intros c s; simpl.
  - split; intros Hm; inversion Hm.
  - split; intros Hm; inversion Hm.
  - destruct (Ascii.eqb_spec c c') as [->|Hne]; split; intros Hm; inversion Hm; subst.
    + constructor.
    + constructor.
    + done.
  - destruct (existsb (Ascii.eqb c) cs) eqn:Hcs; split; intros Hm;
      inversion Hm; subst.
    + now constructor.
    + constructor.
    + congruence.
  - destruct (UI.line_terminator c) eqn:Hlt; split; intros Hm;
      inversion Hm; subst.
    + congruence.
    + now constructor.
    + constructor.
  - assert (Hseq : UI.matches (UI.Seq (UI.after c r1) r2) s ->
                   UI.matches (UI.Seq r1 r2) (c :: s)).
    { intros Hm. apply matches_seq_inv in Hm as (s1 & s2 & -> & H1 & H2).
      apply IH1 in H1. now apply (UI.matches_seq r1 r2 (c :: s1) s2). }
    assert (Hback : UI.matches (UI.Seq r1 r2) (c :: s) ->
                    UI.matches (UI.Seq (UI.after c r1) r2) s \/
                    (UI.matches r1 [] /\ UI.matches (UI.after c r2) s)).
    { intros Hm. apply matches_seq_inv in Hm as (s1 & s2 & Hs & H1 & H2).
      destruct s1 as [|c1 s1]; simpl in Hs.
      - right. split; [done|]. apply IH2. now rewrite Hs.
      - injection Hs as -> ->. left. constructor; [now apply IH1|done]. }
    destruct (UI.nullable r1) eqn:Hn.
    + split.
      * intros Hm. inversion Hm; subst; [now apply Hseq|].
        apply (UI.matches_seq r1 r2 [] (c :: s)); [now apply nullable_matches|].
        now apply IH2.
      * intros Hm. destruct (Hback Hm) as [H1 | [_ H2]];
          [now apply UI.matches_alt_l|now apply UI.matches_alt_r].
    + split; [exact Hseq|].
      intros Hm. destruct (Hback Hm) as [H1 | [H1 _]]; [done|].
      apply nullable_matches in H1. congruence.
  - split.
    + intros Hm. inversion Hm; subst;
        [apply UI.matches_alt_l; now apply IH1|apply UI.matches_alt_r; now apply IH2].
    + intros Hm. inversion Hm; subst;
        [apply UI.matches_alt_l; now apply IH1|apply UI.matches_alt_r; now apply IH2].
  - split.
    + intros Hm. apply matches_seq_inv in Hm as (s1 & s2 & -> & H1 & H2).
      apply IH in H1. now apply (UI.matches_star_more r (c :: s1) s2).
    + intros Hm. apply matches_star_head in Hm as (s1 & s2 & -> & H1 & H2).
      constructor; [now apply IH|done].
Qed.

(** The matcher decides the language of the expression. *)
Lemma regex_match_chars_matches s : forall r,
  UI.regex_match_chars s r = true <-> UI.matches r s.
Proof.
  unfold UI.regex_match_chars.
  induction s as [|c s IH]; intros r; simpl.
  - apply nullable_matches.
  - rewrite IH. apply after_matches.
Qed.

Lemma matches_any s :
  Forall (fun c => UI.line_terminator c = false) s -> UI.matches UI.any s.
Proof.
  induction 1 as [|c s Hc _ IH]; [constructor|].
  apply (UI.matches_star_more UI.Dot [c] s); [now constructor|done].
Qed.

(** The last entry of the table takes every name without a line
    terminator. *)
Lemma first_match_total x :
  Forall (fun c => UI.line_terminator c = false) (String.list_ascii_of_string x) ->
  is_Some (UI.first_match UI.getCategories x).
Proof.
  intros Hx. unfold UI.first_match.
  destruct (List.find _ UI.getCategories) as [d|] eqn:Hfind; [done|].
  exfalso.
  pose proof (List.find_none _ _ Hfind
                {| UI.desc_name := "Others"; UI.pattern := UI.any |}) as Hnone.
  simpl in Hnone.
  assert (Hin : In {| UI.desc_name := "Others"; UI.pattern := UI.any |} UI.getCategories).
  { unfold UI.getCategories. simpl. do 9 right. now left. }
  specialize (Hnone Hin). unfold UI.regex_match in Hnone.
  apply matches_any, regex_match_chars_matches in Hx. congruence.
Qed.

(** ** The categories of [addFile] *)

Section Categories.
Context `{codec : Tinyexr}.

Lemma taken_snoc done d x :
  UI.taken (done ++ [d]) x = UI.taken done x || UI.regex_match x (UI.pattern d).
Proof.
  unfold UI.taken. rewrite existsb_app. simpl. now rewrite orb_false_r.
Qed.

Lemma first_match_cons d descs x :
  UI.first_match (d :: descs) x =
  if UI.regex_match x (UI.pattern d) then Some d else UI.first_match descs x.
Proof. reflexivity. Qed.

Lemma bool_decide_cons_ne (x y : string) (l : list string) :
  x <> y -> bool_decide (x ∈ y :: l) = bool_decide (x ∈ l).
Proof.
  intros Hne. apply bool_decide_ext. rewrite elem_of_cons.
  split; [intros [Heq|Hin]; [contradiction|exact Hin]|intros Hin; by right].
Qed.

Lemma bool_decide_cons_eq (y : string) (l : list string) :
  bool_decide (y ∈ y :: l) = true.
Proof. apply bool_decide_eq_true_2. by left. Qed.

(** One round of the inner loop: the flags move on by one category, and
    the map gains the names that are new to it. *)
Lemma collect_spec d done : forall chs extra cat0,
  exists cat,
    UI.collect (UI.pattern d) chs (UI.matched_flags done chs ++ extra) cat0 =
      (cat, UI.matched_flags (done ++ [d]) chs ++ extra) /\
    forall x,
      cat !! x =
      if bool_decide (x ∈ chan_name <$> chs) && negb (UI.taken done x)
         && UI.regex_match x (UI.pattern d)
      then Some false else cat0 !! x.
Proof.
  induction chs as [|ch chs IH]; intros extra cat0.
  - exists cat0. split; [by destruct extra|]. intros x. reflexivity.
  - simpl. rewrite taken_snoc.
    destruct (UI.taken done (chan_name ch)) eqn:Htaken; simpl.
    + destruct (IH extra cat0) as (cat & -> & Hcat). exists cat.
      split; [reflexivity|]. intros x. rewrite Hcat.
      destruct (decide (x = chan_name ch)) as [->|Hne].
      * rewrite Htaken. simpl. now rewrite !andb_false_r.
      * now rewrite bool_decide_cons_ne by done.
    + destruct (UI.regex_match (chan_name ch) (UI.pattern d)) eqn:Hmatch.
      * destruct (IH extra (<[chan_name ch := false]> cat0)) as (cat & -> & Hcat).
        exists cat. split; [reflexivity|]. intros x. rewrite Hcat.
        destruct (decide (x = chan_name ch)) as [->|Hne].
        -- rewrite Htaken, Hmatch, lookup_insert_eq, bool_decide_cons_eq.
           simpl. now destruct (bool_decide _).
        -- rewrite lookup_insert_ne by done.
           now rewrite bool_decide_cons_ne by done.
      * destruct (IH extra cat0) as (cat & -> & Hcat). exists cat.
        split; [reflexivity|]. intros x. rewrite Hcat.
        destruct (decide (x = chan_name ch)) as [->|Hne].
        -- rewrite Hmatch. now rewrite !andb_false_r.
        -- now rewrite bool_decide_cons_ne by done.
Qed.

(** The loop over the table, from any point of it on. *)
Lemma categorize_spec chs extra : forall descs done,
  let cats := UI.categorize descs chs (UI.matched_flags done chs ++ extra) in
  (UI.cat_name <$> cats) `sublist_of` (UI.desc_name <$> descs) /\
  Forall UI.fresh_category cats /\
  (forall cat x, cat ∈ cats -> is_Some (UI.cat_channels cat !! x) ->
     x ∈ chan_name <$> chs /\ UI.taken done x = false /\
     exists d, UI.first_match descs x = Some d /\ UI.cat_name cat = UI.desc_name d) /\
  (forall x d, x ∈ chan_name <$> chs -> UI.taken done x = false ->
     UI.first_match descs x = Some d ->
     exists cat, cat ∈ cats /\ UI.cat_name cat = UI.desc_name d /\
                 UI.cat_channels cat !! x = Some false).
Proof.
  induction descs as [|d descs IH]; intros done; cbn [UI.categorize].
  - split_and!.
    + constructor.
    + constructor.
    + intros cat x Hin. by apply elem_of_nil in Hin.
    + intros x d _ _ Hfind. discriminate.
  - destruct (collect_spec d done chs extra ∅) as (cat & -> & Hcat).
    destruct (IH (done ++ [d])) as (Hsub & Hfresh & Hsound & Hcomplete).
    assert (Hown : forall x, is_Some (cat !! x) ->
              cat !! x = Some false /\ x ∈ chan_name <$> chs /\
              UI.taken done x = false /\ UI.regex_match x (UI.pattern d) = true).
    { intros x Hx. rewrite Hcat in Hx |- *.
      destruct (bool_decide (x ∈ chan_name <$> chs)) eqn:Hmem; simpl in *;
        [|rewrite lookup_empty in Hx; by destruct Hx].
      destruct (UI.taken done x); simpl in *;
        [rewrite lookup_empty in Hx; by destruct Hx|].
      destruct (UI.regex_match x (UI.pattern d)); simpl in *;
        [|rewrite lookup_empty in Hx; by destruct Hx].
      apply bool_decide_eq_true in Hmem. done. }
    assert (Hlater : forall c x, c ∈ UI.categorize descs chs
                        (UI.matched_flags (done ++ [d]) chs ++ extra) ->
              is_Some (UI.cat_channels c !! x) ->
              x ∈ chan_name <$> chs /\ UI.taken done x = false /\
              exists d', UI.first_match (d :: descs) x = Some d' /\
                         UI.cat_name c = UI.desc_name d').
    { intros c x Hin Hx. destruct (Hsound c x Hin Hx) as (Hmem & Htaken & d' & Hd' & Hname).
      rewrite taken_snoc in Htaken. apply orb_false_iff in Htaken as [Ht Hm].
      split_and!; [done|done|]. exists d'. rewrite first_match_cons, Hm. done. }
    assert (Hfound : forall x d', x ∈ chan_name <$> chs -> UI.taken done x = false ->
              UI.first_match (d :: descs) x = Some d' ->
              (d' = d /\ cat !! x = Some false) \/
              exists c, c ∈ UI.categorize descs chs
                          (UI.matched_flags (done ++ [d]) chs ++ extra) /\
                        UI.cat_name c = UI.desc_name d' /\
                        UI.cat_channels c !! x = Some false).
    { intros x d' Hmem Htaken Hfind. rewrite first_match_cons in Hfind.
      destruct (UI.regex_match x (UI.pattern d)) eqn:Hm.
      - left. injection Hfind as <-. split; [done|].
        rewrite Hcat, Htaken, Hm, bool_decide_eq_true_2 by done. done.
      - right. apply Hcomplete; [done| |done].
        rewrite taken_snoc, Htaken, Hm. done. }
    destruct (decide (cat = ∅)) as [Hempty|Hfull].
    + split_and!.
      * rewrite fmap_cons. by apply sublist_cons.
      * done.
      * exact Hlater.
      * intros x d' Hmem Htaken Hfind.
        destruct (Hfound x d' Hmem Htaken Hfind) as [[_ Hx]|Hc]; [|done].
        rewrite Hempty, lookup_empty in Hx. discriminate.
    + split_and!.
      * rewrite !fmap_cons. by apply sublist_skip.
      * constructor; [|done]. split_and!; [done|done|]. cbn [UI.cat_channels].
        intros x b Hx. destruct (Hown x) as [Hfalse _]; [by exists b|]. congruence.
      * intros c x Hin Hx. apply elem_of_cons in Hin as [->|Hin].
        -- cbn [UI.cat_channels UI.cat_name] in *. destruct (Hown x Hx) as (_ & Hmem & Htaken & Hm).
           split_and!; [done|done|]. exists d. rewrite first_match_cons, Hm. done.
        -- by apply Hlater.
      * intros x d' Hmem Htaken Hfind.
        destruct (Hfound x d' Hmem Htaken Hfind) as [[-> Hx]|(c & Hin & Hname & Hx)].
        -- eexists. split; [by left|]. done.
        -- exists c. split; [by right|]. done.
Qed.

Lemma matched_flags_nil chs :
  UI.matched_flags [] chs = replicate (length chs) false.
Proof. induction chs as [|ch chs IH]; simpl; [done|]. by f_equal. Qed.

Lemma same_key_same_element {A B} (f : A -> B) (l : list A) a b :
  NoDup (f <$> l) -> a ∈ l -> b ∈ l -> f a = f b -> a = b.
Proof.
  induction l as [|x l IH]; intros Hnd Ha Hb Hf; [by apply elem_of_nil in Ha|].
  rewrite fmap_cons in Hnd. apply NoDup_cons in Hnd as [Hx Hnd].
  apply elem_of_cons in Ha as [->|Ha]; apply elem_of_cons in Hb as [->|Hb].
  - done.
  - exfalso. apply Hx. rewrite Hf. by apply list_elem_of_fmap_2.
  - exfalso. apply Hx. rewrite <- Hf. by apply list_elem_of_fmap_2.
  - by apply IH.
Qed.

Lemma getCategories_names_NoDup : NoDup (UI.desc_name <$> UI.getCategories).
Proof.
  apply (@bool_decide_unpack _ (NoDup_dec _)). vm_compute. exact I.
Qed.

End Categories.

(** X15.  [addFile] on a selection whose first file has a readable header
    adds one list with the selected files.  Its categories come in the
    order of the category table, none is empty, all are closed and nothing
    in them is ticked.  A category holds a name exactly when the name is
    one of the channels of the header and the category is that of the
    first entry of the table whose pattern matches the name; a channel
    name without a line terminator is always in one of them. *)
Theorem addFile_first_matching_category :
  forall (types : TinyexrTypes) (codec : Tinyexr)
         (first : string) (rest : list string) (st : UI.UIState)
         (header : EXRHeader),
    UI.getHeader first = Some header ->
    exists st' l,
      UI.addFile (first :: rest) st = Some st' /\
      UI.fileLists st' = UI.fileLists st ++ [l] /\
      UI.list_files l = first :: rest /\
      Forall UI.fresh_category (UI.list_categories l) /\
      (UI.cat_name <$> UI.list_categories l)
        `sublist_of` (UI.desc_name <$> UI.getCategories) /\
      (forall cat x, cat ∈ UI.list_categories l ->
         (is_Some (UI.cat_channels cat !! x) <->
          x ∈ UI.shown_channels header /\
          exists d, UI.first_match UI.getCategories x = Some d /\
                    UI.cat_name cat = UI.desc_name d)) /\
      (forall x, x ∈ UI.shown_channels header -> UI.one_line x ->
         exists cat, cat ∈ UI.list_categories l /\
                     UI.cat_channels cat !! x = Some false).
Proof.
  intros types codec first rest st header Hheader.
  unfold UI.addFile. rewrite Hheader. cbv zeta.
  set (n := Z.to_nat (header_num_channels header)).
  set (chs := take n (header_channels header)).
  assert (Hflags : replicate n false
                   = UI.matched_flags [] chs ++ replicate (n - length chs) false).
  { rewrite matched_flags_nil, <- replicate_add. f_equal.
    unfold chs. rewrite length_take. lia. }
  rewrite Hflags.
  destruct (categorize_spec chs (replicate (n - length chs) false) UI.getCategories [])
    as (Hsub & Hfresh & Hsound & Hcomplete).
  eexists. eexists. split; [reflexivity|]. cbn [UI.fileLists UI.list_files UI.list_categories].
  split_and!; try done.
  - intros cat x Hin. split.
    + intros Hx. destruct (Hsound cat x Hin Hx) as (Hmem & _ & Hd). done.
    + intros (Hmem & d & Hd & Hname).
      destruct (Hcomplete x d Hmem eq_refl Hd) as (cat' & Hin' & Hname' & Hx).
      assert (cat = cat') as ->; [|by exists false].
      eapply (same_key_same_element UI.cat_name); [|exact Hin|exact Hin'|congruence].
      eapply sublist_NoDup; [apply getCategories_names_NoDup|exact Hsub].
  - intros x Hmem Hline.
    destruct (first_match_total x Hline) as [d Hd].
    destruct (Hcomplete x d Hmem eq_refl Hd) as (cat & Hin & _ & Hx).
    by exists cat.
Qed.

Lemma addFile_first_matching_category_witness :
  exists st' l,
    UI.addFile ["b.0001.exr"; "b.0002.exr"]
      {| UI.fileLists := []; UI.selectedIndex := -1; UI.commonPrefix := "" |}
    = Some st' /\
    UI.fileLists st' = [l] /\
    Forall UI.fresh_category (UI.list_categories l) /\
    UI.cat_name <$> UI.list_categories l = ["Color (Beauty)"].
Proof.
  edestruct (addFile_first_matching_category _ _ "b.0001.exr" ["b.0002.exr"]
               {| UI.fileLists := []; UI.selectedIndex := -1; UI.commonPrefix := "" |})
    as (st' & l & Hadd & Hlists & _ & Hfresh & _).
  - vm_compute. reflexivity.
  - exists st', l. split_and!; [done|done|done|].
    vm_compute in Hadd. injection Hadd as <-.
    simpl in Hlists. injection Hlists as <-. vm_compute. reflexivity.
Defined.

(** ** "Save" *)

Section Save.
Context `{codec : Tinyexr}.

Lemma selected_channels_ticked l c :
  c ∈ UI.selected_channels l <-> UI.ticked l c.
Proof.
  unfold UI.selected_channels, UI.ticked. rewrite list_elem_of_bind. split.
  - intros (cat & Hc & Hcat). exists cat. split; [done|].
    apply list_elem_of_fmap in Hc as ([x b] & -> & Hin).
    apply list_elem_of_In, filter_In in Hin as [Hin Hb].
    apply list_elem_of_In, elem_of_map_to_list in Hin.
    simpl in Hb. subst b. done.
  - intros (cat & Hcat & Hc). exists cat. split; [|done].
    apply list_elem_of_fmap. exists (c, true). split; [done|].
    apply list_elem_of_In, filter_In. split; [|done].
    apply list_elem_of_In, elem_of_map_to_list. done.
Qed.

Lemma save_files_member st ef :
  ef ∈ UI.save_files st ->
  exists l, l ∈ UI.fileLists st /\ file_name ef ∈ UI.list_files l /\
            file_channels ef = UI.selected_channels l.
Proof.
  unfold UI.save_files. rewrite list_elem_of_bind.
  intros (l & Hef & Hl). exists l. split; [done|].
  apply list_elem_of_fmap in Hef as (f & -> & Hf). done.
Qed.

Lemma save_files_names st :
  file_name <$> UI.save_files st = (l ← UI.fileLists st; UI.list_files l).
Proof.
  unfold UI.save_files.
  induction (UI.fileLists st) as [|l ls IH]; [done|].
  rewrite !bind_cons, fmap_app, IH. f_equal.
  rewrite <- list_fmap_compose. apply list_fmap_id.
Qed.

Lemma map_push_back_members (P : exrtool_run_file -> Prop) k rf m :
  P rf -> Forall (fun g => Forall P g.2) m ->
  Forall (fun g => Forall P g.2) (map_push_back k rf m).
Proof.
  intros Hrf. induction 1 as [|[k' v] m Hv Hm IH]; simpl.
  - constructor; [|constructor]. simpl. by constructor.
  - destruct (k <? k').
    { constructor; [simpl; by constructor|]. by constructor. }
    destruct (k =? k').
    + constructor; [|done]. simpl in *. apply Forall_app. split; [done|].
      by constructor.
    + by constructor.
Qed.

Lemma group_files_members (P : exrtool_run_file -> Prop) fs :
  Forall (fun f => P (run_file_of f)) fs ->
  Forall (fun g => Forall P g.2) (group_files fs).
Proof.
  induction fs as [|f fs IH] using rev_ind; intros Hfs; [constructor|].
  apply Forall_app in Hfs as [Hfs Hf]. apply Forall_cons in Hf as [Hf _].
  rewrite group_files_snoc. apply map_push_back_members; [done|by apply IH].
Qed.

Lemma decoded_prefix_member fs d : d ∈ decoded_prefix fs -> d.1.1 ∈ fs.
Proof.
  induction fs as [|file rest IH]; simpl; [by intros ?%elem_of_nil|].
  destruct (decode file) as [[header image]|]; [|by intros ?%elem_of_nil].
  intros [->|Hin]%elem_of_cons; [by left|right; by apply IH].
Qed.

(** A group none of whose files asks for a channel fails without a save. *)
Lemma process_frame_no_request w frame fs :
  Forall (fun f => channels f = ∅) fs ->
  exists w', process_frame w frame fs = Some (false, w') /\
    count_calls is_save_attempt (codec_log w')
      = count_calls is_save_attempt (codec_log w) /\
    progress_log w' = progress_log w /\
    threads (run w') = threads (run w).
Proof.
  intros Hfs.
  assert (Hchans : chans (decode_files fs no_locals w).1 = []).
  { pose proof (merged_supplied fs w) as Hsup.
    destruct (chans _) as [|c cs]; [done|]. exfalso.
    apply Forall_cons in Hsup as [(d & Hd & _ & Hc) _].
    apply decoded_prefix_member in Hd.
    rewrite Forall_forall in Hfs. rewrite (Hfs _ Hd) in Hc.
    by apply not_elem_of_empty in Hc. }
  destruct (process_frame_returns w frame fs)
    as ([b w'] & Hr & _ & _ & Hb & _ & Hlog & Hts & _).
  destruct (process_frame_calls w frame fs) as (r & Hr' & _ & Hsave).
  rewrite Hr in Hr'. injection Hr' as <-. simpl in *.
  rewrite Hchans in Hsave.
  assert (b = false) as ->.
  { rewrite Hb. unfold frame_errors. rewrite Hchans.
    destruct (all_decoded fs) eqn:Hall; [done|].
    apply decode_failure_nonempty in Hall. by destruct (decode_failure fs). }
  exists w'. split_and!; try done.
  destruct (all_decoded fs); lia.
Qed.

Lemma nothing_saved_set_worker tid s w :
  (forall ix, s <> Notifying ix) -> nothing_saved w ->
  nothing_saved (set_worker tid s w).
Proof.
  intros Hs (Hlog & Hts & Hpl). split_and!; [done| |done].
  simpl. destruct (decide (tid < length (threads (run w)))%nat) as [Hlt|Hge].
  - by apply Forall_insert.
  - rewrite list_insert_ge by lia. done.
Qed.

(** While no group asks for a channel, no action of a worker saves. *)
Lemma nothing_saved_step tid w :
  requests_nothing (frames (run w)) -> nothing_saved w ->
  nothing_saved (step tid w).
Proof.
  intros Hreq Hw. unfold step.
  destruct (threads (run w) !! tid) as [[ | ix | ix | | | | ]|] eqn:Hs; try done.
  - destruct (_ <=? _); apply nothing_saved_set_worker; done.
  - destruct (frames (run w) !! ix) as [[frame fs]|] eqn:Hg;
      [|by apply nothing_saved_set_worker].
    assert (Hfs : Forall (fun f => channels f = ∅) fs).
    { unfold requests_nothing in Hreq. rewrite Forall_forall in Hreq.
      apply (Hreq (frame, fs)). eapply list_elem_of_lookup_2. exact Hg. }
    destruct (process_frame_no_request w frame fs Hfs)
      as (w' & -> & Hlog & Hpl & Hts).
    apply nothing_saved_set_worker; [done|].
    destruct Hw as (Hw1 & Hw2 & Hw3). split_and!; congruence.
  - exfalso. destruct Hw as (_ & Hts & _). rewrite Forall_forall in Hts.
    apply (Hts (Notifying ix)) with ix; [|done].
    eapply list_elem_of_lookup_2. exact Hs.
  - by apply nothing_saved_set_worker.
  - apply nothing_saved_set_worker; [done|].
    destruct Hw as (Hw1 & Hw2 & Hw3). unfold notify.
    destruct (progress_fn _); [|done]. split_and!; [done|done|].
    simpl. apply Forall_app. split; [done|]. by constructor.
Qed.

Lemma nothing_saved_schedule sched : forall w,
  requests_nothing (frames (run w)) -> nothing_saved w ->
  nothing_saved (run_schedule sched w).
Proof.
  induction sched as [|tid sched IH]; intros w Hreq Hw; [done|].
  simpl. apply IH; [|by apply nothing_saved_step].
  destruct (step_same_setup tid w) as (-> & _). done.
Qed.

Lemma fresh_nothing_ticked st :
  Forall (fun l => Forall UI.fresh_category (UI.list_categories l)) (UI.fileLists st) ->
  UI.nothing_ticked st.
Proof.
  intros Hst l c Hl (cat & Hcat & Hc).
  rewrite Forall_forall in Hst. specialize (Hst l Hl).
  rewrite Forall_forall in Hst. destruct (Hst cat Hcat) as (_ & _ & Hfalse).
  by specialize (Hfalse c true Hc).
Qed.

Lemma nothing_ticked_requests st :
  UI.nothing_ticked st ->
  requests_nothing (group_files (UI.save_files st)).
Proof.
  intros Hst. apply (group_files_members (fun f => channels f = ∅)).
  apply Forall_forall. intros ef Hef.
  destruct (save_files_member st ef Hef) as (l & Hl & _ & Hchs).
  unfold run_file_of. simpl. rewrite Hchs.
  destruct (UI.selected_channels l) as [|c cs] eqn:Hsel; [done|].
  exfalso. apply (Hst l c Hl). apply selected_channels_ticked.
  rewrite Hsel. by left.
Qed.

End Save.

(** X16.  "Save" pressed while no channel is ticked writes nothing: however
    the workers of the run it starts are scheduled, [SaveEXRImageToFile] is
    never called, no worker gets to report a saved frame, and the progress
    callback only runs for workers that leave. *)
Theorem save_without_ticks_writes_nothing :
  forall (types : TinyexrTypes) (codec : Tinyexr)
         (cores : nat) (output : string) (st : UI.UIState) (sched : list nat),
    UI.nothing_ticked st ->
    nothing_saved
      (run_schedule sched (exrtool_process cores (UI.save_input output st))).
Proof.
  intros types codec cores output st sched Hst.
  apply nothing_saved_schedule.
  - simpl. by apply nothing_ticked_requests.
  - split_and!; simpl; [done| |done].
    apply Forall_replicate. done.
Qed.

Lemma save_without_ticks_writes_nothing_witness :
  let st := {| UI.fileLists :=
                 [{| UI.list_name := "a.0001.exr";
                     UI.list_files := ["a.0001.exr"; "c.0002.exr"];
                     UI.list_categories :=
                       [{| UI.cat_name := "Color (Beauty)"; UI.cat_open := false;
                           UI.cat_channels := {["R" := false]} |}] |}];
               UI.selectedIndex := 0; UI.commonPrefix := "" |} in
  let w := run_schedule [0; 0; 0; 0]%nat
             (exrtool_process 3 (UI.save_input "out.####.exr" st)) in
  UI.nothing_ticked st /\ nothing_saved w /\
  exrtool_poll w = (true, {| done := 2; max := 4 |}) /\
  exrtool_get_error w 0 = Some (FrameHasNoChannels 1).
Proof.
  intros st w.
  assert (Hst : UI.nothing_ticked st).
  { apply fresh_nothing_ticked. repeat constructor; simpl.
    - intros Hempty. apply (f_equal (fun m => m !! "R")) in Hempty.
      rewrite lookup_singleton_eq, lookup_empty in Hempty. discriminate.
    - intros x b Hx. apply lookup_singleton_Some in Hx as [_ <-]. done. }
  split_and!; [exact Hst| |vm_compute; reflexivity|vm_compute; reflexivity].
  apply (save_without_ticks_writes_nothing _ _ 3%nat "out.####.exr" st _ Hst).
Defined.

(** X17.  The input that "Save" hands to [exrtool_process] names the files
    of all lists in order, each with the channels ticked in its own list
    as the channels to use; the thread count is left at 0, so the run gets
    two workers fewer than there are cores, and at least one. *)
Theorem save_requests_ticked_channels :
  forall (types : TinyexrTypes) (codec : Tinyexr)
         (cores : nat) (output : string) (st : UI.UIState),
    let inp := UI.save_input output st in
    length (threads (run (exrtool_process cores inp)))
      = (if (2 <? cores)%nat then cores - 2 else 1)%nat /\
    output_name (run (exrtool_process cores inp)) = output /\
    file_name <$> files inp = UI.fileLists st ≫= UI.list_files /\
    forall ef, ef ∈ files inp ->
      exists l, l ∈ UI.fileLists st /\ file_name ef ∈ UI.list_files l /\
        forall c, use_channel (run_file_of ef) c = true <-> UI.ticked l c.
Proof.
  intros types codec cores output st inp. split_and!.
  - simpl. rewrite length_replicate. reflexivity.
  - reflexivity.
  - apply save_files_names.
  - intros ef Hef. destruct (save_files_member st ef Hef) as (l & Hl & Hf & Hchs).
    exists l. split_and!; [done|done|]. intros c.
    unfold use_channel, run_file_of. simpl.
    rewrite bool_decide_eq_true, elem_of_list_to_set, Hchs.
    apply selected_channels_ticked.
Qed.
